(** * Volta language server: diagnostics parser, compiler bridges and
      document lifecycle, embedded from the TypeScript sources.

    Sources embedded here:
    - [src/server/voltaCompiler.ts]  ([compileFile], [parseCompilerErrors],
      [runVoltaCompiler]);
    - [src/server/compilerInterface.ts] ([getSymbolInfoFromCompiler]);
    - [src/server/server.ts] (document handlers, [validateTextDocument],
      [onSignatureHelp]).

    Conventions of the embedding.
    - A JavaScript string is a list of characters ([list ascii]); a
      character stands for a UTF-16 code unit below 256.
    - A JavaScript number that holds an integer is a [Z]; the embedding is
      exact, so statements about parsed numerals carry the bound [2^53]
      under which JavaScript numbers are exact too.
    - Regular expressions are kept as syntax and run by a backtracking
      matcher with the priorities of the ECMAScript one (greedy
      quantifiers, left alternative first, leftmost start position). *)

From Stdlib Require Import ZArith Ascii String List Lia DecimalString.
From stdpp Require Import gmap strings list.
Import ListNotations.

Local Open Scope Z_scope.

(** ** JavaScript strings *)

Abbreviation str := (list ascii).

(** A string literal of the source. *)
Definition lit (s : string) : str := list_ascii_of_string s.

(** The code of a character. *)
Definition charCode (c : ascii) : nat := nat_of_ascii c.

Definition chr_eqb (a b : ascii) : bool := Ascii.eqb a b.

(** [\d] *)
Definition isDigit (c : ascii) : bool :=
  (48 <=? charCode c)%nat && (charCode c <=? 57)%nat.

(** [\w] : letters, digits and the underscore. *)
Definition isWord (c : ascii) : bool :=
  isDigit c
  || ((65 <=? charCode c)%nat && (charCode c <=? 90)%nat)
  || ((97 <=? charCode c)%nat && (charCode c <=? 122)%nat)
  || (charCode c =? 95)%nat.

(** White space and line terminators, as [String.prototype.trim] and [\s]
    see them: TAB, LF, VT, FF, CR, SP and NBSP. *)
Definition isSpace (c : ascii) : bool :=
  ((9 <=? charCode c)%nat && (charCode c <=? 13)%nat)
  || (charCode c =? 32)%nat || (charCode c =? 160)%nat.

(** Line terminators: the characters [.] does not match. *)
Definition isLineTerminator (c : ascii) : bool :=
  (charCode c =? 10)%nat || (charCode c =? 13)%nat.

(** [.] *)
Definition isDot (c : ascii) : bool := negb (isLineTerminator c).

Definition LF : ascii := ascii_of_nat 10.

(** [s.split(sep)] for a one-character separator. *)
Fixpoint split (sep : ascii) (s : str) : list str :=
  match s with
  | [] => [[]]
  | c :: s' =>
      if chr_eqb c sep then [] :: split sep s'
      else match split sep s' with
           | l :: ls => (c :: l) :: ls
           | [] => [[c]]
           end
  end.

Fixpoint dropWhile (p : ascii -> bool) (s : str) : str :=
  match s with
  | [] => []
  | c :: s' => if p c then dropWhile p s' else s
  end.

(** The longest prefix of [s] whose characters satisfy [p]. *)
Fixpoint takeWhile (p : ascii -> bool) (s : str) : str :=
  match s with
  | [] => []
  | c :: s' => if p c then c :: takeWhile p s' else []
  end.

(** [s.trim()] *)
Definition trim (s : str) : str :=
  rev (dropWhile isSpace (rev (dropWhile isSpace s))).

(** [s.substring(a, b)] for [0 <= a <= b]; indices beyond the end are
    clamped to the length, as JavaScript does. *)
Definition substring (a b : nat) (s : str) : str :=
  firstn (b - a) (skipn a s).

(** [s.substring(a)] *)
Definition substringFrom (a : nat) (s : str) : str := skipn a s.

(** [s.lastIndexOf(c)] for a one-character needle; [None] is [-1]. *)
Fixpoint lastIndexOf (c : ascii) (s : str) : option nat :=
  match s with
  | [] => None
  | x :: s' =>
      match lastIndexOf c s' with
      | Some i => Some (S i)
      | None => if chr_eqb x c then Some 0%nat else None
      end
  end.

Fixpoint isPrefix (p s : str) : bool :=
  match p, s with
  | [], _ => true
  | a :: p', b :: s' => chr_eqb a b && isPrefix p' s'
  | _ :: _, [] => false
  end.

(** [s.indexOf(needle)]; [None] is [-1]. *)
Fixpoint indexOf (needle s : str) : option nat :=
  if isPrefix needle s then Some 0%nat
  else match s with
       | [] => None
       | _ :: s' => option_map S (indexOf needle s')
       end.

(** [s.replace(needle, by)] with a string pattern: the first occurrence
    only. *)
Definition replaceFirst (needle by_ s : str) : str :=
  match indexOf needle s with
  | Some i => firstn i s ++ by_ ++ skipn (i + length needle) s
  | None => s
  end.

(** The number of characters of [s] equal to [c]
    ([(s.match(/c/g) || []).length]). *)
Definition countChar (c : ascii) (s : str) : nat :=
  length (filter (fun x => chr_eqb x c = true) s).

(** Value of a decimal digit. *)
Definition digitVal (c : ascii) : Z := Z.of_nat (charCode c) - 48.

(** [parseInt(s, 10)] on the text of a [\d+] capture: the value of the
    leading run of decimal digits.  (With no leading digit JavaScript
    gives NaN; the captures this is applied to are numerals, see
    [errorRegex_captures].) *)
Fixpoint parseIntAcc (acc : Z) (s : str) : Z :=
  match s with
  | c :: s' => if isDigit c then parseIntAcc (10 * acc + digitVal c) s' else acc
  | [] => acc
  end.

Definition parseInt (s : str) : Z := parseIntAcc 0 s.

(** [n.toString()] for a non-negative integer. *)
Definition toString (n : nat) : str :=
  lit (NilEmpty.string_of_uint (Nat.to_uint n)).

(** ** Regular expressions *)

Module Regex.

Inductive regex : Type :=
| Chr (c : ascii)              (* a literal character *)
| Str (w : str)                (* a run of literal characters *)
| Cls (p : ascii -> bool)      (* a character class: \d \w \s . *)
| Seq (r1 r2 : regex)          (* r1 r2 *)
| Alt (r1 r2 : regex)          (* r1|r2 *)
| Opt (r : regex)              (* r?  (greedy) *)
| Star (p : ascii -> bool)     (* c*  (greedy), c a character class *)
| Plus (p : ascii -> bool)     (* c+  (greedy), c a character class *)
| Group (n : nat) (r : regex)  (* the n-th capturing group *)
| Eos.                         (* $ *)

(** The captures: group number and captured text, latest first. *)
Abbreviation captures := (list (nat * str)).

Fixpoint getCapture (n : nat) (caps : captures) : option str :=
  match caps with
  | [] => None
  | (m, s) :: caps' => if (m =? n)%nat then Some s else getCapture n caps'
  end.

(** The text consumed between the input [s] and its suffix [s']. *)
Definition consumed (s s' : str) : str := firstn (length s - length s') s.

(** Greedy repetition of a character class: the longest run first, then
    shorter ones on backtracking. *)
Fixpoint star {R} (p : ascii -> bool) (s : str) (k : str -> option R) : option R :=
  match s with
  | c :: s' =>
      if p c then
        match star p s' k with
        | Some r => Some r
        | None => k s
        end
      else k s
  | [] => k []
  end.

(** The backtracking matcher, in continuation-passing style: [k] is what
    remains to be matched after [r]. *)
Fixpoint run {R} (r : regex) (s : str) (caps : captures)
    (k : str -> captures -> option R) : option R :=
  match r with
  | Chr c =>
      match s with
      | x :: s' => if chr_eqb x c then k s' caps else None
      | [] => None
      end
  | Str w => if isPrefix w s then k (skipn (length w) s) caps else None
  | Cls p =>
      match s with
      | x :: s' => if p x then k s' caps else None
      | [] => None
      end
  | Seq r1 r2 => run r1 s caps (fun s' caps' => run r2 s' caps' k)
  | Alt r1 r2 =>
      match run r1 s caps k with
      | Some res => Some res
      | None => run r2 s caps k
      end
  | Opt r' =>
      match run r' s caps k with
      | Some res => Some res
      | None => k s caps
      end
  | Star p => star p s (fun s' => k s' caps)
  | Plus p =>
      match s with
      | x :: s' => if p x then star p s' (fun s'' => k s'' caps) else None
      | [] => None
      end
  | Group n r' => run r' s caps (fun s' caps' => k s' ((n, consumed s s') :: caps'))
  | Eos =>
      match s with
      | [] => k [] caps
      | _ :: _ => None
      end
  end.

(** The result of [s.match(r)] for a regular expression without the [g]
    flag: the index of the match, the matched text and the captures. *)
Record MatchResult := {
  index : nat;
  matched : str;
  groups : captures
}.

(** Group [n] of a match ([match[n]]); [None] is [undefined]. *)
Definition group (n : nat) (m : MatchResult) : option str :=
  match n with
  | O => Some (matched m)
  | _ => getCapture n (groups m)
  end.

(** A match attempt at the start of [s]. *)
Definition matchHere (r : regex) (s : str) : option (str * captures) :=
  run r s [] (fun s' caps => Some (s', caps)).

(** The leftmost match: start positions are tried from [i] on. *)
Fixpoint search (r : regex) (i : nat) (s : str) : option MatchResult :=
  match matchHere r s with
  | Some (s', caps) =>
      Some {| index := i; matched := consumed s s'; groups := caps |}
  | None =>
      match s with
      | [] => None
      | _ :: s' => search r (S i) s'
      end
  end.

(** [s.match(r)] *)
Definition exec (r : regex) (s : str) : option MatchResult := search r 0 s.

(** What a successful run of the matcher on [r] amounts to: [r] matches
    a prefix of [s], [s'] is what follows it, and the captures go from
    [caps] to [caps']. *)
Inductive matches : regex -> str -> str -> captures -> captures -> Prop :=
| matches_Chr c s caps : matches (Chr c) (c :: s) s caps caps
| matches_Str w s caps : matches (Str w) (w ++ s) s caps caps
| matches_Cls (p : ascii -> bool) x s caps :
    p x = true -> matches (Cls p) (x :: s) s caps caps
| matches_Seq r1 r2 s s1 s2 caps caps1 caps2 :
    matches r1 s s1 caps caps1 -> matches r2 s1 s2 caps1 caps2 ->
    matches (Seq r1 r2) s s2 caps caps2
| matches_Alt_l r1 r2 s s' caps caps' :
    matches r1 s s' caps caps' -> matches (Alt r1 r2) s s' caps caps'
| matches_Alt_r r1 r2 s s' caps caps' :
    matches r2 s s' caps caps' -> matches (Alt r1 r2) s s' caps caps'
| matches_Opt_some r s s' caps caps' :
    matches r s s' caps caps' -> matches (Opt r) s s' caps caps'
| matches_Opt_none r s caps : matches (Opt r) s s caps caps
| matches_Star (p : ascii -> bool) a s caps :
    Forall (fun c => p c = true) a -> matches (Star p) (a ++ s) s caps caps
| matches_Plus (p : ascii -> bool) a s caps :
    a <> [] -> Forall (fun c => p c = true) a ->
    matches (Plus p) (a ++ s) s caps caps
| matches_Group n r s s' caps caps' :
    matches r s s' caps caps' ->
    matches (Group n r) s s' caps ((n, consumed s s') :: caps')
| matches_Eos caps : matches Eos [] [] caps caps.

End Regex.

Import Regex.

(** ** Diagnostics ([vscode-languageserver] types) *)

Inductive DiagnosticSeverity := SeverityError | SeverityWarning.

Record Position := { line : Z; character : Z }.

Record Range := { start : Position; end_ : Position }.

Record Diagnostic := {
  severity : DiagnosticSeverity;
  range : Range;
  message : str;
  source : str
}.

(** ** voltaCompiler.ts *)

(** [/:(\d+):(\d+)(?:-(\d+))?: (error|warning): (.+)/] *)
Definition errorRegex : regex :=
  Seq (Chr ":")
 (Seq (Group 1 (Plus isDigit))
 (Seq (Chr ":")
 (Seq (Group 2 (Plus isDigit))
 (Seq (Opt (Seq (Chr "-") (Group 3 (Plus isDigit))))
 (Seq (Str (lit ": "))
 (Seq (Group 4 (Alt (Str (lit "error")) (Str (lit "warning"))))
 (Seq (Str (lit ": "))
      (Group 5 (Plus isDot))))))))).

(** A capture that takes part in every match ([match[n]]). *)
Definition groupText (n : nat) (m : MatchResult) : str :=
  match group n m with
  | Some s => s
  | None => []
  end.

(** The body of the loop of [parseCompilerErrors], for a line that
    matched. *)
Definition diagnosticOfMatch (m : MatchResult) : Diagnostic :=
  let lineNum := parseInt (groupText 1 m) - 1 in
  let startCol := parseInt (groupText 2 m) in
  let endCol :=
    match group 3 m with
    | Some (c :: s) => parseInt (c :: s)
    | _ => startCol + 1
    end in
  let severityStr := groupText 4 m in
  let message := groupText 5 m in
  let severity :=
    if decide (severityStr = lit "error") then SeverityError
    else SeverityWarning in
  {| severity := severity;
     range := {| start := {| line := lineNum; character := startCol |};
                 end_ := {| line := lineNum; character := endCol |} |};
     message := trim message;
     source := lit "volta" |}.

(** One turn of the loop: [diagnostics.push(diagnostic)] when the line
    matches. *)
Definition parseLine (diagnostics : list Diagnostic) (line : str) : list Diagnostic :=
  match exec errorRegex line with
  | Some m => diagnostics ++ [diagnosticOfMatch m]
  | None => diagnostics
  end.

(** The diagnostics one line contributes. *)
Definition lineDiagnostics (line : str) : list Diagnostic :=
  match exec errorRegex line with
  | Some m => [diagnosticOfMatch m]
  | None => []
  end.

Definition parseCompilerErrors (stderr : str) : list Diagnostic :=
  let lines := split LF stderr in
  fold_left parseLine lines [].

(** What a spawned child process emits, in order: chunks of its output,
    ['error'] when it could not be started, ['close'] when it ended. *)
Inductive ProcEvent :=
| StdoutData (chunk : str)
| StderrData (chunk : str)
| ProcError (message : str)
| ProcClose (exitCode : Z).

(** The diagnostic [compileFile] makes when the compiler did not start. *)
Definition launchDiagnostic (errMessage : str) : Diagnostic :=
  {| severity := SeverityError;
     range := {| start := {| line := 0; character := 0 |};
                 end_ := {| line := 0; character := 0 |} |};
     message := lit "Failed to run Volta compiler: " ++ errMessage;
     source := lit "volta" |}.

(** The variables of the closure in [compileFile]: the text gathered from
    stderr, the array [diagnostics], and whether [resolve] was called. *)
Record CompileState := {
  cf_stderr : str;
  cf_diagnostics : list Diagnostic;
  cf_resolved : bool
}.

Definition compileFile_init : CompileState :=
  {| cf_stderr := []; cf_diagnostics := []; cf_resolved := false |}.

(** The three listeners of [compileFile]. *)
Definition compileFile_on (st : CompileState) (e : ProcEvent) : CompileState :=
  match e with
  | StdoutData _ => st
  | StderrData data =>
      {| cf_stderr := cf_stderr st ++ data;
         cf_diagnostics := cf_diagnostics st;
         cf_resolved := cf_resolved st |}
  | ProcClose _ =>
      let errors := parseCompilerErrors (cf_stderr st) in
      {| cf_stderr := cf_stderr st;
         cf_diagnostics := cf_diagnostics st ++ errors;
         cf_resolved := true |}
  | ProcError errMessage =>
      {| cf_stderr := cf_stderr st;
         cf_diagnostics := cf_diagnostics st ++ [launchDiagnostic errMessage];
         cf_resolved := true |}
  end.

(** [compileFile]: the promise is resolved with the array [diagnostics]
    itself, so its reader sees what the array holds when it resumes;
    [events] are the events the child process delivered until then.
    [None]: the promise is still pending. *)
Definition compileFile (events : list ProcEvent) : option (list Diagnostic) :=
  let st := fold_left compileFile_on events compileFile_init in
  if cf_resolved st then Some (cf_diagnostics st) else None.

Record CompilerResult := {
  diagnostics : list Diagnostic;
  success : bool
}.

(** What the file system and the child process do during one run of
    [runVoltaCompiler]: [fs.writeFile] fails with a message or succeeds,
    and the compiler then emits its events. *)
Record CompilerRun := {
  writeError : option str;
  procEvents : list ProcEvent
}.

Inductive Outcome (A : Type) :=
| Returned (a : A)     (* the promise is fulfilled *)
| Thrown (err : str)   (* the promise is rejected *)
| Pending.             (* the promise is never settled *)
Arguments Returned {A} a.
Arguments Thrown {A} err.
Arguments Pending {A}.

(** [runVoltaCompiler]: the scratch file is written, the compiler run on
    it, and the file removed again. *)
Definition runVoltaCompiler (env : CompilerRun)
    (compilerPath fileContent documentUri : str) : Outcome CompilerResult :=
  match writeError env with
  | Some err => Thrown err
  | None =>
      match compileFile (procEvents env) with
      | Some diagnostics =>
          Returned {| diagnostics := diagnostics;
                      success := (length diagnostics =? 0)%nat |}
      | None => Pending
      end
  end.


(** ** The grammar of a diagnostic line, as the specification words it *)

(** A decimal numeral: one digit or more. *)
Definition numeral (s : str) : Prop :=
  s <> [] /\ Forall (fun c => isDigit c = true) s.

(** The number a decimal numeral denotes (positional notation). *)
Fixpoint decimalValue (s : str) : Z :=
  match s with
  | [] => 0
  | c :: s' => digitVal c * 10 ^ Z.of_nat (length s') + decimalValue s'
  end.

(** The message of a diagnostic line: a non-empty text on one line, which
    white space may follow (the CR of a CRLF line end, for one). *)
Definition messageText (msg : str) : Prop :=
  exists body ws,
    msg = body ++ ws /\ body <> []
    /\ Forall (fun c => isDot c = true) body
    /\ Forall (fun c => isSpace c = true) ws.

(** [:<line>:<col>[-<col2>]: (error|warning): <message>] *)
Definition grammarLine (ln col : str) (col2 : option str) (tag msg : str) : str :=
  lit ":" ++ ln ++ lit ":" ++ col
  ++ match col2 with Some c2 => lit "-" ++ c2 | None => [] end
  ++ lit ": " ++ tag ++ lit ": " ++ msg.

Definition severityOfTag (tag : str) : DiagnosticSeverity :=
  if decide (tag = lit "error") then SeverityError else SeverityWarning.

(** The largest integer below which every integer is a JavaScript
    number. *)
Definition MAX_SAFE : Z := 2 ^ 53.

(** The diagnostic the specification describes for a line of the
    grammar. *)
Definition grammarDiagnostic (ln col : str) (col2 : option str) (tag msg : str)
    : Diagnostic :=
  {| severity := severityOfTag tag;
     range :=
       {| start := {| line := decimalValue ln - 1;
                      character := decimalValue col |};
          end_ := {| line := decimalValue ln - 1;
                     character := match col2 with
                                  | Some c2 => decimalValue c2
                                  | None => decimalValue col + 1
                                  end |} |};
     message := trim msg;
     source := lit "volta" |}.

(** ** compilerInterface.ts *)

Module CompilerInterface.

(** An entry of [parameters]. *)
Module ParameterDoc.
Record t := {
  name : str;
  documentation : str
}.
End ParameterDoc.

(** The member [result]; an optional member that is absent is [None]. *)
Record SymbolResult := {
  kind : str;
  name : str;
  type : str;
  signature : str;
  parameters : option (list ParameterDoc.t);
  documentation : option str;
  returnDoc : option str
}.

Record ErrorInfo := {
  code : str;
  message : str
}.

Record CompilerSymbolInfo := {
  success : bool;
  result : option SymbolResult;
  error : option ErrorInfo
}.

(** What [JSON.parse] makes of the compiler's output: a value, read at
    the type [CompilerSymbolInfo] the source declares for it, or a thrown
    [SyntaxError], given by its text. *)
Inductive Parsed :=
| Value (v : CompilerSymbolInfo)
| SyntaxError (description : str).

(** The variables of the closure in [getSymbolInfoFromCompiler]: the text
    gathered from both streams and the value the promise was resolved
    with, if it was. *)
Record QueryState := {
  q_stdout : str;
  q_stderr : str;
  q_resolved : option CompilerSymbolInfo
}.

Definition query_init : QueryState :=
  {| q_stdout := []; q_stderr := []; q_resolved := None |}.

(** [resolve(v)]: only the first call settles the promise. *)
Definition resolve (v : CompilerSymbolInfo) (st : QueryState) : QueryState :=
  match q_resolved st with
  | Some _ => st
  | None => {| q_stdout := q_stdout st; q_stderr := q_stderr st;
               q_resolved := Some v |}
  end.

Definition parseFailure (e : str) : CompilerSymbolInfo :=
  {| success := false;
     result := None;
     error := Some {| code := lit "PARSE_ERROR";
                      message := lit "Failed to parse compiler output: " ++ e |} |}.

Definition spawnFailure (errMessage : str) : CompilerSymbolInfo :=
  {| success := false;
     result := None;
     error := Some {| code := lit "SPAWN_ERROR";
                      message := lit "Failed to spawn compiler: " ++ errMessage |} |}.

Section Query.

(** [JSON.parse], a built-in of the JavaScript runtime. *)
Variable JSON_parse : str -> Parsed.

(** The four listeners of [getSymbolInfoFromCompiler]. *)
Definition query_on (st : QueryState) (e : ProcEvent) : QueryState :=
  match e with
  | StdoutData data =>
      {| q_stdout := q_stdout st ++ data; q_stderr := q_stderr st;
         q_resolved := q_resolved st |}
  | StderrData data =>
      {| q_stdout := q_stdout st; q_stderr := q_stderr st ++ data;
         q_resolved := q_resolved st |}
  | ProcClose _ =>
      match JSON_parse (q_stdout st) with
      | Value result => resolve result st
      | SyntaxError e => resolve (parseFailure e) st
      end
  | ProcError errMessage => resolve (spawnFailure errMessage) st
  end.

(** The child process, as the client sees it: the events it emits when
    started with a command and its arguments. *)
Variable spawn : str -> list str -> list ProcEvent.

(** [getSymbolInfoFromCompiler]: the value the promise is resolved with;
    [Pending] when the process emits neither ['close'] nor ['error'].
    The promise is never rejected. *)
Definition getSymbolInfoFromCompiler (compilerPath filePath : str)
    (line column : nat) : Outcome CompilerSymbolInfo :=
  let args := [lit "--lsp-info"; filePath; toString line; toString column] in
  let process := spawn compilerPath args in
  match q_resolved (fold_left query_on process query_init) with
  | Some v => Returned v
  | None => Pending
  end.

End Query.

(** A chunk of output of the child process. *)
Definition isOutput (e : ProcEvent) : bool :=
  match e with
  | StdoutData _ | StderrData _ => true
  | ProcError _ | ProcClose _ => false
  end.

(** The text a run of events writes to standard output. *)
Fixpoint stdoutOf (events : list ProcEvent) : str :=
  match events with
  | [] => []
  | StdoutData data :: events' => data ++ stdoutOf events'
  | _ :: events' => stdoutOf events'
  end.

End CompilerInterface.

(** ** server.ts *)

Record VoltaSettings := {
  maxNumberOfProblems : Z;
  compilerPath : str
}.

Definition defaultSettings : VoltaSettings :=
  {| maxNumberOfProblems := 1000; compilerPath := lit "volta" |}.

(** A [TextDocument] object of the document manager. *)
Record TextDocument := {
  uri : str;
  text : str
}.

(** A pending timer of [setTimeout]: its handle, the time it is due, and
    what the callback of [onDidChangeContent] captured: [uri] and the
    object [change.document]. *)
Record Timer := {
  tm_id : nat;
  tm_due : Z;
  tm_uri : str;
  tm_document : nat
}.

(** The promise [getDocumentSettings] returns: [Promise.resolve] of the
    global settings, or the request sent to the client. *)
Inductive SettingsPromise :=
| Resolved (settings : VoltaSettings)
| Requested (request : nat).

(** Where a call of [validateTextDocument] is suspended: at
    [await getDocumentSettings(...)], or at [await runVoltaCompiler(...)]. *)
Inductive Stage :=
| AwaitSettings (text : str) (promise : SettingsPromise)
| AwaitCompiler (compilerPath : str) (text : str).

Record Task := {
  task_uri : str;
  task_stage : Stage
}.

(** The lines written with [connection.console.log]. *)
Inductive LogMessage :=
| LogCompilerNotFound
| LogCompilerFound (path : str)
| LogValidating (uri : str)
| LogCompilerNotAvailable
| LogValidated (uri : str)
| LogHasErrors (count : nat) (uri : str)
| LogValidationError (err : str).

(** What the server does that can be seen from outside, and the entries
    of [validateTextDocument]. *)
Inductive Action :=
| Validate (uri text : str)
| ConsoleLog (m : LogMessage)
| ShowCompilerNotFound
| SendDiagnostics (uri : str) (diagnostics : list Diagnostic).

Record Server := {
  now : Z;  (* the clock, in milliseconds *)
  nextId : nat;  (* the next fresh identity (objects, timers, requests, tasks) *)
  hasConfigurationCapability : bool;
  voltaCompilerPath : option str;
  globalSettings : VoltaSettings;
  documentSettings : gmap str nat;  (* the cached promises, by the request each stands for *)
  validatedDocuments : gset str;
  validationTimers : gmap str nat;
  timers : list Timer;  (* the pending timers of the runtime, oldest first *)
  objects : gmap nat TextDocument;  (* the TextDocument objects *)
  synced : gmap str nat;  (* the document manager: the object open under a URI *)
  tasks : gmap nat Task;  (* the calls of validateTextDocument that are suspended *)
  trace : list Action  (* what the server did, oldest first *)
}.

Definition set_now (v : Z) (s : Server) : Server :=
  {| now := v; nextId := nextId s;
     hasConfigurationCapability := hasConfigurationCapability s;
     voltaCompilerPath := voltaCompilerPath s;
     globalSettings := globalSettings s;
     documentSettings := documentSettings s;
     validatedDocuments := validatedDocuments s;
     validationTimers := validationTimers s; timers := timers s;
     objects := objects s; synced := synced s; tasks := tasks s;
     trace := trace s |}.

Definition set_nextId (v : nat) (s : Server) : Server :=
  {| now := now s; nextId := v;
     hasConfigurationCapability := hasConfigurationCapability s;
     voltaCompilerPath := voltaCompilerPath s;
     globalSettings := globalSettings s;
     documentSettings := documentSettings s;
     validatedDocuments := validatedDocuments s;
     validationTimers := validationTimers s; timers := timers s;
     objects := objects s; synced := synced s; tasks := tasks s;
     trace := trace s |}.

Definition set_hasConfigurationCapability (v : bool) (s : Server) : Server :=
  {| now := now s; nextId := nextId s; hasConfigurationCapability := v;
     voltaCompilerPath := voltaCompilerPath s;
     globalSettings := globalSettings s;
     documentSettings := documentSettings s;
     validatedDocuments := validatedDocuments s;
     validationTimers := validationTimers s; timers := timers s;
     objects := objects s; synced := synced s; tasks := tasks s;
     trace := trace s |}.

Definition set_voltaCompilerPath (v : option str) (s : Server) : Server :=
  {| now := now s; nextId := nextId s;
     hasConfigurationCapability := hasConfigurationCapability s;
     voltaCompilerPath := v; globalSettings := globalSettings s;
     documentSettings := documentSettings s;
     validatedDocuments := validatedDocuments s;
     validationTimers := validationTimers s; timers := timers s;
     objects := objects s; synced := synced s; tasks := tasks s;
     trace := trace s |}.

Definition set_globalSettings (v : VoltaSettings) (s : Server) : Server :=
  {| now := now s; nextId := nextId s;
     hasConfigurationCapability := hasConfigurationCapability s;
     voltaCompilerPath := voltaCompilerPath s;
     globalSettings := v;
     documentSettings := documentSettings s;
     validatedDocuments := validatedDocuments s;
     validationTimers := validationTimers s; timers := timers s;
     objects := objects s; synced := synced s; tasks := tasks s;
     trace := trace s |}.

Definition set_documentSettings (v : gmap str nat) (s : Server) : Server :=
  {| now := now s; nextId := nextId s;
     hasConfigurationCapability := hasConfigurationCapability s;
     voltaCompilerPath := voltaCompilerPath s;
     globalSettings := globalSettings s; documentSettings := v;
     validatedDocuments := validatedDocuments s;
     validationTimers := validationTimers s; timers := timers s;
     objects := objects s; synced := synced s; tasks := tasks s;
     trace := trace s |}.

Definition set_validatedDocuments (v : gset str) (s : Server) : Server :=
  {| now := now s; nextId := nextId s;
     hasConfigurationCapability := hasConfigurationCapability s;
     voltaCompilerPath := voltaCompilerPath s;
     globalSettings := globalSettings s;
     documentSettings := documentSettings s; validatedDocuments := v;
     validationTimers := validationTimers s; timers := timers s;
     objects := objects s; synced := synced s; tasks := tasks s;
     trace := trace s |}.

Definition set_validationTimers (v : gmap str nat) (s : Server) : Server :=
  {| now := now s; nextId := nextId s;
     hasConfigurationCapability := hasConfigurationCapability s;
     voltaCompilerPath := voltaCompilerPath s;
     globalSettings := globalSettings s;
     documentSettings := documentSettings s;
     validatedDocuments := validatedDocuments s; validationTimers := v;
     timers := timers s; objects := objects s; synced := synced s;
     tasks := tasks s; trace := trace s |}.

Definition set_timers (v : list Timer) (s : Server) : Server :=
  {| now := now s; nextId := nextId s;
     hasConfigurationCapability := hasConfigurationCapability s;
     voltaCompilerPath := voltaCompilerPath s;
     globalSettings := globalSettings s;
     documentSettings := documentSettings s;
     validatedDocuments := validatedDocuments s;
     validationTimers := validationTimers s; timers := v;
     objects := objects s; synced := synced s; tasks := tasks s;
     trace := trace s |}.

Definition set_objects (v : gmap nat TextDocument) (s : Server) : Server :=
  {| now := now s; nextId := nextId s;
     hasConfigurationCapability := hasConfigurationCapability s;
     voltaCompilerPath := voltaCompilerPath s;
     globalSettings := globalSettings s;
     documentSettings := documentSettings s;
     validatedDocuments := validatedDocuments s;
     validationTimers := validationTimers s; timers := timers s;
     objects := v; synced := synced s; tasks := tasks s; trace := trace s |}.

Definition set_synced (v : gmap str nat) (s : Server) : Server :=
  {| now := now s; nextId := nextId s;
     hasConfigurationCapability := hasConfigurationCapability s;
     voltaCompilerPath := voltaCompilerPath s;
     globalSettings := globalSettings s;
     documentSettings := documentSettings s;
     validatedDocuments := validatedDocuments s;
     validationTimers := validationTimers s; timers := timers s;
     objects := objects s; synced := v; tasks := tasks s; trace := trace s |}.

Definition set_tasks (v : gmap nat Task) (s : Server) : Server :=
  {| now := now s; nextId := nextId s;
     hasConfigurationCapability := hasConfigurationCapability s;
     voltaCompilerPath := voltaCompilerPath s;
     globalSettings := globalSettings s;
     documentSettings := documentSettings s;
     validatedDocuments := validatedDocuments s;
     validationTimers := validationTimers s; timers := timers s;
     objects := objects s; synced := synced s; tasks := v;
     trace := trace s |}.

Definition set_trace (v : list Action) (s : Server) : Server :=
  {| now := now s; nextId := nextId s;
     hasConfigurationCapability := hasConfigurationCapability s;
     voltaCompilerPath := voltaCompilerPath s;
     globalSettings := globalSettings s;
     documentSettings := documentSettings s;
     validatedDocuments := validatedDocuments s;
     validationTimers := validationTimers s; timers := timers s;
     objects := objects s; synced := synced s; tasks := tasks s;
     trace := v |}.

Definition initialServer : Server :=
  {| now := 0; nextId := 0;
     hasConfigurationCapability := false;
     voltaCompilerPath := None;
     globalSettings := defaultSettings;
     documentSettings := ∅;
     validatedDocuments := ∅;
     validationTimers := ∅;
     timers := [];
     objects := ∅;
     synced := ∅;
     tasks := ∅;
     trace := [] |}.

Definition record (a : Action) (s : Server) : Server :=
  set_trace (trace s ++ [a]) s.

(** [getDocumentSettings] *)
Definition getDocumentSettings (resource : str) (s : Server)
    : SettingsPromise * Server :=
  if negb (hasConfigurationCapability s) then
    (Resolved (globalSettings s), s)
  else
    match documentSettings s !! resource with
    | Some request => (Requested request, s)
    | None =>
        let request := nextId s in
        (Requested request,
         set_documentSettings (<[resource := request]> (documentSettings s))
           (set_nextId (S request) s))
    end.

(** [validateTextDocument], up to its first [await]. *)
Definition validateTextDocument (textDocument : TextDocument) (s : Server) : Server :=
  let text := text textDocument in
  let '(promise, s1) := getDocumentSettings (uri textDocument) s in
  let task := nextId s1 in
  set_tasks (<[task := {| task_uri := uri textDocument;
                          task_stage := AwaitSettings text promise |}]> (tasks s1))
    (set_nextId (S task) (record (Validate (uri textDocument) text) s1)).

(** [validateTextDocument], from the settings to the call of
    [runVoltaCompiler].  [answer] is what the client answered to the
    request of the settings. *)
Definition validate_settings (task : nat) (answer : VoltaSettings) (s : Server) : Server :=
  match tasks s !! task with
  | Some {| task_uri := uri; task_stage := AwaitSettings text promise |} =>
      let settings :=
        match promise with
        | Resolved v => v
        | Requested _ => answer
        end in
      let s1 := record (ConsoleLog (LogValidating uri)) s in
      match voltaCompilerPath s1 with
      | Some (c :: path) =>
          set_tasks (<[task := {| task_uri := uri;
                                  task_stage := AwaitCompiler (c :: path) text |}]>
                       (tasks s1)) s1
      | _ =>
          set_tasks (delete task (tasks s1))
            (record (ConsoleLog LogCompilerNotAvailable) s1)
      end
  | _ => s
  end.

(** [validateTextDocument], from the result of [runVoltaCompiler] on. *)
Definition validate_compiled (task : nat) (env : CompilerRun) (s : Server) : Server :=
  match tasks s !! task with
  | Some {| task_uri := uri; task_stage := AwaitCompiler voltaCompilerPath text |} =>
      match runVoltaCompiler env voltaCompilerPath text uri with
      | Returned result =>
          let s1 := record (SendDiagnostics uri (diagnostics result)) s in
          let s2 :=
            if success result then record (ConsoleLog (LogValidated uri)) s1
            else record (ConsoleLog (LogHasErrors (length (diagnostics result)) uri)) s1 in
          set_tasks (delete task (tasks s2)) s2
      | Thrown err =>
          set_tasks (delete task (tasks s))
            (record (ConsoleLog (LogValidationError err)) s)
      | Pending => s
      end
  | _ => s
  end.

(** [clearTimeout] *)
Definition clearTimeout (timer : nat) (s : Server) : Server :=
  set_timers (filter (fun tm => tm_id tm <> timer) (timers s)) s.

(** [documents.onDidClose] *)
Definition onDidClose (document : TextDocument) (s : Server) : Server :=
  let s1 := set_documentSettings (delete (uri document) (documentSettings s)) s in
  match validationTimers s1 !! uri document with
  | Some timer =>
      let s2 := clearTimeout timer s1 in
      set_validationTimers (delete (uri document) (validationTimers s2)) s2
  | None => s1
  end.

(** [documents.onDidOpen] *)
Definition onDidOpen (document : TextDocument) (s : Server) : Server :=
  let uri := uri document in
  if decide (uri ∈ validatedDocuments s) then s
  else
    validateTextDocument document
      (set_validatedDocuments ({[uri]} ∪ validatedDocuments s) s).

(** The quiet period of the debounce, in milliseconds. *)
Definition quietPeriod : Z := 1000.

(** [documents.onDidChangeContent]; [object] is [change.document]. *)
Definition onDidChangeContent (object : nat) (document : TextDocument)
    (s : Server) : Server :=
  let uri := uri document in
  let s1 :=
    match validationTimers s !! uri with
    | Some existingTimer => clearTimeout existingTimer s
    | None => s
    end in
  let timer := nextId s1 in
  let s2 :=
    set_timers (timers s1 ++ [ {| tm_id := timer; tm_due := now s1 + quietPeriod;
                                  tm_uri := uri; tm_document := object |} ])
      (set_nextId (S timer) s1) in
  set_validationTimers (<[uri := timer]> (validationTimers s2)) s2.

(** The callback of the timer. *)
Definition timerFires (tm : Timer) (s : Server) : Server :=
  let s1 :=
    match objects s !! tm_document tm with
    | Some document => validateTextDocument document s
    | None => s
    end in
  set_validationTimers (delete (tm_uri tm) (validationTimers s1)) s1.

(** Time passes until [t]: the timers due by then fire, oldest first. *)
Definition advance (t : Z) (s : Server) : Server :=
  let t := Z.max t (now s) in
  let due := filter (fun tm => tm_due tm <= t) (timers s) in
  let later := filter (fun tm => ~ tm_due tm <= t) (timers s) in
  fold_left (fun s tm => timerFires tm s) due (set_timers later (set_now t s)).

(** [connection.onInitialize] *)
Definition onInitialize (configuration : bool) (s : Server) : Server :=
  set_hasConfigurationCapability configuration s.

(** [connection.onInitialized]; [found] is what [findVoltaCompiler]
    returns. *)
Definition onInitialized (found : option str) (s : Server) : Server :=
  let s1 := set_voltaCompilerPath found s in
  match found with
  | Some (c :: path) => record (ConsoleLog (LogCompilerFound (c :: path))) s1
  | _ => record (ConsoleLog LogCompilerNotFound) (record ShowCompilerNotFound s1)
  end.

(** What happens to the server: the notifications of the client, as the
    document manager of [vscode-languageserver] passes them to the
    handlers, and the completions of what a validation waits for. *)
Inductive Event :=
| Initialize (configuration : bool)
| Initialized (found : option str)
| DidOpenTextDocument (uri text : str)
| DidChangeTextDocument (uri text : str)
| DidCloseTextDocument (uri : str)
| SettingsAwaited (task : nat) (answer : VoltaSettings)
| CompilerRunDone (task : nat) (env : CompilerRun).

Definition handle (e : Event) (s : Server) : Server :=
  match e with
  | Initialize configuration => onInitialize configuration s
  | Initialized found => onInitialized found s
  | DidOpenTextDocument u content =>
      (* a new object is created, then onDidOpen and onDidChangeContent
         are fired *)
      let object := nextId s in
      let document := {| uri := u; text := content |} in
      let s1 :=
        set_synced (<[u := object]> (synced s))
          (set_objects (<[object := document]> (objects s))
             (set_nextId (S object) s)) in
      onDidChangeContent object document (onDidOpen document s1)
  | DidChangeTextDocument u content =>
      (* the object is updated in place, then onDidChangeContent is fired *)
      match synced s !! u with
      | Some object =>
          match objects s !! object with
          | Some old =>
              let document := {| uri := uri old; text := content |} in
              onDidChangeContent object document
                (set_objects (<[object := document]> (objects s)) s)
          | None => s
          end
      | None => s
      end
  | DidCloseTextDocument u =>
      match synced s !! u with
      | Some object =>
          match objects s !! object with
          | Some document =>
              onDidClose document (set_synced (delete u (synced s)) s)
          | None => s
          end
      | None => s
      end
  | SettingsAwaited task answer => validate_settings task answer s
  | CompilerRunDone task env => validate_compiled task env s
  end.

(** An event at time [t]. *)
Definition step (s : Server) (te : Z * Event) : Server :=
  handle (snd te) (advance (fst te) s).

Definition runEvents (events : list (Z * Event)) (s : Server) : Server :=
  fold_left step events s.

(** The texts [validateTextDocument] was called with for [u], in order. *)
Fixpoint validations (u : str) (tr : list Action) : list str :=
  match tr with
  | [] => []
  | Validate uri text :: tr' =>
      if decide (uri = u) then text :: validations u tr' else validations u tr'
  | _ :: tr' => validations u tr'
  end.

(** The diagnostics the client shows for [u]: those of the last
    [sendDiagnostics] for it. *)
Fixpoint published (u : str) (tr : list Action) : option (list Diagnostic) :=
  match tr with
  | [] => None
  | a :: tr' =>
      match published u tr' with
      | Some ds => Some ds
      | None =>
          match a with
          | SendDiagnostics uri ds => if decide (uri = u) then Some ds else None
          | _ => None
          end
      end
  end.

(** ** Signature help *)

Module ParameterInformation.
Record t := {
  label : str;
  documentation : option str
}.
End ParameterInformation.

Module SignatureInformation.
Record t := {
  label : str;
  documentation : option str;
  parameters : list ParameterInformation.t
}.
End SignatureInformation.

Module SignatureHelp.
Record t := {
  signatures : list SignatureInformation.t;
  activeSignature : Z;
  activeParameter : Z
}.
End SignatureHelp.

(** [/(\w+)$/] *)
Definition functionNameRegex : regex := Seq (Group 1 (Plus isWord)) Eos.

(** [/fn\s+(\w+)\s*\(/] *)
Definition fnRegex : regex :=
  Seq (Str (lit "fn"))
 (Seq (Plus isSpace)
 (Seq (Group 1 (Plus isWord))
 (Seq (Star isSpace)
      (Chr "(")))).

(** [x || undefined] for a string: the empty string is falsy. *)
Definition orUndefined (x : str) : option str :=
  match x with
  | [] => None
  | _ :: _ => Some x
  end.

(** [l.join(sep)] *)
Fixpoint join (sep : str) (l : list str) : str :=
  match l with
  | [] => []
  | [x] => x
  | x :: l' => x ++ sep ++ join sep l'
  end.

(** The loop of [onSignatureHelp] that looks for the definition of
    [functionName], from line [i] on: the line, 1-indexed, and the column
    after the first [fn] of that line. *)
Fixpoint findFunctionDefinition (functionName : str) (i : nat) (lines : list str)
    : option (nat * nat) :=
  match lines with
  | [] => None
  | l :: lines' =>
      match exec fnRegex l with
      | Some fnMatch =>
          if decide (groupText 1 fnMatch = functionName) then
            Some ((i + 1)%nat,
                  match indexOf (lit "fn") l with
                  | Some j => (j + 3)%nat
                  | None => 2%nat
                  end)
          else findFunctionDefinition functionName (S i) lines'
      | None => findFunctionDefinition functionName (S i) lines'
      end
  end.

(** The text of the current line before the cursor; [None] when the
    document has no such line ([lines[line]] is [undefined]). *)
Definition textBeforeCursorOf (content : str) (line column : nat) : option str :=
  match split LF content !! line with
  | Some currentLine => Some (substring 0 column currentLine)
  | None => None
  end.

(** The active parameter: the commas between the parenthesis and the
    cursor, limited by the number of parameters. *)
Definition activeParameterOf (textBeforeCursor : str) (openParenIndex : nat)
    (parameterCount : nat) : Z :=
  let textInCall := substringFrom (openParenIndex + 1) textBeforeCursor in
  let commaCount := Z.of_nat (countChar "," textInCall) in
  let activeParameter := Z.min commaCount (Z.of_nat parameterCount - 1) in
  if 0 <=? activeParameter then activeParameter else 0.

Section SignatureHelpHandler.

Variable JSON_parse : str -> CompilerInterface.Parsed.
Variable spawn : str -> list str -> list ProcEvent.

(** [connection.onSignatureHelp], for a request on document [u] at
    [line], [column]. *)
Definition onSignatureHelp (s : Server) (u : str) (line column : nat)
    : Outcome (option SignatureHelp.t) :=
  match voltaCompilerPath s with
  | Some (c :: path) =>
      let voltaCompilerPath := c :: path in
      match synced s !! u with
      | None => Returned None
      | Some object =>
      match objects s !! object with
      | None => Returned None
      | Some document =>
      let filePath := replaceFirst (lit "file://") [] u in
      let text := text document in
      let lines := split LF text in
      match lines !! line with
      | None => Thrown (lit "TypeError")
      | Some currentLine =>
      let textBeforeCursor := substring 0 column currentLine in
      match lastIndexOf "(" textBeforeCursor with
      | None => Returned None
      | Some openParenIndex =>
      let beforeParen := trim (substring 0 openParenIndex textBeforeCursor) in
      match exec functionNameRegex beforeParen with
      | None => Returned None
      | Some functionNameMatch =>
      let functionName := groupText 1 functionNameMatch in
      match findFunctionDefinition functionName 0 lines with
      | None => Returned None
      | Some (functionDefLine, functionDefColumn) =>
      match CompilerInterface.getSymbolInfoFromCompiler JSON_parse spawn
              voltaCompilerPath filePath functionDefLine functionDefColumn with
      | Thrown _ => Returned None
      | Pending => Pending
      | Returned symbolInfo =>
      match CompilerInterface.success symbolInfo,
            CompilerInterface.result symbolInfo with
      | true, Some result =>
          match CompilerInterface.parameters result with
          | None => Returned None
          | Some resultParameters =>
              let parameters :=
                map (fun param =>
                       {| ParameterInformation.label :=
                            CompilerInterface.ParameterDoc.name param;
                          ParameterInformation.documentation :=
                            orUndefined
                              (CompilerInterface.ParameterDoc.documentation param) |})
                    resultParameters in
              let paramLabels :=
                join (lit ", ")
                  (map CompilerInterface.ParameterDoc.name resultParameters) in
              let signatureLabel :=
                CompilerInterface.name result ++ lit "(" ++ paramLabels ++ lit ")" in
              let signature :=
                {| SignatureInformation.label := signatureLabel;
                   SignatureInformation.documentation :=
                     match CompilerInterface.documentation result with
                     | Some (d :: doc) => Some (d :: doc)
                     | _ => None
                     end;
                   SignatureInformation.parameters := parameters |} in
              Returned
                (Some {| SignatureHelp.signatures := [signature];
                         SignatureHelp.activeSignature := 0;
                         SignatureHelp.activeParameter :=
                           activeParameterOf textBeforeCursor openParenIndex
                             (length parameters) |})
          end
      | _, _ => Returned None
      end
      end
      end
      end
      end
      end
      end
      end
  | _ => Returned None
  end.

End SignatureHelpHandler.

(** The opening parenthesis the specification describes: scanning
    [textBeforeCursor] backwards, the nearest [(] that no [)] before the
    cursor closes.  [depth] counts the closing parentheses still to be
    matched; the text is scanned from its end. *)
Fixpoint unmatchedOpenParen (reversed : str) (depth : nat) : option nat :=
  match reversed with
  | [] => None
  | c :: rest =>
      if chr_eqb c ")" then unmatchedOpenParen rest (S depth)
      else if chr_eqb c "(" then
        match depth with
        | O => Some (length rest)
        | S depth' => unmatchedOpenParen rest depth'
        end
      else unmatchedOpenParen rest depth
  end.

Definition nearestUnmatchedOpenParen (textBeforeCursor : str) : option nat :=
  unmatchedOpenParen (rev textBeforeCursor) 0.

(** ** Notions used in the statements *)

(** The settings with another limit on the number of problems. *)
Definition withMaxNumberOfProblems (n : Z) (settings : VoltaSettings) : VoltaSettings :=
  {| maxNumberOfProblems := n; compilerPath := compilerPath settings |}.

(** One validation from its call to its end: [validateTextDocument] is
    called on [document], the settings arrive ([answer] is what the
    client answers when it is asked), and the compiler run ends as [env]
    says. *)
Definition validationRun (document : TextDocument) (answer : VoltaSettings)
    (env : CompilerRun) (s : Server) : Server :=
  let s1 := validateTextDocument document s in
  let task := pred (nextId s1) in
  validate_compiled task env (validate_settings task answer s1).

(** What a whole validation adds to the trace. *)
Definition validationActions (document : TextDocument) (env : CompilerRun)
    (s : Server) : list Action :=
  [Validate (uri document) (text document);
   ConsoleLog (LogValidating (uri document))]
  ++ match voltaCompilerPath s with
     | Some (c :: path) =>
         match runVoltaCompiler env (c :: path) (text document) (uri document) with
         | Returned result =>
             [SendDiagnostics (uri document) (diagnostics result);
              ConsoleLog (if success result then LogValidated (uri document)
                          else LogHasErrors (length (diagnostics result))
                                 (uri document))]
         | Thrown err => [ConsoleLog (LogValidationError err)]
         | Pending => []
         end
     | _ => [ConsoleLog LogCompilerNotAvailable]
     end.

(** The lines of [stderr] that match the grammar of diagnostics. *)
Definition matchingLines (stderr : str) : list str :=
  filter (fun l => is_Some (exec errorRegex l)) (split LF stderr).

(** A compiler run that could not be launched: the child process emits
    ['error'], and no output. *)
Definition launchFailure (errMessage : str) (closes : list ProcEvent) : CompilerRun :=
  {| writeError := None; procEvents := ProcError errMessage :: closes |}.

Definition isClose (e : ProcEvent) : bool :=
  match e with
  | ProcClose _ => true
  | _ => false
  end.

(** A compiler run that wrote [stderr] and ended. *)
Definition compilerOutput (stderr : str) (exitCode : Z) : CompilerRun :=
  {| writeError := None; procEvents := [StderrData stderr; ProcClose exitCode] |}.

(** A notification shown to the user ([connection.window.showErrorMessage]). *)
Definition isNotification (a : Action) : bool :=
  match a with
  | ShowCompilerNotFound => true
  | _ => false
  end.

(** The pending timers that were set for [u]. *)
Definition timersOf (u : str) (s : Server) : list Timer :=
  filter (fun tm => tm_uri tm = u) (timers s).

(** The invariant of the server state: timers have distinct handles, each
    is the one [validationTimers] holds for its URI and refers to an
    object of that URI; the document manager maps a URI to an object of
    that URI; identities in use are below the next fresh one. *)
Record wf (s : Server) : Prop := {
  wf_ids : NoDup (map tm_id (timers s));
  wf_timer : forall tm, tm ∈ timers s ->
             validationTimers s !! tm_uri tm = Some (tm_id tm)
             /\ (tm_id tm < nextId s)%nat
             /\ (tm_document tm < nextId s)%nat
             /\ (forall doc, objects s !! tm_document tm = Some doc ->
                            uri doc = tm_uri tm);
  wf_synced : forall u object, synced s !! u = Some object ->
              (object < nextId s)%nat
              /\ exists doc, objects s !! object = Some doc /\ uri doc = u
}.

(** The states the server can be in. *)
Inductive reachable : Server -> Prop :=
| reachable_initial : reachable initialServer
| reachable_step s te : reachable s -> reachable (step s te).

(** ** Scenarios *)

Definition aUri : str := lit "file:///a.vlt".

Definition aCompiler : str := lit "/usr/bin/volta".

(** The server after its initialization, the compiler found. *)
Definition started : Server :=
  runEvents [(0, Initialize false); (0, Initialized (Some aCompiler))]
    initialServer.

(** A document is opened and its first validation reaches the compiler. *)
Definition validating : Server :=
  runEvents [(0, DidOpenTextDocument aUri (lit "x := 1"));
             (1, SettingsAwaited 1 defaultSettings)] started.

(** The compiler cannot be launched for that validation. *)
Definition launchFailed : Server :=
  step validating
    (5, CompilerRunDone 1
          (launchFailure (lit "spawn /usr/bin/volta ENOENT") [ProcClose (-2)])).

(** A document is validated on open (V1); it is edited and validated
    again after the quiet period (V2); both compiler runs are under way. *)
Definition twoInFlight : Server :=
  runEvents [(0, DidOpenTextDocument aUri (lit "old"));
             (1, SettingsAwaited 1 defaultSettings);
             (100, DidChangeTextDocument aUri (lit "new"));
             (1100, SettingsAwaited 4 defaultSettings)] started.

Definition oldOutput : CompilerRun := compilerOutput (lit ":1:1: error: old text") 1.
Definition newOutput : CompilerRun := compilerOutput (lit ":1:1: error: new text") 1.

(** V2 ends first, V1 after it. *)
Definition staleLast : Server :=
  runEvents [(1200, CompilerRunDone 4 newOutput);
             (1300, CompilerRunDone 1 oldOutput)] twoInFlight.

(** A document is opened, closed, and some time later opened again. *)
Definition closedAgain : Server :=
  runEvents [(0, DidOpenTextDocument aUri (lit "x := 1"));
             (5000, DidCloseTextDocument aUri)] started.

Definition reopened : Server :=
  step closedAgain (9000, DidOpenTextDocument aUri (lit "x := 1")).

(** A document with two functions and a nested call being typed. *)
Definition callsDocument : str :=
  lit "fn add(a: int, b: int) -> int { return a + b }
fn g(x: int) -> int { return x }
y := add(g(1), 
add(1, 
w := g(1) ".

Definition calling : Server :=
  step started (0, DidOpenTextDocument aUri callsDocument).

Definition functionInfo (functionName : str) (parameterNames : list str)
    : CompilerInterface.CompilerSymbolInfo :=
  {| CompilerInterface.success := true;
     CompilerInterface.result :=
       Some {| CompilerInterface.kind := lit "function";
               CompilerInterface.name := functionName;
               CompilerInterface.type := lit "fn";
               CompilerInterface.signature := lit "fn";
               CompilerInterface.parameters :=
                 Some (map (fun p => {| CompilerInterface.ParameterDoc.name := p;
                                        CompilerInterface.ParameterDoc.documentation := [] |})
                         parameterNames);
               CompilerInterface.documentation := None;
               CompilerInterface.returnDoc := None |};
     CompilerInterface.error := None |}.

(** A compiler that answers a query on line 1 with [add], and a query on
    another line with [g]; its output is kept as the line asked for, which
    the parser below reads. *)
Definition answeringCompiler (command : str) (args : list str) : list ProcEvent :=
  match args with
  | [_; _; l; _] => [StdoutData l; ProcClose 0]
  | _ => [ProcError (lit "usage")]
  end.

Definition answerParser (output : str) : CompilerInterface.Parsed :=
  if decide (output = lit "1") then
    CompilerInterface.Value (functionInfo (lit "add") [lit "a"; lit "b"])
  else
    CompilerInterface.Value (functionInfo (lit "g") [lit "x"]).

(** The label of the signature of a signature help, and its active
    parameter. *)
Definition helpSummary (answer : Outcome (option SignatureHelp.t))
    : option (list str * Z) :=
  match answer with
  | Returned (Some help) =>
      Some (map SignatureInformation.label (SignatureHelp.signatures help),
            SignatureHelp.activeParameter help)
  | _ => None
  end.

(** The signature help for [add], its second parameter active. *)
Definition addHelp : SignatureHelp.t :=
  {| SignatureHelp.signatures :=
       [ {| SignatureInformation.label := lit "add(a, b)";
            SignatureInformation.documentation := None;
            SignatureInformation.parameters :=
              [ {| ParameterInformation.label := lit "a";
                   ParameterInformation.documentation := None |};
                {| ParameterInformation.label := lit "b";
                   ParameterInformation.documentation := None |} ] |} ];
     SignatureHelp.activeSignature := 0;
     SignatureHelp.activeParameter := 1 |}.

(** What the callback of a timer adds to the trace: the entry of
    [validateTextDocument] for the object the timer refers to. *)
Definition fireActions (s : Server) (tm : Timer) : list Action :=
  match objects s !! tm_document tm with
  | Some document => [Validate (uri document) (text document)]
  | None => []
  end.

(** A burst of changes of the document [u], each with the time it comes
    at and the text it leaves. *)
Definition burstEvents (u : str) (changes : list (Z * str)) : list (Z * Event) :=
  map (fun c => (fst c, DidChangeTextDocument u (snd c))) changes.

(** Each change comes less than the quiet period after the one before;
    [t] is the time of the one before the first. *)
Fixpoint withinQuietPeriod (t : Z) (changes : list (Z * str)) : Prop :=
  match changes with
  | [] => True
  | c :: changes' =>
      t <= fst c < t + quietPeriod /\ withinQuietPeriod (fst c) changes'
  end.

(** The state of the server in a burst of changes of [u]: the object
    [d] is open under [u] and holds [content], the last change came at
    time [t] and left one timer for [u], due one quiet period later, and
    the validations of [u] so far are [base]. *)
Record inBurst (u : str) (d : nat) (t : Z) (content : str) (base : list str)
    (s : Server) : Prop := {
  burst_wf : wf s;
  burst_synced : synced s !! u = Some d;
  burst_object : objects s !! d = Some {| uri := u; text := content |};
  burst_now : now s = t;
  burst_timer : exists tm, timersOf u s = [tm]
                           /\ tm_due tm = t + quietPeriod /\ tm_document tm = d;
  burst_validations : validations u (trace s) = base
}.

(** * Further verified behaviour of the sources *)

(** The text a run of events writes to standard error. *)
Fixpoint stderrOf (events : list ProcEvent) : str :=
  match events with
  | [] => []
  | StderrData data :: events' => data ++ stderrOf events'
  | _ :: events' => stderrOf events'
  end.

(** The diagnostic of a match is made from its captures only. *)
Definition diagnosticsOfGroups (found : option captures) : list Diagnostic :=
  match found with
  | Some caps => [diagnosticOfMatch {| index := 0; matched := []; groups := caps |}]
  | None => []
  end.

(** Whether a promise has been settled with a value. *)
Definition isSettled {A} (o : option A) : bool :=
  match o with
  | Some _ => true
  | None => false
  end.

(** An event that ends the wait for the child process: ['close'] or
    ['error']. *)
Definition isEnd (e : ProcEvent) : bool := negb (CompilerInterface.isOutput e).

(** A [sendDiagnostics] of the trace. *)
Definition isSend (a : Action) : bool :=
  match a with
  | SendDiagnostics _ _ => true
  | _ => false
  end.

(** An event that gives the server a compiler: [onInitialized] with the
    compiler found. *)
Definition findsCompiler (e : Event) : bool :=
  match e with
  | Initialized (Some (_ :: _)) => true
  | _ => false
  end.

(** The server has no compiler: [voltaCompilerPath] is falsy. *)
Definition noCompiler (s : Server) : Prop :=
  match voltaCompilerPath s with
  | Some (_ :: _) => False
  | _ => True
  end.

(** No validation of the server waits for a compiler run. *)
Definition noneCompiling (s : Server) : Prop :=
  forall id t, tasks s !! id = Some t ->
               exists content promise, task_stage t = AwaitSettings content promise.

(** The event is the end of the compiler run of a validation of [v]. *)
Definition endsValidationOf (v : str) (e : Event) (s : Server) : Prop :=
  match e with
  | CompilerRunDone task _ =>
      match tasks s !! task with
      | Some t => task_uri t = v
      | None => False
      end
  | _ => False
  end.

(** Every entry of [validationTimers] is the handle of a pending timer of
    that URI. *)
Definition timersBacked (s : Server) : Prop :=
  forall u id, validationTimers s !! u = Some id ->
               exists tm, tm ∈ timers s /\ tm_id tm = id /\ tm_uri tm = u.

(** Every pending timer is for a document the document manager holds, and
    holds the object the manager has for it. *)
Definition timersOpen (s : Server) : Prop :=
  forall tm, tm ∈ timers s -> synced s !! tm_uri tm = Some (tm_document tm).

(** ** compilerPath.ts *)

Module CompilerPath.

(** What [findVoltaCompiler] reads of the machine: the files
    [fs.accessSync(p, X_OK)] accepts, what [which volta] prints ([None]
    when [execSync] throws), and [process.env.HOME]. *)
Record Host := {
  accessX : str -> bool;
  whichVolta : option str;
  HOME : option str
}.

Section Find.

(** [path.join], of the runtime. *)
Variable path_join : list str -> str.

Variable host : Host.

(** [isExecutable] *)
Definition isExecutable (filePath : str) : bool := accessX host filePath.

Definition commonPaths : list str :=
  [ lit "/usr/local/bin/volta";
    lit "/usr/bin/volta";
    path_join [ match HOME host with
                | Some (c :: home) => c :: home
                | _ => []
                end; lit ".local"; lit "bin"; lit "volta" ];
    lit "/home/quantum/coding/Volta/bin/volta" ].

(** Strategy 1: the path of the settings; with what [console.warn] is
    called with. *)
Definition configured (configuredPath : option str) : option str * list str :=
  match configuredPath with
  | Some (c :: path) =>
      if decide (c :: path = lit "volta") then (None, [])
      else if isExecutable (c :: path) then (Some (c :: path), [])
      else (None,
            [lit "Configured Volta compiler path not found or not executable: "
             ++ c :: path])
  | _ => (None, [])
  end.

(** Strategy 2: [which volta]. *)
Definition inPATH : option str :=
  match whichVolta host with
  | Some output =>
      match trim output with
      | c :: result => if isExecutable (c :: result) then Some (c :: result) else None
      | [] => None
      end
  | None => None
  end.

(** [findVoltaCompiler]: the path returned ([None] is [null]) and the
    warnings written to the console. *)
Definition findVoltaCompiler (configuredPath : option str) : option str * list str :=
  let '(found, warnings) := configured configuredPath in
  match found with
  | Some path => (Some path, warnings)
  | None =>
      match inPATH with
      | Some result => (Some result, warnings)
      | None => (find isExecutable commonPaths, warnings)
      end
  end.

(** The paths [findVoltaCompiler] tries, in order. *)
Definition candidates (configuredPath : option str) : list str :=
  match configuredPath with
  | Some (c :: path) => if decide (c :: path = lit "volta") then [] else [c :: path]
  | _ => []
  end
  ++ match whichVolta host with
     | Some output =>
         match trim output with
         | c :: result => [c :: result]
         | [] => []
         end
     | None => []
     end
  ++ commonPaths.

End Find.

End CompilerPath.

(** ** server.ts: configuration changes *)

(** [connection.onDidChangeConfiguration]; [volta] is
    [change.settings.volta] ([None] when it is falsy), [findCompiler] is
    [findVoltaCompiler] on the machine as it is then, [all] is
    [documents.all()]. *)
Definition onDidChangeConfiguration (findCompiler : str -> option str)
    (all : list TextDocument) (volta : option VoltaSettings) (s : Server) : Server :=
  let s1 :=
    if hasConfigurationCapability s then set_documentSettings ∅ s
    else set_globalSettings (default defaultSettings volta) s in
  let oldPath := voltaCompilerPath s1 in
  let s2 := set_voltaCompilerPath (findCompiler (compilerPath (globalSettings s1))) s1 in
  let s3 :=
    match voltaCompilerPath s2 with
    | Some (c :: path) => record (ConsoleLog (LogCompilerFound (c :: path))) s2
    | _ => record ShowCompilerNotFound s2
    end in
  if decide (oldPath = voltaCompilerPath s3) then s3
  else fold_left (fun s document => validateTextDocument document s) all s3.

(** The entry of [validateTextDocument] for a document. *)
Definition validateOf (document : TextDocument) : Action :=
  Validate (uri document) (text document).

(** What [onDidChangeConfiguration] tells about the compiler it found. *)
Definition compilerNotice (found : option str) : Action :=
  match found with
  | Some (c :: path) => ConsoleLog (LogCompilerFound (c :: path))
  | _ => ShowCompilerNotFound
  end.

(** ** server.ts: hover and definition *)

Module MarkupContent.
Record t := {
  kind : str;
  value : str
}.
End MarkupContent.

Module Hover.
Record t := {
  contents : MarkupContent.t
}.
End Hover.

Module Location.
Record t := {
  uri : str;
  range : Range
}.
End Location.

(** [p.documentation] is truthy. *)
Definition documented (p : CompilerInterface.ParameterDoc.t) : Prop :=
  CompilerInterface.ParameterDoc.documentation p <> [].

#[global] Instance documented_dec (p : CompilerInterface.ParameterDoc.t)
    : Decision (documented p) :=
  not_dec (decide (CompilerInterface.ParameterDoc.documentation p = [])).

(** The answer of the compiler with other [parameters]. *)
Definition withParameters (ps : option (list CompilerInterface.ParameterDoc.t))
    (info : CompilerInterface.SymbolResult) : CompilerInterface.SymbolResult :=
  {| CompilerInterface.kind := CompilerInterface.kind info;
     CompilerInterface.name := CompilerInterface.name info;
     CompilerInterface.type := CompilerInterface.type info;
     CompilerInterface.signature := CompilerInterface.signature info;
     CompilerInterface.parameters := ps;
     CompilerInterface.documentation := CompilerInterface.documentation info;
     CompilerInterface.returnDoc := CompilerInterface.returnDoc info |}.

(** The markdown [onHover] builds from the answer of the compiler. *)
Definition hoverMarkdown (info : CompilerInterface.SymbolResult) : str :=
  let markdown :=
    lit "**" ++ CompilerInterface.name info ++ lit "**: `"
    ++ CompilerInterface.type info ++ lit "`" ++ [LF; LF] in
  let markdown :=
    markdown ++ lit "```volta" ++ [LF] ++ CompilerInterface.signature info
    ++ [LF] ++ lit "```" in
  let markdown :=
    match CompilerInterface.documentation info with
    | Some (d :: doc) => markdown ++ [LF; LF] ++ d :: doc
    | _ => markdown
    end in
  let markdown :=
    match CompilerInterface.parameters info with
    | Some (p :: ps) =>
        let paramsWithDocs := filter documented (p :: ps) in
        match paramsWithDocs with
        | _ :: _ =>
            fold_left
              (fun markdown param =>
                 markdown ++ lit "- `" ++ CompilerInterface.ParameterDoc.name param
                 ++ lit "`: " ++ CompilerInterface.ParameterDoc.documentation param
                 ++ [LF])
              paramsWithDocs
              (markdown ++ [LF; LF] ++ lit "**Parameters:**" ++ [LF])
        | [] => markdown
        end
    | _ => markdown
    end in
  match CompilerInterface.returnDoc info with
  | Some (r :: doc) => markdown ++ [LF; LF] ++ lit "**Returns:** " ++ r :: doc
  | _ => markdown
  end.

(** The position of a request, as a location of the document. *)
Definition cursorLocation (u : str) (line column : nat) : Location.t :=
  let position := {| line := Z.of_nat line; character := Z.of_nat column |} in
  {| Location.uri := u;
     Location.range := {| start := position; end_ := position |} |}.

Section HoverHandler.

Variable JSON_parse : str -> CompilerInterface.Parsed.
Variable spawn : str -> list str -> list ProcEvent.

(** [connection.onHover], for a request on document [u] at [line],
    [column]. *)
Definition onHover (s : Server) (u : str) (line column : nat)
    : Outcome (option Hover.t) :=
  match voltaCompilerPath s with
  | Some (c :: path) =>
      match synced s !! u with
      | None => Returned None
      | Some object =>
      match objects s !! object with
      | None => Returned None
      | Some document =>
      let filePath := replaceFirst (lit "file://") [] u in
      let line := (line + 1)%nat in
      match CompilerInterface.getSymbolInfoFromCompiler JSON_parse spawn
              (c :: path) filePath line column with
      | Thrown _ => Returned None
      | Pending => Pending
      | Returned symbolInfo =>
          match CompilerInterface.success symbolInfo,
                CompilerInterface.result symbolInfo with
          | true, Some info =>
              Returned
                (Some {| Hover.contents :=
                           {| MarkupContent.kind := lit "markdown";
                              MarkupContent.value := hoverMarkdown info |} |})
          | _, _ => Returned None
          end
      end
      end
      end
  | _ => Returned None
  end.

(** [connection.onDefinition] *)
Definition onDefinition (s : Server) (u : str) (line column : nat)
    : Outcome (option Location.t) :=
  match voltaCompilerPath s with
  | Some (c :: path) =>
      match synced s !! u with
      | None => Returned None
      | Some object =>
      match objects s !! object with
      | None => Returned None
      | Some document =>
      let filePath := replaceFirst (lit "file://") [] u in
      match CompilerInterface.getSymbolInfoFromCompiler JSON_parse spawn
              (c :: path) filePath (line + 1) column with
      | Thrown _ => Returned None
      | Pending => Pending
      | Returned symbolInfo =>
          match CompilerInterface.success symbolInfo,
                CompilerInterface.result symbolInfo with
          | true, Some _ => Returned (Some (cursorLocation u line column))
          | _, _ => Returned None
          end
      end
      end
      end
  | _ => Returned None
  end.

End HoverHandler.
(** ** Facts about strings and the matcher *)

Lemma takeWhile_dropWhile p (s : str) : takeWhile p s ++ dropWhile p s = s.
Proof.
  induction s as [|c s IH]; simpl; [reflexivity|].
  destruct (p c); simpl; [now rewrite IH | reflexivity].
Qed.

Lemma takeWhile_app_stop p (a b : str) :
  Forall (fun c => p c = true) a ->
  takeWhile p (a ++ b) = a ++ takeWhile p b.
Proof.
  induction 1 as [|c a Hc _ IH]; simpl; [reflexivity|].
  now rewrite Hc, IH.
Qed.

Lemma dropWhile_app_stop p (a b : str) :
  Forall (fun c => p c = true) a ->
  dropWhile p (a ++ b) = dropWhile p b.
Proof.
  induction 1 as [|c a Hc _ IH]; simpl; [reflexivity|].
  now rewrite Hc, IH.
Qed.

Lemma takeWhile_Forall p q (s : str) :
  Forall (fun c => q c = true) s -> Forall (fun c => q c = true) (takeWhile p s).
Proof.
  induction 1 as [|c s Hc _ IH]; simpl; [constructor|].
  destruct (p c); constructor; assumption.
Qed.

Lemma consumed_app (a b : str) : consumed (a ++ b) b = a.
Proof.
  unfold consumed. rewrite length_app.
  replace (length a + length b - length b)%nat with (length a) by lia.
  now rewrite firstn_app, Nat.sub_diag, firstn_all, app_nil_r.
Qed.

Lemma consumed_dropWhile p (s : str) : consumed s (dropWhile p s) = takeWhile p s.
Proof.
  rewrite <- (takeWhile_dropWhile p s) at 1. apply consumed_app.
Qed.

Lemma isPrefix_app (w s : str) : isPrefix w (w ++ s) = true.
Proof.
  induction w as [|c w IH]; simpl; [reflexivity|].
  unfold chr_eqb. now rewrite Ascii.eqb_refl, IH.
Qed.

(** The greedy repetition succeeds with the longest run whenever the rest
    of the expression accepts what follows that run. *)
Lemma star_greedy {R} p (s : str) (k : str -> option R) x :
  k (dropWhile p s) = Some x -> star p s k = Some x.
Proof.
  induction s as [|c s IH]; simpl; [tauto|].
  destruct (p c); [|tauto].
  intros H. now rewrite (IH H).
Qed.

Lemma run_Plus_greedy {R} p c (s : str) caps (k : str -> captures -> option R) x :
  p c = true ->
  k (dropWhile p s) caps = Some x ->
  run (Plus p) (c :: s) caps k = Some x.
Proof.
  intros Hc Hk. simpl. rewrite Hc. now apply star_greedy.
Qed.

Lemma run_Group_Plus_greedy {R} n p c (s : str) caps
    (k : str -> captures -> option R) x :
  p c = true ->
  k (dropWhile p s) ((n, c :: takeWhile p s) :: caps) = Some x ->
  run (Group n (Plus p)) (c :: s) caps k = Some x.
Proof.
  intros Hc Hk. cbn [run]. rewrite Hc. apply star_greedy.
  replace (consumed (c :: s) (dropWhile p s)) with (c :: takeWhile p s); [exact Hk|].
  rewrite <- (takeWhile_dropWhile p s) at 2.
  now rewrite app_comm_cons, consumed_app.
Qed.

Lemma run_Seq {R} r1 r2 (s : str) caps (k : str -> captures -> option R) :
  run (Seq r1 r2) s caps k = run r1 s caps (fun s' caps' => run r2 s' caps' k).
Proof. reflexivity. Qed.

Lemma run_Opt {R} r (s : str) caps (k : str -> captures -> option R) :
  run (Opt r) s caps k =
  match run r s caps k with Some res => Some res | None => k s caps end.
Proof. reflexivity. Qed.

Lemma run_Chr_eq {R} c (s : str) caps (k : str -> captures -> option R) :
  run (Chr c) (c :: s) caps k = k s caps.
Proof. simpl. unfold chr_eqb. now rewrite Ascii.eqb_refl. Qed.

Lemma run_Str {R} (w s : str) caps (k : str -> captures -> option R) :
  run (Str w) (w ++ s) caps k = k s caps.
Proof.
  cbn [run]. rewrite isPrefix_app, skipn_app, Nat.sub_diag, skipn_all.
  reflexivity.
Qed.

Lemma run_Group_Str {R} n (w s : str) caps (k : str -> captures -> option R) :
  run (Group n (Str w)) (w ++ s) caps k = k s ((n, w) :: caps).
Proof.
  cbn [run]. rewrite isPrefix_app, skipn_app, Nat.sub_diag, skipn_all.
  cbn [app skipn]. now rewrite consumed_app.
Qed.

(** A match at the first position is the result of [exec]. *)
Lemma exec_matchHere r (s s' : str) caps :
  matchHere r s = Some (s', caps) ->
  exec r s = Some {| index := 0; matched := consumed s s'; groups := caps |}.
Proof.
  intros H. unfold exec. destruct s; simpl; now rewrite H.
Qed.

(** The matcher is sound: when it succeeds, the expression matches a
    prefix of the input and the continuation accepts the rest. *)
Lemma star_sound {R} p (s : str) (k : str -> option R) res :
  star p s k = Some res ->
  exists a s', s = a ++ s' /\ Forall (fun c => p c = true) a /\ k s' = Some res.
Proof.
  induction s as [|c s IH]; cbn [star]; intros H.
  - exists [], []. repeat split; [constructor|exact H].
  - destruct (p c) eqn:Ec.
    + destruct (star p s k) as [r|] eqn:Es.
      * injection H as <-. destruct (IH eq_refl) as (a & s' & -> & Ha & Hk).
        exists (c :: a), s'. repeat split; [now constructor|exact Hk].
      * exists [], (c :: s). repeat split; [constructor|exact H].
    + exists [], (c :: s). repeat split; [constructor|exact H].
Qed.

Lemma isPrefix_sound (w s : str) :
  isPrefix w s = true -> s = w ++ skipn (length w) s.
Proof.
  revert s; induction w as [|c w IH]; intros s H; [reflexivity|].
  destruct s as [|x s]; [discriminate|]. cbn [isPrefix] in H.
  apply andb_prop in H as [Hc Hw]. apply Ascii.eqb_eq in Hc. subst x.
  cbn [length skipn app]. f_equal. now apply IH.
Qed.

Lemma run_sound {R} (r : regex) :
  forall (s : str) caps (k : str -> captures -> option R) res,
    run r s caps k = Some res ->
    exists s' caps', matches r s s' caps caps' /\ k s' caps' = Some res.
Proof.
  induction r as [c|w|p|r1 IH1 r2 IH2|r1 IH1 r2 IH2|r IH|p|p|n r IH|];
    intros s caps k res H; cbn [run] in H.
  - destruct s as [|x s]; [discriminate|].
    destruct (chr_eqb x c) eqn:E; [|discriminate].
    apply Ascii.eqb_eq in E. subst x. exists s, caps. split; [constructor|exact H].
  - destruct (isPrefix w s) eqn:E; [|discriminate].
    exists (skipn (length w) s), caps. split; [|exact H].
    rewrite (isPrefix_sound w s E) at 1. constructor.
  - destruct s as [|x s]; [discriminate|].
    destruct (p x) eqn:E; [|discriminate].
    exists s, caps. split; [now constructor|exact H].
  - destruct (IH1 _ _ _ _ H) as (s1 & caps1 & M1 & H1).
    destruct (IH2 _ _ _ _ H1) as (s2 & caps2 & M2 & H2).
    exists s2, caps2. split; [econstructor; eassumption|exact H2].
  - destruct (run r1 s caps k) as [res1|] eqn:E1.
    + injection H as <-. destruct (IH1 _ _ _ _ E1) as (s' & caps' & M & Hk).
      exists s', caps'. split; [now apply matches_Alt_l|exact Hk].
    + destruct (IH2 _ _ _ _ H) as (s' & caps' & M & Hk).
      exists s', caps'. split; [now apply matches_Alt_r|exact Hk].
  - destruct (run r s caps k) as [res1|] eqn:E1.
    + injection H as <-. destruct (IH _ _ _ _ E1) as (s' & caps' & M & Hk).
      exists s', caps'. split; [now apply matches_Opt_some|exact Hk].
    + exists s, caps. split; [apply matches_Opt_none|exact H].
  - destruct (star_sound _ _ _ _ H) as (a & s' & -> & Ha & Hk).
    exists s', caps. split; [now constructor|exact Hk].
  - destruct s as [|x s]; [discriminate|].
    destruct (p x) eqn:E; [|discriminate].
    destruct (star_sound _ _ _ _ H) as (a & s' & -> & Ha & Hk).
    exists s', caps. split; [|exact Hk].
    apply (matches_Plus p (x :: a)); [discriminate|now constructor].
  - destruct (IH _ _ _ _ H) as (s' & caps' & M & Hk).
    exists s', ((n, consumed s s') :: caps'). split; [now constructor|exact Hk].
  - destruct s; [|discriminate]. exists [], caps. split; [constructor|exact H].
Qed.

(** A result of [exec] comes from a match at some position. *)
Lemma exec_sound r (s : str) (m : MatchResult) :
  exec r s = Some m ->
  exists s0 s', matches r s0 s' [] (groups m) /\ matched m = consumed s0 s'.
Proof.
  unfold exec. generalize 0%nat. induction s as [|c s IH]; intros i H;
    cbn [search] in H.
  - destruct (matchHere r []) as [[s' caps]|] eqn:E; [|discriminate].
    injection H as <-. destruct (run_sound r _ _ _ _ E) as (s1 & caps1 & M & [= <- <-]).
    eauto.
  - destruct (matchHere r (c :: s)) as [[s' caps]|] eqn:E.
    + injection H as <-. destruct (run_sound r _ _ _ _ E) as (s1 & caps1 & M & [= <- <-]).
      eauto.
    + eapply IH, H.
Qed.

Lemma matches_Seq_inv r1 r2 (s s2 : str) caps caps2 :
  matches (Seq r1 r2) s s2 caps caps2 ->
  exists s1 caps1, matches r1 s s1 caps caps1 /\ matches r2 s1 s2 caps1 caps2.
Proof. inversion 1; subst; eauto. Qed.

Lemma matches_Chr_inv c (s s' : str) caps caps' :
  matches (Chr c) s s' caps caps' -> s = c :: s' /\ caps' = caps.
Proof. inversion 1; subst; auto. Qed.

Lemma matches_Str_inv w (s s' : str) caps caps' :
  matches (Str w) s s' caps caps' -> s = w ++ s' /\ caps' = caps.
Proof. inversion 1; subst; auto. Qed.

Lemma matches_Group_Plus_inv n p (s s' : str) caps caps' :
  matches (Group n (Plus p)) s s' caps caps' ->
  exists a, a <> [] /\ Forall (fun c => p c = true) a
            /\ s = a ++ s' /\ caps' = (n, a) :: caps.
Proof.
  inversion 1 as [| | | | | | | | | |n' r' s0 s0' caps0 caps0' M|]; subst.
  inversion M; subst. exists a. now rewrite consumed_app.
Qed.

(** ** Facts about the diagnostics parser *)

Lemma fold_parseLine (lines : list str) (acc : list Diagnostic) :
  fold_left parseLine lines acc = acc ++ flat_map lineDiagnostics lines.
Proof.
  revert acc; induction lines as [|l lines IH]; intros acc; simpl.
  - now rewrite app_nil_r.
  - rewrite IH. unfold parseLine, lineDiagnostics.
    destruct (exec errorRegex l); simpl; [now rewrite <- app_assoc | reflexivity].
Qed.

Lemma parseCompilerErrors_lines (stderr : str) :
  parseCompilerErrors stderr = flat_map lineDiagnostics (split LF stderr).
Proof. unfold parseCompilerErrors. now rewrite fold_parseLine. Qed.

(** The captures of a match of [errorRegex]: two numerals, maybe a third,
    one of the two tags, and a text that is not empty.  So [parseInt] is
    only applied to numerals. *)
Lemma errorRegex_captures (l : str) (m : MatchResult) :
  exec errorRegex l = Some m ->
  numeral (groupText 1 m) /\ numeral (groupText 2 m)
  /\ (group 3 m = None \/ exists c2, group 3 m = Some c2 /\ numeral c2)
  /\ (groupText 4 m = lit "error" \/ groupText 4 m = lit "warning")
  /\ groupText 5 m <> [].
Proof.
  intros H. destruct (exec_sound _ _ _ H) as (s0 & s' & M & _).
  unfold groupText, group. revert M. generalize (groups m). clear H m.
  intros caps M. unfold errorRegex in M.
  apply matches_Seq_inv in M as (s1 & caps1 & M1 & M).
  apply matches_Chr_inv in M1 as [-> ->].
  apply matches_Seq_inv in M as (s2 & caps2 & M2 & M).
  apply matches_Group_Plus_inv in M2 as (ln & Hln & Dln & -> & ->).
  apply matches_Seq_inv in M as (s3 & caps3 & M3 & M).
  apply matches_Chr_inv in M3 as [-> ->].
  apply matches_Seq_inv in M as (s4 & caps4 & M4 & M).
  apply matches_Group_Plus_inv in M4 as (col & Hcol & Dcol & -> & ->).
  apply matches_Seq_inv in M as (s5 & caps5 & M5 & M).
  apply matches_Seq_inv in M as (s6 & caps6 & M6 & M).
  apply matches_Str_inv in M6 as [-> ->].
  apply matches_Seq_inv in M as (s7 & caps7 & M7 & M).
  apply matches_Seq_inv in M as (s8 & caps8 & M8 & M).
  apply matches_Str_inv in M8 as [-> ->].
  apply matches_Group_Plus_inv in M as (msg & Hmsg & Dmsg & -> & ->).
  assert (Htag : exists tag, (tag = lit "error" \/ tag = lit "warning")
                             /\ caps7 = (4%nat, tag) :: caps5).
  { inversion M7 as [| | | | | | | | | |n' r' t0 t0' c0 c0' MA|]; subst.
    inversion MA as [| | | |? ? ? ? ? ? MS| ? ? ? ? ? ? MS| | | | | |]; subst;
      apply matches_Str_inv in MS as [E ->]; rewrite E, consumed_app; eauto. }
  destruct Htag as (tag & Htag & ->).
  assert (H3 : caps5 = [(2%nat, col); (1%nat, ln)]
               \/ exists c2, numeral c2
                             /\ caps5 = [(3%nat, c2); (2%nat, col); (1%nat, ln)]).
  { inversion M5 as [| | | | | |? ? ? ? ? MO|? ? ?| | | |]; subst; [|now left].
    apply matches_Seq_inv in MO as (t1 & c1 & MC & MG).
    apply matches_Chr_inv in MC as [-> ->].
    apply matches_Group_Plus_inv in MG as (c2 & Hc2 & Dc2 & -> & ->).
    right. exists c2. now split. }
  destruct H3 as [-> | (c2 & Nc2 & ->)]; cbn [getCapture Nat.eqb];
    repeat split; try assumption; eauto.
Qed.

Lemma dropWhile_idem p (s : str) : dropWhile p (dropWhile p s) = dropWhile p s.
Proof.
  induction s as [|c s IH]; simpl; [reflexivity|].
  destruct (p c) eqn:E; [exact IH | simpl; now rewrite E].
Qed.

Lemma takeWhile_nil_stop p (s : str) : dropWhile p s = s -> takeWhile p s = [].
Proof.
  intros H. apply (app_inv_tail s). simpl.
  rewrite <- H at 2. apply takeWhile_dropWhile.
Qed.

Lemma run_Group_Plus_text {R} n p (a b : str) caps
    (k : str -> captures -> option R) x :
  a <> [] -> Forall (fun c => p c = true) a -> dropWhile p b = b ->
  k b ((n, a) :: caps) = Some x ->
  run (Group n (Plus p)) (a ++ b) caps k = Some x.
Proof.
  intros Hne Ha Hb Hk. destruct a as [|c a]; [congruence|].
  inversion Ha as [|? ? Hc Ha']; subst.
  rewrite <- app_comm_cons. apply run_Group_Plus_greedy; [assumption|].
  rewrite dropWhile_app_stop, takeWhile_app_stop by assumption.
  now rewrite Hb, (takeWhile_nil_stop p b Hb), app_nil_r.
Qed.

Lemma dropWhile_all p (s : str) :
  Forall (fun c => p c = true) s -> dropWhile p s = [].
Proof. induction 1 as [|c s Hc _ IH]; simpl; [reflexivity | now rewrite Hc]. Qed.

Lemma dropWhile_app p (x w : str) :
  dropWhile p (x ++ w) =
  match dropWhile p x with
  | [] => dropWhile p w
  | c :: y => (c :: y) ++ w
  end.
Proof.
  induction x as [|c x IH]; simpl.
  - reflexivity.
  - destruct (p c); [exact IH | reflexivity].
Qed.

(** White space after a text does not change what [trim] makes of it. *)
Lemma trim_app_space (x w : str) :
  Forall (fun c => isSpace c = true) w -> trim (x ++ w) = trim x.
Proof.
  intros Hw. unfold trim. rewrite dropWhile_app.
  destruct (dropWhile isSpace x) as [|c y] eqn:E.
  - now rewrite (dropWhile_all _ _ Hw).
  - rewrite rev_app_distr, dropWhile_app_stop; [reflexivity|].
    now apply List.Forall_rev.
Qed.

Lemma parseIntAcc_digits (s : str) : forall acc,
  Forall (fun c => isDigit c = true) s ->
  parseIntAcc acc s = acc * 10 ^ Z.of_nat (length s) + decimalValue s.
Proof.
  induction s as [|c s IH]; intros acc H; simpl parseIntAcc.
  - simpl. lia.
  - inversion H as [|? ? Hc Hs]; subst. rewrite Hc, IH by assumption.
    cbn [decimalValue length]. rewrite Nat2Z.inj_succ, Z.pow_succ_r by lia.
    ring.
Qed.

(** On a numeral [parseInt] reads the number it denotes. *)
Lemma parseInt_numeral (s : str) : numeral s -> parseInt s = decimalValue s.
Proof.
  intros [_ H]. unfold parseInt. rewrite parseIntAcc_digits by assumption. lia.
Qed.

Lemma run_tag {R} (tag s : str) caps (k : str -> captures -> option R) x :
  tag = lit "error" \/ tag = lit "warning" ->
  k s ((4%nat, tag) :: caps) = Some x ->
  run (Group 4 (Alt (Str (lit "error")) (Str (lit "warning")))) (tag ++ s) caps k
  = Some x.
Proof.
  intros Htag Hk.
  change (run (Group 4 (Alt (Str (lit "error")) (Str (lit "warning")))) (tag ++ s) caps k)
    with (match run (Group 4 (Str (lit "error"))) (tag ++ s) caps k with
          | Some res => Some res
          | None => run (Group 4 (Str (lit "warning"))) (tag ++ s) caps k
          end).
  destruct Htag as [-> | ->].
  - now rewrite run_Group_Str, Hk.
  - change (run (Group 4 (Str (lit "error"))) (lit "warning" ++ s) caps k)
      with (@None R).
    now rewrite run_Group_Str.
Qed.

(** The match of [errorRegex] at the start of a line of the grammar: the
    five captures are the five parts of the line. *)
Lemma matchHere_grammarLine (ln col : str) (col2 : option str) (tag body ws : str) :
  numeral ln -> numeral col ->
  (forall c2, col2 = Some c2 -> numeral c2) ->
  tag = lit "error" \/ tag = lit "warning" ->
  body <> [] -> Forall (fun c => isDot c = true) body ->
  matchHere errorRegex (grammarLine ln col col2 tag (body ++ ws)) =
  Some (dropWhile isDot ws,
        [(5%nat, body ++ takeWhile isDot ws); (4%nat, tag)]
        ++ match col2 with Some c2 => [(3%nat, c2)] | None => [] end
        ++ [(2%nat, col); (1%nat, ln)]).
Proof.
  intros [Hln Dln] [Hcol Dcol] Hc2 Htag Hbody Dbody.
  unfold matchHere, errorRegex, grammarLine.
  change (lit ":" ++ ?s) with (":"%char :: s).
  rewrite run_Seq, run_Chr_eq, run_Seq.
  apply run_Group_Plus_text; [assumption..|reflexivity|]. cbv beta.
  change (lit ":" ++ ?s) with (":"%char :: s).
  rewrite run_Seq, run_Chr_eq, run_Seq.
  assert (Hmsg : forall caps,
    run (Seq (Str (lit ": "))
           (Seq (Group 4 (Alt (Str (lit "error")) (Str (lit "warning"))))
              (Seq (Str (lit ": ")) (Group 5 (Plus isDot)))))
        (lit ": " ++ tag ++ lit ": " ++ body ++ ws) caps
        (fun s' caps' => Some (s', caps'))
    = Some (dropWhile isDot ws,
            (5%nat, body ++ takeWhile isDot ws) :: (4%nat, tag) :: caps)).
  { intros caps. rewrite run_Seq, run_Str, run_Seq. apply run_tag; [assumption|].
    rewrite run_Seq, run_Str.
    rewrite <- (takeWhile_dropWhile isDot ws) at 1. rewrite app_assoc.
    apply run_Group_Plus_text.
    - destruct body; [congruence | discriminate].
    - apply Forall_app; split; [assumption|].
      clear. induction ws as [|c ws IH]; simpl; [constructor|].
      destruct (isDot c) eqn:E; constructor; assumption.
    - apply dropWhile_idem.
    - reflexivity. }
  destruct col2 as [c2|].
  - destruct (Hc2 c2 eq_refl) as [Hc2n Dc2].
    apply run_Group_Plus_text; [assumption..|reflexivity|]. cbv beta.
    rewrite run_Seq, run_Opt, <- app_assoc.
    change (lit "-" ++ ?s) with ("-"%char :: s).
    rewrite run_Seq, run_Chr_eq.
    erewrite run_Group_Plus_text; [reflexivity|assumption..|reflexivity|].
    apply Hmsg.
  - apply run_Group_Plus_text; [assumption..|reflexivity|]. cbv beta.
    rewrite run_Seq, run_Opt.
    change (run (Seq (Chr "-") (Group 3 (Plus isDigit)))
              ([] ++ lit ": " ++ tag ++ lit ": " ++ body ++ ws)
              [(2%nat, col); (1%nat, ln)] _) with (@None (str * captures)).
    apply Hmsg.
Qed.

(** A line of the grammar contributes the diagnostic of the
    specification, and only that one. *)
Lemma lineDiagnostics_grammarLine (ln col : str) (col2 : option str) (tag msg : str) :
  numeral ln -> numeral col ->
  (forall c2, col2 = Some c2 -> numeral c2) ->
  tag = lit "error" \/ tag = lit "warning" ->
  messageText msg ->
  lineDiagnostics (grammarLine ln col col2 tag msg)
  = [grammarDiagnostic ln col col2 tag msg].
Proof.
  intros Hln Hcol Hc2 Htag (body & ws & -> & Hbody & Dbody & Hws).
  unfold lineDiagnostics.
  rewrite (exec_matchHere _ _ _ _
             (matchHere_grammarLine ln col col2 tag body ws
                Hln Hcol Hc2 Htag Hbody Dbody)).
  f_equal. unfold diagnosticOfMatch, grammarDiagnostic, groupText, severityOfTag.
  assert (Hmsg : trim (body ++ takeWhile isDot ws) = trim (body ++ ws)).
  { rewrite !trim_app_space; [reflexivity|assumption|].
    now apply takeWhile_Forall. }
  destruct col2 as [c2|]; cbn [group groups getCapture Nat.eqb app].
  - destruct (Hc2 c2 eq_refl) as [Hne Dc2].
    rewrite !parseInt_numeral, Hmsg by assumption.
    destruct c2 as [|c c2]; [congruence|].
    now rewrite parseInt_numeral by (split; assumption).
  - now rewrite !parseInt_numeral, Hmsg by assumption.
Qed.

Lemma severityOfTag_spec (tag : str) :
  tag = lit "error" \/ tag = lit "warning" ->
  (severityOfTag tag = SeverityError <-> tag = lit "error")
  /\ (severityOfTag tag = SeverityWarning <-> tag = lit "warning").
Proof.
  intros [-> | ->]; split; split; intros H; try reflexivity; discriminate H.
Qed.

(** ** The diagnostic text parser *)

(** C2. For every line of stderr that matches the grammar
    [:<line>:<col>[-<col2>]: (error|warning): <message>], the parser
    produces exactly one diagnostic, at the place of the line among the
    diagnostics of the other lines: its start and end lines are
    <line> - 1, its start character is <col> unshifted, its end character
    is <col2> when present and <col> + 1 otherwise, its message is the
    trailing text trimmed, and its severity is Error exactly for the tag
    [error] and Warning exactly for the tag [warning].  The numerals are
    below 2^53, where JavaScript numbers are exact.  In particular
    [:3:5-7: error: Type mismatch] yields the Error diagnostic on line 2,
    characters 5 to 7, with message [Type mismatch]. *)
Theorem C2_grammar_line_yields_diagnostic :
  (forall (stderr : str) (i : nat) (ln col : str) (col2 : option str)
          (tag msg : str),
      split LF stderr !! i = Some (grammarLine ln col col2 tag msg) ->
      numeral ln -> numeral col ->
      (forall c2, col2 = Some c2 -> numeral c2) ->
      tag = lit "error" \/ tag = lit "warning" ->
      messageText msg ->
      decimalValue ln < MAX_SAFE -> decimalValue col < MAX_SAFE ->
      (forall c2, col2 = Some c2 -> decimalValue c2 < MAX_SAFE) ->
      let d :=
        {| severity := severityOfTag tag;
           range :=
             {| start := {| line := decimalValue ln - 1;
                            character := decimalValue col |};
                end_ := {| line := decimalValue ln - 1;
                           character := match col2 with
                                        | Some c2 => decimalValue c2
                                        | None => decimalValue col + 1
                                        end |} |};
           message := trim msg;
           source := lit "volta" |} in
      lineDiagnostics (grammarLine ln col col2 tag msg) = [d]
      /\ parseCompilerErrors stderr
         = flat_map lineDiagnostics (take i (split LF stderr))
           ++ [d]
           ++ flat_map lineDiagnostics (drop (S i) (split LF stderr))
      /\ (severity d = SeverityError <-> tag = lit "error")
      /\ (severity d = SeverityWarning <-> tag = lit "warning"))
  /\ parseCompilerErrors (lit ":3:5-7: error: Type mismatch")
     = [ {| severity := SeverityError;
            range := {| start := {| line := 2; character := 5 |};
                        end_ := {| line := 2; character := 7 |} |};
            message := lit "Type mismatch";
            source := lit "volta" |} ].
Proof.
  split; [|reflexivity].
  intros stderr i ln col col2 tag msg Hi Hln Hcol Hc2 Htag Hmsg _ _ _ d.
  assert (Hline : lineDiagnostics (grammarLine ln col col2 tag msg) = [d])
    by now apply lineDiagnostics_grammarLine.
  split; [exact Hline|]. split; [|now apply severityOfTag_spec].
  rewrite parseCompilerErrors_lines.
  rewrite <- (take_drop_middle _ _ _ Hi) at 1.
  now rewrite flat_map_app; cbn [flat_map]; rewrite Hline.
Qed.

Lemma C2_grammar_line_witness :
  let stderr := lit ":3:5-7: error: Type mismatch" in
  split LF stderr !! 0%nat
  = Some (grammarLine (lit "3") (lit "5") (Some (lit "7")) (lit "error")
            (lit "Type mismatch"))
  /\ parseCompilerErrors stderr
     = [ {| severity := SeverityError;
            range := {| start := {| line := 2; character := 5 |};
                        end_ := {| line := 2; character := 7 |} |};
            message := lit "Type mismatch";
            source := lit "volta" |} ].
Proof.
  intros stderr. split; [reflexivity|].
  assert (N : forall c, isDigit c = true -> numeral [c]).
  { intros c Hc. split; [discriminate | repeat constructor; exact Hc]. }
  destruct (proj1 C2_grammar_line_yields_diagnostic stderr 0%nat
              (lit "3") (lit "5") (Some (lit "7")) (lit "error")
              (lit "Type mismatch")) as (_ & H & _).
  - reflexivity.
  - apply N; reflexivity.
  - apply N; reflexivity.
  - intros c2 E. injection E as <-. apply N; reflexivity.
  - left; reflexivity.
  - exists (lit "Type mismatch"), []. repeat split; try discriminate.
    + repeat constructor.
    + constructor.
  - reflexivity.
  - reflexivity.
  - intros c2 E. injection E as <-. reflexivity.
  - exact H.
Defined.

(** C10. Every diagnostic the diagnostic text parser produces, for any
    input text, spans a single line (its range starts and ends on the
    same line) and carries the source [volta]. *)
Theorem C10_parser_diagnostics_single_line_volta (stderr : str) :
  Forall (fun d => line (start (range d)) = line (end_ (range d))
                   /\ source d = lit "volta")
         (parseCompilerErrors stderr).
Proof.
  rewrite parseCompilerErrors_lines.
  induction (split LF stderr) as [|l lines IH]; cbn [flat_map].
  - constructor.
  - apply Forall_app; split; [|exact IH].
    unfold lineDiagnostics. destruct (exec errorRegex l) as [m|].
    + repeat constructor.
    + constructor.
Qed.

(** ** The symbol info client *)

Section QueryFacts.
Import CompilerInterface.

Variable JSON_parse : str -> Parsed.

Lemma query_settled_stays (events : list ProcEvent) (st : QueryState) v :
  q_resolved st = Some v ->
  q_resolved (fold_left (query_on JSON_parse) events st) = Some v.
Proof.
  revert st; induction events as [|e events IH]; intros st H; [exact H|].
  cbn [fold_left]. apply IH.
  destruct e; cbn [query_on q_resolved]; try exact H;
    try destruct (JSON_parse (q_stdout st)); unfold resolve; now rewrite H.
Qed.

Lemma query_output (output : list ProcEvent) (st : QueryState) :
  Forall (fun e => isOutput e = true) output ->
  let st' := fold_left (query_on JSON_parse) output st in
  q_stdout st' = q_stdout st ++ stdoutOf output
  /\ q_resolved st' = q_resolved st.
Proof.
  intros H; revert st; induction H as [|e output He _ IH]; intros st;
    cbn [fold_left stdoutOf].
  - now rewrite app_nil_r.
  - destruct e as [chunk|chunk| |]; try discriminate He; cbn [query_on].
    + destruct (IH {| q_stdout := q_stdout st ++ chunk; q_stderr := q_stderr st;
                      q_resolved := q_resolved st |}) as [-> ->].
      cbn. now rewrite app_assoc.
    + destruct (IH {| q_stdout := q_stdout st; q_stderr := q_stderr st ++ chunk;
                      q_resolved := q_resolved st |}) as [-> ->].
      now cbn.
Qed.

(** The first ['close'] or ['error'] after chunks of output settles the
    promise, whatever comes later. *)
Lemma query_first_settles (output rest : list ProcEvent) (e : ProcEvent) :
  Forall (fun e => isOutput e = true) output ->
  isOutput e = false ->
  q_resolved (fold_left (query_on JSON_parse) (output ++ e :: rest) query_init)
  = q_resolved (query_on JSON_parse
                  {| q_stdout := stdoutOf output;
                     q_stderr := q_stderr (fold_left (query_on JSON_parse) output query_init);
                     q_resolved := None |} e)
  /\ is_Some (q_resolved (fold_left (query_on JSON_parse) (output ++ e :: rest) query_init)).
Proof.
  intros Ho He. rewrite fold_left_app. cbn [fold_left].
  destruct (query_output output query_init Ho) as [Hout Hres].
  cbn in Hout, Hres.
  set (st := fold_left (query_on JSON_parse) output query_init) in *.
  assert (Hst : st = {| q_stdout := stdoutOf output; q_stderr := q_stderr st;
                        q_resolved := None |}).
  { destruct st; cbn in *; now subst. }
  rewrite Hst at 1 3. clear Hst.
  set (st0 := {| q_stdout := stdoutOf output; q_stderr := q_stderr st;
                 q_resolved := None |}).
  assert (Hs : exists v, q_resolved (query_on JSON_parse st0 e) = Some v).
  { destruct e; try discriminate He; cbn [query_on];
      try destruct (JSON_parse (q_stdout st0)); unfold resolve; cbn; eauto. }
  destruct Hs as [v Hv].
  rewrite (query_settled_stays rest _ v Hv). rewrite Hv. split; [reflexivity|eauto].
Qed.

End QueryFacts.

(** C6, as amended.  For every symbol query: when the output of the
    process ends without being valid JSON, the client answers
    [{success: false, error: {code: PARSE_ERROR, message}}]; when the
    process fails to launch, it answers
    [{success: false, error: {code: SPAWN_ERROR, message}}].  In both
    cases the promise is fulfilled with that value; the client never
    rejects it. *)
Theorem C6_query_failures_are_returned :
  forall (JSON_parse : str -> CompilerInterface.Parsed)
         (spawn : str -> list str -> list ProcEvent)
         (compilerPath filePath : str) (line column : nat),
    let process :=
      spawn compilerPath
        [lit "--lsp-info"; filePath; toString line; toString column] in
    let answer :=
      CompilerInterface.getSymbolInfoFromCompiler JSON_parse spawn
        compilerPath filePath line column in
    (forall err, answer <> Thrown err)
    /\ (forall output errMessage rest,
          process = output ++ ProcError errMessage :: rest ->
          Forall (fun e => CompilerInterface.isOutput e = true) output ->
          answer = Returned
            {| CompilerInterface.success := false;
               CompilerInterface.result := None;
               CompilerInterface.error :=
                 Some {| CompilerInterface.code := lit "SPAWN_ERROR";
                         CompilerInterface.message :=
                           lit "Failed to spawn compiler: " ++ errMessage |} |})
    /\ (forall output exitCode rest e,
          process = output ++ ProcClose exitCode :: rest ->
          Forall (fun e => CompilerInterface.isOutput e = true) output ->
          JSON_parse (CompilerInterface.stdoutOf output)
          = CompilerInterface.SyntaxError e ->
          answer = Returned
            {| CompilerInterface.success := false;
               CompilerInterface.result := None;
               CompilerInterface.error :=
                 Some {| CompilerInterface.code := lit "PARSE_ERROR";
                         CompilerInterface.message :=
                           lit "Failed to parse compiler output: " ++ e |} |}).
Proof.
  intros JSON_parse spawn compilerPath filePath line column process answer.
  subst answer. unfold CompilerInterface.getSymbolInfoFromCompiler.
  fold process. split; [|split].
  - intros err. now destruct (CompilerInterface.q_resolved _).
  - intros output errMessage rest -> Ho.
    destruct (query_first_settles JSON_parse output rest (ProcError errMessage) Ho eq_refl)
      as [-> _].
    reflexivity.
  - intros output exitCode rest e -> Ho He.
    destruct (query_first_settles JSON_parse output rest (ProcClose exitCode) Ho eq_refl)
      as [-> _].
    cbn. now rewrite He.
Qed.

Lemma C6_query_failures_witness :
  let JSON_parse := fun _ : str =>
    CompilerInterface.SyntaxError (lit "SyntaxError: Unexpected end of JSON input") in
  CompilerInterface.getSymbolInfoFromCompiler JSON_parse
    (fun _ _ => [StderrData (lit "usage"); ProcClose 1])
    (lit "/usr/bin/volta") (lit "/tmp/a.vlt") 3 4
  = Returned (CompilerInterface.parseFailure
                (lit "SyntaxError: Unexpected end of JSON input"))
  /\ CompilerInterface.getSymbolInfoFromCompiler JSON_parse
       (fun _ _ => [ProcError (lit "spawn /usr/bin/volta ENOENT"); ProcClose (-2)])
       (lit "/usr/bin/volta") (lit "/tmp/a.vlt") 3 4
     = Returned (CompilerInterface.spawnFailure (lit "spawn /usr/bin/volta ENOENT")).
Proof.
  intros JSON_parse. split.
  - refine (proj2 (proj2 (C6_query_failures_are_returned JSON_parse
             (fun _ _ => [StderrData (lit "usage"); ProcClose 1])
             (lit "/usr/bin/volta") (lit "/tmp/a.vlt") 3 4))
             [StderrData (lit "usage")] 1 [] _ _ _ _).
    + reflexivity.
    + repeat constructor.
    + reflexivity.
  - refine (proj1 (proj2 (C6_query_failures_are_returned JSON_parse
             (fun _ _ => [ProcError (lit "spawn /usr/bin/volta ENOENT"); ProcClose (-2)])
             (lit "/usr/bin/volta") (lit "/tmp/a.vlt") 3 4))
             [] _ [ProcClose (-2)] _ _).
    + reflexivity.
    + constructor.
Defined.

(** C6 as stated fails on the error codes: a query whose output is not
    JSON is answered with the code [PARSE_ERROR], not [ParseError], and a
    failed launch with [SPAWN_ERROR], not [SpawnError]. *)
Lemma C6_error_codes_counterexample :
  let JSON_parse := fun _ : str =>
    CompilerInterface.SyntaxError (lit "SyntaxError: Unexpected end of JSON input") in
  let codeOf := fun answer : Outcome CompilerInterface.CompilerSymbolInfo =>
    match answer with
    | Returned v => option_map CompilerInterface.code (CompilerInterface.error v)
    | _ => None
    end in
  codeOf (CompilerInterface.getSymbolInfoFromCompiler JSON_parse
            (fun _ _ => [ProcClose 0]) (lit "/usr/bin/volta") (lit "/tmp/a.vlt") 3 4)
  = Some (lit "PARSE_ERROR")
  /\ lit "PARSE_ERROR" <> lit "ParseError"
  /\ codeOf (CompilerInterface.getSymbolInfoFromCompiler JSON_parse
               (fun _ _ => [ProcError (lit "ENOENT"); ProcClose (-2)])
               (lit "/usr/bin/volta") (lit "/tmp/a.vlt") 3 4)
     = Some (lit "SPAWN_ERROR")
  /\ lit "SPAWN_ERROR" <> lit "SpawnError".
Proof. repeat split; discriminate. Qed.

(** ** Validation *)

Lemma published_app (u : str) (tr1 tr2 : list Action) :
  published u (tr1 ++ tr2) =
  match published u tr2 with
  | Some ds => Some ds
  | None => published u tr1
  end.
Proof.
  induction tr1 as [|a tr1 IH]; cbn [app published].
  - now destruct (published u tr2).
  - rewrite IH. now destruct (published u tr2).
Qed.

Lemma validations_app (u : str) (tr1 tr2 : list Action) :
  validations u (tr1 ++ tr2) = validations u tr1 ++ validations u tr2.
Proof.
  induction tr1 as [|a tr1 IH]; cbn [app validations]; [reflexivity|].
  destruct a as [v content| | |]; try exact IH.
  destruct (decide (v = u)); [|exact IH]. now rewrite IH.
Qed.

(** A process that could not be launched leaves one diagnostic in the
    array of [compileFile]: the later ['close'] adds nothing to it. *)
Lemma compileFile_closes (closes : list ProcEvent) (ds : list Diagnostic) :
  Forall (fun e => isClose e = true) closes ->
  fold_left compileFile_on closes
    {| cf_stderr := []; cf_diagnostics := ds; cf_resolved := true |}
  = {| cf_stderr := []; cf_diagnostics := ds; cf_resolved := true |}.
Proof.
  induction 1 as [|e closes He _ IH]; [reflexivity|].
  destruct e; try discriminate He. cbn [fold_left compileFile_on].
  cbn [cf_stderr cf_diagnostics].
  change (parseCompilerErrors []) with (@nil Diagnostic).
  now rewrite app_nil_r.
Qed.

Lemma runVoltaCompiler_launchFailure (errMessage : str) (closes : list ProcEvent)
    (path content u : str) :
  Forall (fun e => isClose e = true) closes ->
  runVoltaCompiler (launchFailure errMessage closes) path content u
  = Returned {| diagnostics := [launchDiagnostic errMessage]; success := false |}.
Proof.
  intros H. unfold runVoltaCompiler, launchFailure, compileFile.
  cbn [writeError procEvents fold_left compileFile_on compileFile_init
       cf_stderr cf_diagnostics app].
  now rewrite (compileFile_closes closes _ H).
Qed.

Lemma runVoltaCompiler_compilerOutput (stderr : str) (exitCode : Z)
    (path content u : str) :
  runVoltaCompiler (compilerOutput stderr exitCode) path content u
  = Returned {| diagnostics := parseCompilerErrors stderr;
                success := (length (parseCompilerErrors stderr) =? 0)%nat |}.
Proof. reflexivity. Qed.

(** What the end of a compiler run adds to the trace. *)
Lemma validate_compiled_returned (task : nat) (env : CompilerRun) (s : Server)
    (u path content : str) (result : CompilerResult) :
  tasks s !! task = Some {| task_uri := u; task_stage := AwaitCompiler path content |} ->
  runVoltaCompiler env path content u = Returned result ->
  trace (validate_compiled task env s)
  = trace s ++ [SendDiagnostics u (diagnostics result);
                ConsoleLog (if success result then LogValidated u
                            else LogHasErrors (length (diagnostics result)) u)]
  /\ tasks (validate_compiled task env s) = delete task (tasks s).
Proof.
  intros Ht Hr. unfold validate_compiled. rewrite Ht, Hr.
  destruct (success result); cbn; rewrite <- app_assoc; split; reflexivity.
Qed.

(** C1, as amended.  When the compiler process fails to launch during a
    validation, the run yields exactly one diagnostic: an Error at
    0:0-0:0 whose message is [Failed to run Volta compiler: ] followed by
    the error of the operating system, with source [volta].  This
    diagnostic is published for the document; nothing else is sent to
    the client, no notification in particular. *)
Theorem C1_launch_failure_is_published_as_diagnostic :
  forall (s : Server) (task : nat) (u path content errMessage : str)
         (closes : list ProcEvent),
    tasks s !! task
    = Some {| task_uri := u; task_stage := AwaitCompiler path content |} ->
    Forall (fun e => isClose e = true) closes ->
    let s' := handle (CompilerRunDone task (launchFailure errMessage closes)) s in
    runVoltaCompiler (launchFailure errMessage closes) path content u
    = Returned
        {| diagnostics :=
             [ {| severity := SeverityError;
                  range := {| start := {| line := 0; character := 0 |};
                              end_ := {| line := 0; character := 0 |} |};
                  message := lit "Failed to run Volta compiler: " ++ errMessage;
                  source := lit "volta" |} ];
           success := false |}
    /\ trace s'
       = trace s ++ [SendDiagnostics u [launchDiagnostic errMessage];
                     ConsoleLog (LogHasErrors 1 u)]
    /\ published u (trace s') = Some [launchDiagnostic errMessage].
Proof.
  intros s task u path content errMessage closes Ht Hc s'.
  pose proof (runVoltaCompiler_launchFailure errMessage closes path content u Hc)
    as Hr.
  destruct (validate_compiled_returned task _ s u path content _ Ht Hr) as [Htr _].
  subst s'. cbn [handle]. cbn [diagnostics success length] in Htr.
  split; [exact Hr|]. split; [exact Htr|].
  rewrite Htr, published_app. cbn. now rewrite decide_True.
Qed.

Lemma C1_launch_failure_witness :
  tasks validating !! 1%nat
  = Some {| task_uri := aUri; task_stage := AwaitCompiler aCompiler (lit "x := 1") |}
  /\ published aUri
       (trace (handle (CompilerRunDone 1
                         (launchFailure (lit "spawn /usr/bin/volta ENOENT")
                            [ProcClose (-2)])) validating))
     = Some [launchDiagnostic (lit "spawn /usr/bin/volta ENOENT")].
Proof.
  assert (H : tasks validating !! 1%nat
              = Some {| task_uri := aUri;
                        task_stage := AwaitCompiler aCompiler (lit "x := 1") |})
    by reflexivity.
  split; [exact H|].
  assert (Hc : Forall (fun e => isClose e = true) [ProcClose (-2)])
    by (repeat constructor).
  destruct (C1_launch_failure_is_published_as_diagnostic validating 1 aUri
              aCompiler (lit "x := 1") (lit "spawn /usr/bin/volta ENOENT")
              [ProcClose (-2)] H Hc) as (_ & _ & Hp).
  exact Hp.
Defined.

(** C1 as stated fails: after a launch failure a diagnostic that
    describes the failure is published for the document, and no
    notification is shown for it. *)
Lemma C1_launch_failure_counterexample :
  published aUri (trace launchFailed)
  = Some [ {| severity := SeverityError;
              range := {| start := {| line := 0; character := 0 |};
                          end_ := {| line := 0; character := 0 |} |};
              message := lit "Failed to run Volta compiler: spawn /usr/bin/volta ENOENT";
              source := lit "volta" |} ]
  /\ published aUri (trace launchFailed) <> Some []
  /\ published aUri (trace launchFailed) <> None
  /\ existsb isNotification (skipn (length (trace validating)) (trace launchFailed))
     = false.
Proof.
  assert (E : published aUri (trace launchFailed)
              = Some [launchDiagnostic (lit "spawn /usr/bin/volta ENOENT")])
    by reflexivity.
  split; [exact E|]. rewrite E.
  split; [discriminate|]. split; [discriminate|]. reflexivity.
Qed.

(** C4, as amended.  The diagnostics published for a URI are those of the
    validation whose compiler run ended last, whichever text it was
    started for: when V1 ends after V2, the result of V1 replaces the
    result of V2. *)
Theorem C4_last_resolved_validation_is_published :
  forall (s : Server) (v1 v2 : nat) (u path1 text1 path2 text2 : str)
         (env1 env2 : CompilerRun) (result1 result2 : CompilerResult),
    v1 <> v2 ->
    tasks s !! v1 = Some {| task_uri := u; task_stage := AwaitCompiler path1 text1 |} ->
    tasks s !! v2 = Some {| task_uri := u; task_stage := AwaitCompiler path2 text2 |} ->
    runVoltaCompiler env1 path1 text1 u = Returned result1 ->
    runVoltaCompiler env2 path2 text2 u = Returned result2 ->
    let s2 := handle (CompilerRunDone v2 env2) s in
    let s1 := handle (CompilerRunDone v1 env1) s2 in
    published u (trace s2) = Some (diagnostics result2)
    /\ published u (trace s1) = Some (diagnostics result1).
Proof.
  intros s v1 v2 u path1 text1 path2 text2 env1 env2 result1 result2
         Hne H1 H2 Hr1 Hr2 s2 s1.
  destruct (validate_compiled_returned v2 env2 s u path2 text2 result2 H2 Hr2)
    as [Htr2 Hts2].
  assert (H1' : tasks s2 !! v1
                = Some {| task_uri := u; task_stage := AwaitCompiler path1 text1 |}).
  { subst s2. cbn [handle]. rewrite Hts2, lookup_delete_ne by congruence. exact H1. }
  destruct (validate_compiled_returned v1 env1 s2 u path1 text1 result1 H1' Hr1)
    as [Htr1 _].
  subst s1. cbn [handle] in *. fold s2 in Htr2. split.
  - rewrite Htr2, published_app. cbn. now rewrite decide_True.
  - rewrite Htr1, published_app. cbn. now rewrite decide_True.
Qed.

Lemma C4_last_resolved_witness :
  let afterNew := handle (CompilerRunDone 4 newOutput) twoInFlight in
  let afterOld := handle (CompilerRunDone 1 oldOutput) afterNew in
  tasks twoInFlight !! 1%nat
  = Some {| task_uri := aUri; task_stage := AwaitCompiler aCompiler (lit "old") |}
  /\ tasks twoInFlight !! 4%nat
     = Some {| task_uri := aUri; task_stage := AwaitCompiler aCompiler (lit "new") |}
  /\ published aUri (trace afterNew)
     = Some (parseCompilerErrors (lit ":1:1: error: new text"))
  /\ published aUri (trace afterOld)
     = Some (parseCompilerErrors (lit ":1:1: error: old text")).
Proof.
  intros afterNew afterOld.
  assert (H1 : tasks twoInFlight !! 1%nat
               = Some {| task_uri := aUri;
                         task_stage := AwaitCompiler aCompiler (lit "old") |})
    by reflexivity.
  assert (H4 : tasks twoInFlight !! 4%nat
               = Some {| task_uri := aUri;
                         task_stage := AwaitCompiler aCompiler (lit "new") |})
    by reflexivity.
  assert (Hne : 1%nat <> 4%nat) by discriminate.
  split; [exact H1|]. split; [exact H4|].
  exact (C4_last_resolved_validation_is_published twoInFlight 1 4 aUri
           aCompiler (lit "old") aCompiler (lit "new") oldOutput newOutput
           {| diagnostics := parseCompilerErrors (lit ":1:1: error: old text");
              success := (length (parseCompilerErrors (lit ":1:1: error: old text"))
                          =? 0)%nat |}
           {| diagnostics := parseCompilerErrors (lit ":1:1: error: new text");
              success := (length (parseCompilerErrors (lit ":1:1: error: new text"))
                          =? 0)%nat |}
           Hne H1 H4
           (runVoltaCompiler_compilerOutput _ _ _ _ _)
           (runVoltaCompiler_compilerOutput _ _ _ _ _)).
Defined.

(** C4 as stated fails: V1 was started for the older text and V2 for the
    newer one; V2 ends first and V1 after it; the diagnostics then
    published are those of V1. *)
Lemma C4_stale_result_counterexample :
  validations aUri (trace twoInFlight) = [lit "old"; lit "new"]
  /\ published aUri (trace (step twoInFlight (1200, CompilerRunDone 4 newOutput)))
     = Some (parseCompilerErrors (lit ":1:1: error: new text"))
  /\ published aUri (trace staleLast)
     = Some (parseCompilerErrors (lit ":1:1: error: old text"))
  /\ parseCompilerErrors (lit ":1:1: error: old text")
     <> parseCompilerErrors (lit ":1:1: error: new text").
Proof.
  split; [reflexivity|]. split; [reflexivity|]. split; [reflexivity|].
  assert (Eo : map message (parseCompilerErrors (lit ":1:1: error: old text"))
               = [lit "old text"]) by reflexivity.
  assert (En : map message (parseCompilerErrors (lit ":1:1: error: new text"))
               = [lit "new text"]) by reflexivity.
  intros H. rewrite H, En in Eo. cbv in Eo. discriminate Eo.
Qed.

(** C5 as stated fails: after the close the marker of the document is
    still in [validatedDocuments], and reopening the document calls no
    validation (a timer is set, for one second later). *)
Lemma C5_reopen_counterexample :
  aUri ∈ validatedDocuments closedAgain
  /\ validations aUri (trace closedAgain) = [lit "x := 1"; lit "x := 1"]
  /\ validations aUri (trace reopened) = [lit "x := 1"; lit "x := 1"]
  /\ now reopened = 9000
  /\ map tm_due (timers reopened) = [10000].
Proof.
  split; [|repeat split; reflexivity].
  apply (bool_decide_unpack _). exact I.
Qed.

(** What [getDocumentSettings] changes: the cache and the next fresh
    identity only. *)
Lemma getDocumentSettings_frame (resource : str) (s : Server) :
  let s1 := snd (getDocumentSettings resource s) in
  trace s1 = trace s /\ tasks s1 = tasks s
  /\ voltaCompilerPath s1 = voltaCompilerPath s
  /\ timers s1 = timers s /\ validationTimers s1 = validationTimers s
  /\ objects s1 = objects s /\ synced s1 = synced s /\ now s1 = now s
  /\ validatedDocuments s1 = validatedDocuments s
  /\ (nextId s <= nextId s1)%nat.
Proof.
  unfold getDocumentSettings.
  destruct (negb (hasConfigurationCapability s)); cbn;
    [|destruct (documentSettings s !! resource); cbn];
    repeat split; lia.
Qed.

Lemma validationRun_trace (document : TextDocument) (answer : VoltaSettings)
    (env : CompilerRun) (s : Server) :
  trace (validationRun document answer env s)
  = trace s ++ validationActions document env s.
Proof.
  unfold validationRun, validateTextDocument, validationActions.
  pose proof (getDocumentSettings_frame (uri document) s) as F.
  destruct (getDocumentSettings (uri document) s) as [promise s1].
  cbn [snd] in F. destruct F as (Htr & _ & Hp & _).
  cbn [nextId set_tasks set_nextId record set_trace pred].
  set (task := nextId s1).
  set (s2 := set_tasks _ _).
  assert (H2 : tasks s2 !! task
               = Some {| task_uri := uri document;
                         task_stage := AwaitSettings (text document) promise |})
    by apply lookup_insert_eq.
  assert (Hp2 : voltaCompilerPath s2 = voltaCompilerPath s) by exact Hp.
  assert (Ht2 : trace s2 = trace s ++ [Validate (uri document) (text document)])
    by (subst s2; cbn; now rewrite Htr).
  clearbody s2 task.
  unfold validate_settings. rewrite H2.
  cbn [voltaCompilerPath record set_trace]. rewrite Hp2.
  destruct (voltaCompilerPath s) as [[|c path]|].
  - unfold validate_compiled. cbn [tasks set_tasks record set_trace].
    rewrite lookup_delete_eq. cbn [trace set_tasks record set_trace].
    now rewrite Ht2, <- !app_assoc.
  - unfold validate_compiled. cbn [tasks set_tasks record set_trace].
    rewrite lookup_insert_eq.
    destruct (runVoltaCompiler env (c :: path) (text document) (uri document))
      as [result| |]; [destruct (success result)|..];
      cbn [trace set_tasks record set_trace tasks];
      now rewrite Ht2, <- !app_assoc.
  - unfold validate_compiled. cbn [tasks set_tasks record set_trace].
    rewrite lookup_delete_eq. cbn [trace set_tasks record set_trace].
    now rewrite Ht2, <- !app_assoc.
Qed.

Lemma length_lineDiagnostics (lines : list str) :
  length (flat_map lineDiagnostics lines)
  = length (filter (fun l => is_Some (exec errorRegex l)) lines).
Proof.
  induction lines as [|l lines IH]; [reflexivity|].
  cbn [flat_map]. rewrite length_app, IH. unfold lineDiagnostics.
  destruct (exec errorRegex l) as [m|] eqn:E.
  - rewrite filter_cons_True by (rewrite E; eauto). reflexivity.
  - rewrite filter_cons_False by (rewrite E; apply is_Some_None). reflexivity.
Qed.

(** C9.  The diagnostics a validation publishes do not depend on the
    setting [maxNumberOfProblems]: with any two values of it, in the
    global settings and in the settings the client answers, and all else
    equal, the validation does the same and publishes the same; what it
    publishes is one diagnostic for each line of stderr that matches the
    grammar, never cut to the limit. *)
Theorem C9_diagnostics_independent_of_maxNumberOfProblems :
  forall (s : Server) (document : TextDocument) (answer : VoltaSettings)
         (env : CompilerRun) (n1 n2 : Z),
    let run n :=
      validationRun document (withMaxNumberOfProblems n answer) env
        (set_globalSettings (withMaxNumberOfProblems n (globalSettings s)) s) in
    trace (run n1) = trace (run n2)
    /\ published (uri document) (trace (run n1))
       = published (uri document) (trace (run n2))
    /\ forall (c : ascii) (path stderr : str) (exitCode : Z),
         voltaCompilerPath s = Some (c :: path) ->
         env = compilerOutput stderr exitCode ->
         published (uri document) (trace (run n1))
         = Some (parseCompilerErrors stderr)
         /\ length (parseCompilerErrors stderr) = length (matchingLines stderr).
Proof.
  intros s document answer env n1 n2 run.
  assert (Heq : trace (run n1) = trace (run n2)).
  { subst run. cbv beta. now rewrite !validationRun_trace. }
  split; [exact Heq|]. split; [now rewrite Heq|].
  intros c path stderr exitCode Hpath ->. split.
  - subst run. cbv beta. rewrite validationRun_trace, published_app.
    unfold validationActions. cbn [voltaCompilerPath set_globalSettings].
    rewrite Hpath, runVoltaCompiler_compilerOutput.
    cbn [diagnostics success app published].
    now rewrite decide_True.
  - rewrite parseCompilerErrors_lines. apply length_lineDiagnostics.
Qed.

Lemma C9_independent_witness :
  let stderr := lit ":1:1: error: a
:2:1: error: b
:3:1: warning: c" in
  let run n :=
    validationRun {| uri := aUri; text := lit "x" |}
      (withMaxNumberOfProblems n defaultSettings) (compilerOutput stderr 1)
      (set_globalSettings (withMaxNumberOfProblems n (globalSettings started))
         started) in
  voltaCompilerPath started = Some aCompiler
  /\ option_map (@length Diagnostic) (published aUri (trace (run 1))) = Some 3%nat
  /\ published aUri (trace (run 1)) = published aUri (trace (run 1000)).
Proof.
  intros stderr run. split; [reflexivity|].
  destruct (C9_diagnostics_independent_of_maxNumberOfProblems started
              {| uri := aUri; text := lit "x" |} defaultSettings
              (compilerOutput stderr 1) 1 1000) as (_ & Hp & H).
  destruct (H "/"%char (lit "usr/bin/volta") stderr 1 eq_refl eq_refl) as [Hpub _].
  split; [|exact Hp].
  subst run. cbv beta in Hpub |- *. cbn [uri] in Hpub.
  rewrite Hpub. reflexivity.
Defined.

(** ** Signature help *)

Lemma chr_eqb_eq (a b : ascii) : chr_eqb a b = true <-> a = b.
Proof. apply Ascii.eqb_eq. Qed.

(** [lastIndexOf] finds the last occurrence. *)
Lemma lastIndexOf_Some (c : ascii) (s : str) (i : nat) :
  lastIndexOf c s = Some i ->
  s !! i = Some c /\ forall j, (i < j)%nat -> s !! j <> Some c.
Proof.
  revert i; induction s as [|x s IH]; intros i; cbn [lastIndexOf]; [discriminate|].
  destruct (lastIndexOf c s) as [k|] eqn:E.
  - intros [= <-]. destruct (IH k eq_refl) as [H1 H2]. split; [exact H1|].
    intros [|j] Hj; [lia|]. apply H2. lia.
  - destruct (chr_eqb x c) eqn:Ex; [|discriminate].
    intros [= <-]. apply chr_eqb_eq in Ex. subst x. split; [reflexivity|].
    intros [|j] Hj; [lia|]. cbn. intros Hc.
    clear Hj IH. revert j Hc. induction s as [|y s IHs]; intros j Hc; [discriminate|].
    cbn [lastIndexOf] in E. destruct (lastIndexOf c s) eqn:E'; [discriminate|].
    destruct (chr_eqb y c) eqn:Ey; [discriminate|].
    destruct j as [|j]; cbn in Hc.
    + injection Hc as ->. unfold chr_eqb in Ey. now rewrite Ascii.eqb_refl in Ey.
    + now apply (IHs eq_refl j).
Qed.

Lemma lastIndexOf_None (c : ascii) (s : str) :
  lastIndexOf c s = None -> forall j, s !! j <> Some c.
Proof.
  induction s as [|x s IH]; cbn [lastIndexOf]; intros H j; [now destruct j|].
  destruct (lastIndexOf c s) eqn:E; [discriminate|].
  destruct (chr_eqb x c) eqn:Ex; [discriminate|].
  destruct j as [|j]; cbn.
  - intros [= ->]. unfold chr_eqb in Ex. now rewrite Ascii.eqb_refl in Ex.
  - now apply IH.
Qed.

Lemma activeParameterOf_clamp (t : str) (i n : nat) :
  activeParameterOf t i n
  = Z.max 0 (Z.min (Z.of_nat (countChar "," (drop (S i) t))) (Z.of_nat n - 1)).
Proof.
  unfold activeParameterOf, substringFrom. rewrite Nat.add_1_r.
  destruct (Z.leb_spec 0 (Z.min (Z.of_nat (countChar "," (drop (S i) t)))
                            (Z.of_nat n - 1))); lia.
Qed.

Section SignatureHelpFacts.

Variable JSON_parse : str -> CompilerInterface.Parsed.
Variable spawn : str -> list str -> list ProcEvent.

(** What a signature help that is returned was made from. *)
Lemma onSignatureHelp_returns_help (s : Server) (u : str) (line column : nat)
    (help : SignatureHelp.t) :
  onSignatureHelp JSON_parse spawn s u line column = Returned (Some help) ->
  exists object document t i m defLine defColumn sig,
    synced s !! u = Some object
    /\ objects s !! object = Some document
    /\ textBeforeCursorOf (text document) line column = Some t
    /\ lastIndexOf "(" t = Some i
    /\ exec functionNameRegex (trim (substring 0 i t)) = Some m
    /\ findFunctionDefinition (groupText 1 m) 0 (split LF (text document))
       = Some (defLine, defColumn)
    /\ SignatureHelp.signatures help = [sig]
    /\ SignatureHelp.activeParameter help
       = activeParameterOf t i (length (SignatureInformation.parameters sig)).
Proof.
  unfold onSignatureHelp, textBeforeCursorOf.
  destruct (voltaCompilerPath s) as [[|c path]|]; try discriminate.
  destruct (synced s !! u) as [object|] eqn:Es; [|discriminate].
  destruct (objects s !! object) as [document|] eqn:Eo; [|discriminate].
  destruct (split LF (text document) !! line) as [currentLine|] eqn:El;
    [|discriminate].
  destruct (lastIndexOf "(" (substring 0 column currentLine)) as [i|] eqn:Ei;
    [|discriminate].
  destruct (exec functionNameRegex _) as [m|] eqn:Em; [|discriminate].
  destruct (findFunctionDefinition _ _ _) as [[defLine defColumn]|] eqn:Ed;
    [|discriminate].
  destruct (CompilerInterface.getSymbolInfoFromCompiler _ _ _ _ _ _)
    as [symbolInfo| |]; try discriminate.
  destruct (CompilerInterface.success symbolInfo); [|discriminate].
  destruct (CompilerInterface.result symbolInfo) as [result|]; [|discriminate].
  destruct (CompilerInterface.parameters result) as [ps|]; [|discriminate].
  intros [= <-].
  eexists object, document, (substring 0 column currentLine), i, m,
    defLine, defColumn, _.
  rewrite El. repeat split; try eassumption; reflexivity.
Qed.

End SignatureHelpFacts.

(** C7, as amended.  In signature help the active call is located at the
    last [(] of the text of the current line before the cursor, whether a
    [)] before the cursor closes it or not, and the name of the function
    is the identifier that ends the text before that [(]; when no [(]
    occurs before the cursor, no signature help is returned. *)
Theorem C7_active_call_is_at_last_open_paren :
  forall (JSON_parse : str -> CompilerInterface.Parsed)
         (spawn : str -> list str -> list ProcEvent)
         (s : Server) (u : str) (line column object : nat)
         (document : TextDocument) (t : str),
    synced s !! u = Some object ->
    objects s !! object = Some document ->
    textBeforeCursorOf (text document) line column = Some t ->
    ((forall j, t !! j <> Some "("%char) ->
     onSignatureHelp JSON_parse spawn s u line column = Returned None)
    /\ (forall help,
          onSignatureHelp JSON_parse spawn s u line column = Returned (Some help) ->
          exists i m,
            t !! i = Some "("%char
            /\ (forall j, (i < j)%nat -> t !! j <> Some "("%char)
            /\ exec functionNameRegex (trim (take i t)) = Some m
            /\ is_Some (findFunctionDefinition (groupText 1 m) 0
                          (split LF (text document)))).
Proof.
  intros JSON_parse spawn s u line column object document t Hs Ho Ht. split.
  - intros Hno. unfold onSignatureHelp. unfold textBeforeCursorOf in Ht.
    destruct (voltaCompilerPath s) as [[|c path]|]; try reflexivity.
    rewrite Hs, Ho.
    destruct (split LF (text document) !! line) as [currentLine|]; [|discriminate].
    injection Ht as Ht. rewrite Ht.
    destruct (lastIndexOf "(" t) as [i|] eqn:Ei; [|reflexivity].
    destruct (lastIndexOf_Some _ _ _ Ei) as [Hi _]. now destruct (Hno i).
  - intros help Hhelp.
    destruct (onSignatureHelp_returns_help _ _ _ _ _ _ _ Hhelp)
      as (object' & document' & t' & i & m & defLine & defColumn & sig
          & Hs' & Ho' & Ht' & Hi & Hm & Hd & _).
    rewrite Hs in Hs'. injection Hs' as <-.
    rewrite Ho in Ho'. injection Ho' as <-.
    rewrite Ht in Ht'. injection Ht' as <-.
    destruct (lastIndexOf_Some _ _ _ Hi) as [H1 H2].
    exists i, m. repeat split; try assumption.
    + unfold substring in Hm. now rewrite Nat.sub_0_r in Hm.
    + rewrite Hd. eauto.
Qed.

Lemma C7_active_call_witness :
  textBeforeCursorOf callsDocument 2 15 = Some (lit "y := add(g(1), ")
  /\ exists i m,
       lit "y := add(g(1), " !! i = Some "("%char
       /\ (forall j, (i < j)%nat -> lit "y := add(g(1), " !! j <> Some "("%char)
       /\ exec functionNameRegex (trim (take i (lit "y := add(g(1), "))) = Some m
       /\ is_Some (findFunctionDefinition (groupText 1 m) 0 (split LF callsDocument)).
Proof.
  split; [reflexivity|].
  refine (proj2 (C7_active_call_is_at_last_open_paren answerParser
            answeringCompiler calling aUri 2 15 0
            {| uri := aUri; text := callsDocument |} (lit "y := add(g(1), ")
            _ _ _)
          {| SignatureHelp.signatures :=
               [ {| SignatureInformation.label := lit "g(x)";
                    SignatureInformation.documentation := None;
                    SignatureInformation.parameters :=
                      [ {| ParameterInformation.label := lit "x";
                           ParameterInformation.documentation := None |} ] |} ];
             SignatureHelp.activeSignature := 0;
             SignatureHelp.activeParameter := 0 |} _);
    reflexivity.
Defined.

(** C7 as stated fails.  Before the cursor in [y := add(g(1), ] the
    nearest unmatched [(] is the one of [add], at index 8; the handler
    takes the last [(], at index 10, which the [)] after it closes, and
    answers with the signature of [g].  In [w := g(1) ] no [(] is
    unmatched, and a signature help is returned all the same. *)
Lemma C7_unmatched_paren_counterexample :
  nearestUnmatchedOpenParen (lit "y := add(g(1), ") = Some 8%nat
  /\ lastIndexOf "(" (lit "y := add(g(1), ") = Some 10%nat
  /\ helpSummary (onSignatureHelp answerParser answeringCompiler calling aUri 2 15)
     = Some ([lit "g(x)"], 0)
  /\ textBeforeCursorOf callsDocument 4 10 = Some (lit "w := g(1) ")
  /\ nearestUnmatchedOpenParen (lit "w := g(1) ") = None
  /\ helpSummary (onSignatureHelp answerParser answeringCompiler calling aUri 4 10)
     = Some ([lit "g(x)"], 0).
Proof. repeat split; reflexivity. Qed.

(** C8.  The active parameter of a signature help is the number of commas
    between the opening parenthesis of the call and the cursor, clamped
    to the range from 0 to the number of parameters minus 1.  With the
    cursor after [add(1, ] and a function of two parameters it is 1; with
    no comma yet it is 0. *)
Theorem C8_active_parameter_counts_commas :
  (forall (JSON_parse : str -> CompilerInterface.Parsed)
          (spawn : str -> list str -> list ProcEvent)
          (s : Server) (u : str) (line column : nat) (help : SignatureHelp.t),
      onSignatureHelp JSON_parse spawn s u line column = Returned (Some help) ->
      exists object document t i sig,
        synced s !! u = Some object
        /\ objects s !! object = Some document
        /\ textBeforeCursorOf (text document) line column = Some t
        /\ lastIndexOf "(" t = Some i
        /\ SignatureHelp.signatures help = [sig]
        /\ SignatureHelp.activeParameter help
           = Z.max 0
               (Z.min (Z.of_nat (countChar "," (drop (S i) t)))
                      (Z.of_nat (length (SignatureInformation.parameters sig)) - 1)))
  /\ (textBeforeCursorOf callsDocument 3 7 = Some (lit "add(1, ")
      /\ helpSummary (onSignatureHelp answerParser answeringCompiler calling aUri 3 7)
         = Some ([lit "add(a, b)"], 1))
  /\ (textBeforeCursorOf callsDocument 3 4 = Some (lit "add(")
      /\ helpSummary (onSignatureHelp answerParser answeringCompiler calling aUri 3 4)
         = Some ([lit "add(a, b)"], 0)).
Proof.
  split; [|repeat split; reflexivity].
  intros JSON_parse spawn s u line column help Hhelp.
  destruct (onSignatureHelp_returns_help _ _ _ _ _ _ _ Hhelp)
    as (object & document & t & i & m & defLine & defColumn & sig
        & Hs & Ho & Ht & Hi & _ & _ & Hsig & Hact).
  exists object, document, t, i, sig. repeat split; try assumption.
  now rewrite Hact, activeParameterOf_clamp.
Qed.

Lemma C8_active_parameter_witness :
  onSignatureHelp answerParser answeringCompiler calling aUri 3 7
  = Returned (Some addHelp)
  /\ textBeforeCursorOf callsDocument 3 7 = Some (lit "add(1, ")
  /\ lastIndexOf "(" (lit "add(1, ") = Some 3%nat
  /\ SignatureHelp.activeParameter addHelp
     = Z.max 0 (Z.min (Z.of_nat (countChar "," (drop 4 (lit "add(1, ")))) (2 - 1)).
Proof.
  assert (H : onSignatureHelp answerParser answeringCompiler calling aUri 3 7
              = Returned (Some addHelp)) by reflexivity.
  split; [exact H|].
  destruct (proj1 C8_active_parameter_counts_commas answerParser
              answeringCompiler calling aUri 3%nat 7%nat addHelp H)
    as (object & document & t & i & sig & Hs & Ho & Ht & Hi & Hsig & Hact).
  assert (E : synced calling !! aUri = Some 0%nat) by reflexivity.
  rewrite E in Hs. injection Hs as <-.
  assert (E' : objects calling !! 0%nat
               = Some {| uri := aUri; text := callsDocument |})
    by reflexivity.
  rewrite E' in Ho. injection Ho as <-. cbn [text] in Ht.
  assert (Et : textBeforeCursorOf callsDocument 3 7 = Some (lit "add(1, "))
    by reflexivity.
  rewrite Et in Ht. injection Ht as <-.
  assert (Ei : lastIndexOf "(" (lit "add(1, ") = Some 3%nat)
    by reflexivity.
  assert (Hi' : Some 3%nat = Some i) by exact Hi.
  injection Hi' as <-.
  injection Hsig as <-.
  split; [exact Et|]. split; [exact Ei|]. exact Hact.
Defined.

(** ** The document lifecycle *)

Lemma validateTextDocument_frame (document : TextDocument) (s : Server) :
  let s' := validateTextDocument document s in
  trace s' = trace s ++ [Validate (uri document) (text document)]
  /\ timers s' = timers s /\ validationTimers s' = validationTimers s
  /\ objects s' = objects s /\ synced s' = synced s /\ now s' = now s
  /\ validatedDocuments s' = validatedDocuments s
  /\ (nextId s <= nextId s')%nat.
Proof.
  unfold validateTextDocument.
  pose proof (getDocumentSettings_frame (uri document) s) as F.
  destruct (getDocumentSettings (uri document) s) as [promise s1].
  cbn [snd] in F. destruct F as (Htr & _ & _ & Ht & Hv & Ho & Hs & Hn & Hd & Hi).
  cbn. rewrite Htr. repeat split; try assumption. lia.
Qed.

Lemma timerFires_frame (tm : Timer) (s : Server) :
  let s' := timerFires tm s in
  trace s' = trace s ++ fireActions s tm
  /\ timers s' = timers s
  /\ validationTimers s' = delete (tm_uri tm) (validationTimers s)
  /\ objects s' = objects s /\ synced s' = synced s /\ now s' = now s
  /\ validatedDocuments s' = validatedDocuments s
  /\ (nextId s <= nextId s')%nat.
Proof.
  unfold timerFires, fireActions.
  destruct (objects s !! tm_document tm) as [document|].
  - destruct (validateTextDocument_frame document s)
      as (Htr & Ht & Hv & Ho & Hs & Hn & Hd & Hi).
    cbn. rewrite Hv. repeat split; assumption.
  - cbn. rewrite app_nil_r. repeat split; lia.
Qed.

(** Firing a list of timers, one after the other. *)
Lemma fold_timerFires (l : list Timer) (s : Server) :
  let s' := fold_left (fun s tm => timerFires tm s) l s in
  trace s' = trace s ++ flat_map (fireActions s) l
  /\ timers s' = timers s
  /\ (forall u, validationTimers s' !! u
                = if decide (u ∈ map tm_uri l) then None
                  else validationTimers s !! u)
  /\ objects s' = objects s /\ synced s' = synced s /\ now s' = now s
  /\ validatedDocuments s' = validatedDocuments s
  /\ (nextId s <= nextId s')%nat.
Proof.
  revert s; induction l as [|tm l IH]; intros s; cbn [fold_left flat_map map].
  - rewrite app_nil_r. repeat split; try lia.
  - destruct (timerFires_frame tm s) as (Htr & Ht & Hv & Ho & Hs & Hn & Hd & Hi).
    destruct (IH (timerFires tm s)) as (Htr' & Ht' & Hv' & Ho' & Hs' & Hn' & Hd' & Hi').
    cbv zeta. rewrite Htr', Htr, Ht', Ht, Ho', Ho, Hs', Hs, Hn', Hn, Hd', Hd.
    repeat split; try lia.
    + rewrite <- app_assoc. f_equal. f_equal.
      apply flat_map_ext. intros a. unfold fireActions. now rewrite Ho.
    + intros u. rewrite Hv', Hv.
      destruct (decide (u = tm_uri tm)) as [->|Hne].
      * rewrite lookup_delete_eq, (decide_True (P := _ ∈ _ :: _));
          [now destruct (decide _)|]. apply elem_of_cons; now left.
      * rewrite lookup_delete_ne by congruence.
        destruct (decide (u ∈ map tm_uri l)) as [Hin|Hnin].
        -- rewrite decide_True; [reflexivity|]. apply elem_of_cons; now right.
        -- rewrite decide_False; [reflexivity|].
           intros [?|?]%elem_of_cons; contradiction.
Qed.

(** What the passing of time does. *)
Lemma advance_spec (t : Z) (s : Server) :
  let t' := Z.max t (now s) in
  let s' := advance t s in
  trace s' = trace s ++ flat_map (fireActions s) (filter (fun tm => tm_due tm <= t') (timers s))
  /\ timers s' = filter (fun tm => ~ tm_due tm <= t') (timers s)
  /\ (forall u, validationTimers s' !! u
                = if decide (u ∈ map tm_uri (filter (fun tm => tm_due tm <= t') (timers s)))
                  then None else validationTimers s !! u)
  /\ objects s' = objects s /\ synced s' = synced s /\ now s' = t'
  /\ validatedDocuments s' = validatedDocuments s
  /\ (nextId s <= nextId s')%nat.
Proof.
  unfold advance.
  set (t' := Z.max t (now s)).
  destruct (fold_timerFires (filter (fun tm => tm_due tm <= t') (timers s))
              (set_timers (filter (fun tm => ~ tm_due tm <= t') (timers s))
                 (set_now t' s)))
    as (Htr & Ht & Hv & Ho & Hs & Hn & Hd & Hi).
  cbv zeta. repeat split; assumption.
Qed.

Lemma onDidChangeContent_frame (object : nat) (document : TextDocument)
    (s : Server) :
  let s' := onDidChangeContent object document s in
  trace s' = trace s /\ validatedDocuments s' = validatedDocuments s
  /\ objects s' = objects s /\ synced s' = synced s /\ now s' = now s.
Proof.
  unfold onDidChangeContent.
  destruct (validationTimers s !! uri document); cbn; repeat split.
Qed.

Lemma onDidOpen_validated (document : TextDocument) (s : Server) :
  validatedDocuments (onDidOpen document s)
  = {[uri document]} ∪ validatedDocuments s.
Proof.
  unfold onDidOpen. destruct (decide _) as [Hin|Hnin].
  { symmetry. apply subseteq_union_1_L. now apply singleton_subseteq_l. }
  destruct (validateTextDocument_frame document
              (set_validatedDocuments ({[uri document]} ∪ validatedDocuments s) s))
    as (_ & _ & _ & _ & _ & _ & Hv & _).
  exact Hv.
Qed.

Lemma onDidClose_validated (document : TextDocument) (s : Server) :
  validatedDocuments (onDidClose document s) = validatedDocuments s.
Proof.
  unfold onDidClose. cbn [validationTimers set_documentSettings].
  now destruct (validationTimers s !! uri document).
Qed.

Lemma NoDup_map_eq {A B} (f : A -> B) (l : list A) (x y : A) :
  NoDup (map f l) -> x ∈ l -> y ∈ l -> f x = f y -> x = y.
Proof.
  induction l as [|a l IH]; cbn [map]; intros Hnd Hx Hy Hf.
  - now apply elem_of_nil in Hx.
  - apply NoDup_cons in Hnd as [Hni Hnd].
    assert (Hin : forall z, z ∈ l -> f z ∈ map f l).
    { intros z Hz. apply list_elem_of_In, in_map, list_elem_of_In, Hz. }
    apply elem_of_cons in Hx as [->|Hx]; apply elem_of_cons in Hy as [->|Hy].
    + reflexivity.
    + destruct Hni. rewrite Hf. now apply Hin.
    + destruct Hni. rewrite <- Hf. now apply Hin.
    + now apply IH.
Qed.

Lemma NoDup_map_filter {A B} (f : A -> B) (P : A -> Prop)
    `{forall x, Decision (P x)} (l : list A) :
  NoDup (map f l) -> NoDup (map f (filter P l)).
Proof.
  induction l as [|a l IH]; cbn [map]; intros Hnd; [constructor|].
  apply NoDup_cons in Hnd as [Hni Hnd].
  destruct (decide (P a)) as [Hp|Hp].
  - rewrite filter_cons_True by assumption. cbn [map].
    apply NoDup_cons. split; [|now apply IH].
    intros Hin. apply Hni.
    apply list_elem_of_In, in_map_iff in Hin as (z & Hz & Hzin).
    apply list_elem_of_In, list_elem_of_filter in Hzin as [_ Hzin].
    rewrite <- Hz. apply list_elem_of_In, in_map, list_elem_of_In, Hzin.
  - rewrite filter_cons_False by assumption. now apply IH.
Qed.

(** The invariant looks at the timers, the objects and the document
    manager only, and identities may grow. *)
Lemma wf_frame (s s' : Server) :
  timers s' = timers s -> validationTimers s' = validationTimers s ->
  objects s' = objects s -> synced s' = synced s ->
  (nextId s <= nextId s')%nat ->
  wf s -> wf s'.
Proof.
  intros Ht Hv Ho Hs Hn [W1 W2 W3]. split.
  - now rewrite Ht.
  - intros tm Htm. rewrite Ht in Htm. destruct (W2 tm Htm) as (A & B & C & D).
    rewrite Hv, Ho. repeat split; [assumption|lia|lia|assumption].
  - intros u object Hu. rewrite Hs in Hu. destruct (W3 u object Hu) as [A B].
    rewrite Ho. split; [lia|assumption].
Qed.

Lemma wf_validateTextDocument (document : TextDocument) (s : Server) :
  wf s -> wf (validateTextDocument document s).
Proof.
  destruct (validateTextDocument_frame document s)
    as (_ & Ht & Hv & Ho & Hs & _ & _ & Hi).
  now apply wf_frame.
Qed.

Lemma wf_advance (t : Z) (s : Server) : wf s -> wf (advance t s).
Proof.
  intros [W1 W2 W3].
  destruct (advance_spec t s) as (_ & Ht & Hv & Ho & Hs & _ & _ & Hi).
  cbv zeta in *. set (t' := Z.max t (now s)) in *. split.
  - rewrite Ht. now apply NoDup_map_filter.
  - intros tm Htm. rewrite Ht in Htm.
    apply list_elem_of_filter in Htm as [Hlate Htm].
    destruct (W2 tm Htm) as (A & B & C & D).
    rewrite Hv, Ho. repeat split; [|lia|lia|assumption].
    rewrite decide_False; [assumption|].
    intros Hin. apply list_elem_of_In, in_map_iff in Hin as (tm' & Huri & Hin).
    apply list_elem_of_In, list_elem_of_filter in Hin as [Hdue Hin].
    destruct (W2 tm' Hin) as (A' & _).
    rewrite Huri, A in A'. injection A' as Hid.
    assert (tm = tm') by (eapply NoDup_map_eq; eauto).
    subst tm'. contradiction.
  - intros u object Hu. rewrite Hs in Hu. destruct (W3 u object Hu) as [A B].
    rewrite Ho. split; [lia|assumption].
Qed.

(** Clearing the timer kept for [u] leaves no timer for [u]. *)
Lemma timers_after_clear (u : str) (s : Server) :
  wf s ->
  let s1 := match validationTimers s !! u with
            | Some existingTimer => clearTimeout existingTimer s
            | None => s
            end in
  (forall tm, tm ∈ timers s1 -> tm ∈ timers s /\ tm_uri tm <> u)
  /\ NoDup (map tm_id (timers s1))
  /\ validationTimers s1 = validationTimers s /\ objects s1 = objects s
  /\ synced s1 = synced s /\ nextId s1 = nextId s /\ now s1 = now s
  /\ trace s1 = trace s /\ documentSettings s1 = documentSettings s
  /\ validatedDocuments s1 = validatedDocuments s.
Proof.
  intros [W1 W2 W3]. destruct (validationTimers s !! u) as [existing|] eqn:E; cbn.
  - split; [|split; [now apply NoDup_map_filter|repeat split]].
    intros tm [Hid Htm]%list_elem_of_filter. split; [assumption|].
    intros Hu. destruct (W2 tm Htm) as (A & _). rewrite Hu, E in A.
    injection A as A. congruence.
  - repeat split; try assumption.
    intros Hu. destruct (W2 tm H) as (A & _). rewrite Hu, E in A. discriminate.
Qed.

Lemma wf_onDidChangeContent (object : nat) (document : TextDocument) (s : Server) :
  wf s -> (object < nextId s)%nat ->
  (forall doc, objects s !! object = Some doc -> uri doc = uri document) ->
  wf (onDidChangeContent object document s).
Proof.
  intros W Hobj Hdoc. pose proof W as [W1 W2 W3].
  destruct (timers_after_clear (uri document) s W)
    as (Hin & Hnd & Hv & Ho & Hs & Hn & _).
  unfold onDidChangeContent. cbv zeta in *.
  set (s1 := match validationTimers s !! uri document with
             | Some existingTimer => clearTimeout existingTimer s
             | None => s
             end) in *.
  split; cbn.
  - rewrite map_app. cbn [map tm_id]. apply NoDup_app. split; [assumption|].
    split; [|apply NoDup_singleton].
    intros x Hx Hx'. apply list_elem_of_singleton in Hx'. subst x.
    apply list_elem_of_In, in_map_iff in Hx as (tm & Hid & Htm).
    apply list_elem_of_In, Hin in Htm as [Htm _].
    destruct (W2 tm Htm) as (_ & B & _). lia.
  - intros tm [Htm|Htm]%elem_of_app.
    + destruct (Hin tm Htm) as [Htm' Hu]. destruct (W2 tm Htm') as (A & B & C & D).
      rewrite lookup_insert_ne by congruence. rewrite Hv, Ho, Hn.
      repeat split; [assumption|lia|lia|assumption].
    + apply list_elem_of_singleton in Htm. subst tm. cbn.
      rewrite lookup_insert_eq, Ho, Hn. repeat split; [lia|lia|assumption].
  - intros u object' Hu. rewrite Hs in Hu. destruct (W3 u object' Hu) as [A B].
    rewrite Ho, Hn. split; [lia|assumption].
Qed.

Lemma wf_onDidClose (document : TextDocument) (s : Server) :
  wf s -> wf (onDidClose document s).
Proof.
  intros W. pose proof W as [W1 W2 W3]. unfold onDidClose.
  cbn [validationTimers set_documentSettings].
  destruct (validationTimers s !! uri document) as [timer|] eqn:E.
  - split; cbn.
    + now apply NoDup_map_filter.
    + intros tm [Hid Htm]%list_elem_of_filter.
      destruct (W2 tm Htm) as (A & B & C & D).
      rewrite lookup_delete_ne; [repeat split; assumption|].
      intros Hu. rewrite <- Hu, E in A. injection A as A. congruence.
    + exact W3.
  - split; cbn; assumption.
Qed.

Lemma wf_onDidOpen (document : TextDocument) (s : Server) :
  wf s -> wf (onDidOpen document s).
Proof.
  intros W. unfold onDidOpen. destruct (decide _); [assumption|].
  apply wf_validateTextDocument. revert W. now apply wf_frame.
Qed.

(** The state in which the handlers of an open run is well formed. *)
Lemma wf_opening (u content : str) (s : Server) :
  wf s ->
  wf (onDidOpen {| uri := u; text := content |}
        (set_synced (<[u := nextId s]> (synced s))
           (set_objects (<[nextId s := {| uri := u; text := content |}]> (objects s))
              (set_nextId (S (nextId s)) s)))).
Proof.
  intros [W1 W2 W3]. apply wf_onDidOpen. split; cbn.
  - assumption.
  - intros tm Htm. destruct (W2 tm Htm) as (A & B & C & D).
    rewrite lookup_insert_ne by lia. repeat split; [assumption|lia|lia|assumption].
  - intros u' object Hu'.
    destruct (decide (u' = u)) as [->|Hne].
    + rewrite lookup_insert_eq in Hu'. injection Hu' as <-.
      rewrite lookup_insert_eq. split; [lia|eauto].
    + rewrite lookup_insert_ne in Hu' by congruence.
      destruct (W3 u' object Hu') as [A B].
      rewrite lookup_insert_ne by lia. split; [lia|assumption].
Qed.

Lemma onDidOpen_frame (document : TextDocument) (s : Server) :
  let s' := onDidOpen document s in
  now s' = now s /\ objects s' = objects s /\ synced s' = synced s
  /\ (nextId s <= nextId s')%nat.
Proof.
  unfold onDidOpen. destruct (decide _); [repeat split; lia|].
  destruct (validateTextDocument_frame document
              (set_validatedDocuments ({[uri document]} ∪ validatedDocuments s) s))
    as (_ & _ & _ & Ho & Hs & Hn & _ & Hi).
  repeat split; assumption.
Qed.

Lemma wf_handle (e : Event) (s : Server) : wf s -> wf (handle e s).
Proof.
  intros W. pose proof W as [W1 W2 W3].
  destruct e as [configuration|found|u content|u content|u|task answer|task env];
    cbn [handle].
  - revert W. now apply wf_frame.
  - unfold onInitialized. destruct found as [[|c path]|]; revert W; now apply wf_frame.
  - (* open *)
    apply wf_onDidChangeContent.
    + now apply wf_opening.
    + match goal with |- (_ < nextId (onDidOpen ?d ?x))%nat =>
        destruct (onDidOpen_frame d x) as (_ & _ & _ & Hi)
      end.
      cbn in Hi. lia.
    + intros doc.
      match goal with |- objects (onDidOpen ?d ?x) !! _ = _ -> _ =>
        destruct (onDidOpen_frame d x) as (_ & -> & _)
      end.
      cbn. rewrite lookup_insert_eq. now intros [= <-].
  - (* change *)
    destruct (synced s !! u) as [object|] eqn:Es; [|assumption].
    destruct (objects s !! object) as [old|] eqn:Eo; [|assumption].
    destruct (W3 u object Es) as [Hlt _].
    apply wf_onDidChangeContent.
    + split; cbn.
      * assumption.
      * intros tm Htm. destruct (W2 tm Htm) as (A & B & C & D).
        repeat split; try assumption.
        intros doc. destruct (decide (tm_document tm = object)) as [Hd|Hd].
        -- rewrite Hd, lookup_insert_eq. intros [= <-]. cbn. apply D. now rewrite Hd.
        -- rewrite lookup_insert_ne by congruence. apply D.
      * intros u' object' Hu'. destruct (W3 u' object' Hu') as (A & doc & B & C).
        split; [assumption|].
        destruct (decide (object' = object)) as [->|Hd].
        -- rewrite lookup_insert_eq. eexists; split; [reflexivity|]. cbn. congruence.
        -- rewrite lookup_insert_ne by congruence. eauto.
    + cbn. assumption.
    + intros doc. cbn. rewrite lookup_insert_eq. now intros [= <-].
  - (* close *)
    destruct (synced s !! u) as [object|] eqn:Es; [|assumption].
    destruct (objects s !! object) as [document|] eqn:Eo; [|assumption].
    apply wf_onDidClose. split; cbn; [assumption..|].
    intros u' object' Hu'. destruct (decide (u' = u)) as [->|Hne].
    + now rewrite lookup_delete_eq in Hu'.
    + rewrite lookup_delete_ne in Hu' by congruence. now apply W3.
  - unfold validate_settings.
    destruct (tasks s !! task) as [[u [content promise|path content]]|]; try assumption.
    cbn. destruct (voltaCompilerPath s) as [[|c path]|]; revert W; now apply wf_frame.
  - unfold validate_compiled.
    destruct (tasks s !! task) as [[u [content promise|path content]]|]; try assumption.
    destruct (runVoltaCompiler env path content u) as [result| |]; try assumption.
    + destruct (success result); revert W; now apply wf_frame.
    + revert W; now apply wf_frame.
Qed.

Lemma wf_initialServer : wf initialServer.
Proof.
  split; cbn.
  - constructor.
  - intros tm Htm. now apply elem_of_nil in Htm.
  - intros u object Hu. now rewrite lookup_empty in Hu.
Qed.

(** The invariant holds in every state the server reaches. *)
Lemma reachable_wf (s : Server) : reachable s -> wf s.
Proof.
  induction 1 as [|s te _ IH]; [exact wf_initialServer|].
  unfold step. now apply wf_handle, wf_advance.
Qed.

Lemma filter_comm {A} (P Q : A -> Prop) `{forall x, Decision (P x)}
    `{forall x, Decision (Q x)} (l : list A) :
  filter P (filter Q l) = filter Q (filter P l).
Proof.
  rewrite !list_filter_filter. apply list_filter_iff. intros x. tauto.
Qed.

Lemma filter_none {A} (P : A -> Prop) `{forall x, Decision (P x)} (l : list A) :
  (forall x, x ∈ l -> ~ P x) -> filter P l = [].
Proof.
  induction l as [|a l IH]; intros Hl; [reflexivity|].
  rewrite filter_cons_False by (apply Hl, elem_of_cons; now left).
  apply IH. intros x Hx. apply Hl, elem_of_cons. now right.
Qed.

(** The validations of [u] among what fired timers do: the texts of the
    objects of the timers set for [u]. *)
Lemma validations_fireActions (u : str) (s : Server) (l : list Timer) :
  wf s -> (forall tm, tm ∈ l -> tm ∈ timers s) ->
  validations u (flat_map (fireActions s) l)
  = flat_map (fun tm => match objects s !! tm_document tm with
                        | Some document => [text document]
                        | None => []
                        end)
             (filter (fun tm => tm_uri tm = u) l).
Proof.
  intros [W1 W2 W3]. induction l as [|tm l IH]; intros Hl; [reflexivity|].
  cbn [flat_map]. rewrite validations_app, IH
    by (intros tm' Htm'; apply Hl, elem_of_cons; now right).
  destruct (W2 tm) as (_ & _ & _ & D); [apply Hl, elem_of_cons; now left|].
  unfold fireActions at 1.
  destruct (objects s !! tm_document tm) as [document|] eqn:E.
  - specialize (D document eq_refl). cbn [validations].
    destruct (decide (tm_uri tm = u)) as [Hu|Hu].
    + rewrite filter_cons_True by assumption. cbn [flat_map]. rewrite E.
      rewrite decide_True by congruence. reflexivity.
    + rewrite filter_cons_False by assumption.
      rewrite decide_False by congruence. reflexivity.
  - cbn [validations app].
    destruct (decide (tm_uri tm = u)) as [Hu|Hu].
    + rewrite filter_cons_True by assumption. cbn [flat_map]. now rewrite E.
    + now rewrite filter_cons_False by assumption.
Qed.

(** In a burst, time passing validates [u] once the quiet period after
    the last change is over, and not before. *)
Lemma burst_advance (u : str) (d : nat) (t : Z) (content : str)
    (base : list str) (s : Server) (t' : Z) :
  inBurst u d t content base s ->
  let s' := advance t' s in
  wf s' /\ synced s' = synced s /\ objects s' = objects s
  /\ now s' = Z.max t' t
  /\ validations u (trace s')
     = base ++ (if decide (t + quietPeriod <= Z.max t' t) then [content] else []).
Proof.
  intros [W Hs Ho Hn (tm & Htm & Hdue & Hdoc) Hb] s'.
  destruct (advance_spec t' s) as (Htr & _ & _ & Ho' & Hs' & Hn' & _).
  cbv zeta in *. fold s' in Htr, Ho', Hs', Hn'. rewrite Hn in *.
  split; [now apply wf_advance|]. repeat split; try assumption.
  rewrite Htr, validations_app, Hb. f_equal.
  rewrite validations_fireActions;
    [|assumption|intros x Hx; now apply list_elem_of_filter in Hx as [_ Hx]].
  rewrite filter_comm. fold (timersOf u s). rewrite Htm.
  destruct (decide (t + quietPeriod <= Z.max t' t)) as [Hle|Hgt].
  - rewrite filter_cons_True by lia. rewrite filter_nil. cbn [flat_map].
    rewrite Hdoc, Ho. reflexivity.
  - rewrite filter_cons_False by lia. reflexivity.
Qed.

(** The handler of a change leaves exactly one timer for the URI of the
    document: the one it sets. *)
Lemma onDidChangeContent_timers (object : nat) (document : TextDocument)
    (s : Server) :
  wf s ->
  timersOf (uri document) (onDidChangeContent object document s)
  = [ {| tm_id := nextId s; tm_due := now s + quietPeriod;
         tm_uri := uri document; tm_document := object |} ].
Proof.
  intros W.
  destruct (timers_after_clear (uri document) s W)
    as (Hin & _ & _ & _ & _ & Hn & Hnow & _).
  unfold onDidChangeContent, timersOf. cbv zeta in *.
  set (s1 := match validationTimers s !! uri document with
             | Some existingTimer => clearTimeout existingTimer s
             | None => s
             end) in *.
  cbn [timers set_validationTimers set_timers]. rewrite filter_app.
  rewrite (filter_none _ (timers s1))
    by (intros tm Htm; now destruct (Hin tm Htm)).
  rewrite filter_cons_True by reflexivity.
  now rewrite filter_nil, Hn, Hnow.
Qed.

(** An open leaves exactly one timer for the URI of the document, due
    one quiet period later. *)
Lemma open_timer (u content : str) (s : Server) :
  wf s ->
  exists tm, timersOf u (handle (DidOpenTextDocument u content) s) = [tm]
             /\ tm_due tm = now s + quietPeriod.
Proof.
  intros W. cbn [handle].
  pose proof (wf_opening u content s W) as W'.
  pose proof (onDidChangeContent_timers (nextId s) {| uri := u; text := content |}
                _ W') as Ht.
  cbn [uri] in Ht. rewrite Ht. eexists. split; [reflexivity|]. cbn [tm_due].
  match goal with |- now (onDidOpen ?d ?x) + _ = _ =>
    destruct (onDidOpen_frame d x) as (-> & _)
  end.
  reflexivity.
Qed.

Lemma wf_runEvents (events : list (Z * Event)) :
  forall s, wf s -> wf (runEvents events s).
Proof.
  induction events as [|te events IH]; intros s W; [exact W|].
  cbn [runEvents fold_left]. apply IH. unfold step.
  now apply wf_handle, wf_advance.
Qed.

(** A change of an open document [u] leaves exactly one timer for [u],
    due one quiet period later, and validates nothing. *)
Lemma burst_change (u : str) (d : nat) (content : str) (s : Server) :
  wf s -> synced s !! u = Some d ->
  inBurst u d (now s) content (validations u (trace s))
    (handle (DidChangeTextDocument u content) s).
Proof.
  intros W Hs. pose proof W as [W1 W2 W3].
  destruct (W3 u d Hs) as (Hlt & old & Ho & Hu).
  pose proof (wf_handle (DidChangeTextDocument u content) s W) as W'.
  cbn [handle] in *. rewrite Hs, Ho in *.
  set (document := {| uri := uri old; text := content |}) in *.
  set (s0 := set_objects (<[d := document]> (objects s)) s) in *.
  assert (W0 : wf s0).
  { split; cbn.
    - assumption.
    - intros tm Htm. destruct (W2 tm Htm) as (A & B & C & D).
      repeat split; try assumption.
      intros doc. destruct (decide (tm_document tm = d)) as [Hd|Hd].
      + rewrite Hd, lookup_insert_eq. intros [= <-]. cbn. apply D. now rewrite Hd.
      + rewrite lookup_insert_ne by congruence. apply D.
    - intros u' object' Hu'. destruct (W3 u' object' Hu') as (A & doc & B & C).
      split; [assumption|].
      destruct (decide (object' = d)) as [->|Hd].
      + rewrite lookup_insert_eq. eexists; split; [reflexivity|]. cbn. congruence.
      + rewrite lookup_insert_ne by congruence. eauto. }
  destruct (onDidChangeContent_frame d document s0) as (Htr & _ & Ho1 & Hs1 & Hn1).
  pose proof (onDidChangeContent_timers d document s0 W0) as Ht.
  assert (Hdu : uri document = u) by exact Hu. rewrite Hdu in Ht.
  split.
  - exact W'.
  - rewrite Hs1. exact Hs.
  - rewrite Ho1. cbn. rewrite lookup_insert_eq. subst document. now rewrite Hu.
  - exact Hn1.
  - eexists. split; [exact Ht|]. split; reflexivity.
  - now rewrite Htr.
Qed.

(** Through a burst of changes the server stays in a burst state, and
    the validations of [u] stay what they were. *)
Lemma burst_run (u : str) (d : nat) (base : list str) (more : list (Z * str)) :
  forall (s : Server) (t : Z) (content : str),
    inBurst u d t content base s ->
    withinQuietPeriod t more ->
    exists final,
      last ((t, content) :: more) = Some final
      /\ inBurst u d (fst final) (snd final) base
           (runEvents (burstEvents u more) s).
Proof.
  induction more as [|[t' content'] more IH]; intros s t content B Hq.
  - exists (t, content). split; [reflexivity|exact B].
  - cbn [withinQuietPeriod fst] in Hq. destruct Hq as [Ht Hq].
    destruct (burst_advance u d t content base s t' B) as (W & Hs & Ho & Hn & Hv).
    cbv zeta in *.
    rewrite Z.max_l in Hn, Hv by lia. rewrite decide_False, app_nil_r in Hv by lia.
    assert (Hsy : synced (advance t' s) !! u = Some d)
      by (rewrite Hs; apply (burst_synced _ _ _ _ _ _ B)).
    pose proof (burst_change u d content' (advance t' s) W Hsy) as B'.
    rewrite Hn, Hv in B'.
    destruct (IH _ _ _ B' Hq) as (final & Hlast & Bf).
    exists final. split; [exact Hlast|exact Bf].
Qed.

(** C3.  A change of an open document cancels the timer pending for its
    URI and sets a new one, due one quiet period (1000 ms) later.  For
    every burst of changes of one document, each less than the quiet
    period after the one before, no validation of the document is called
    until the quiet period after the last change is over, and then
    exactly one is called, with the text the last change left: the texts
    in between are never validated. *)
Theorem C3_debounce_validates_last_text_once :
  forall (s : Server) (u : str) (first : Z * str) (more : list (Z * str))
         (final : Z * str),
    wf s ->
    is_Some (synced s !! u) ->
    now s <= fst first ->
    withinQuietPeriod (fst first) more ->
    last (first :: more) = Some final ->
    let begun := advance (fst first) s in
    let settled := runEvents (burstEvents u (first :: more)) s in
    quietPeriod = 1000
    /\ (forall content,
          exists tm, timersOf u (handle (DidChangeTextDocument u content) s) = [tm]
                     /\ tm_due tm = now s + quietPeriod)
    /\ (exists tm, timersOf u settled = [tm]
                   /\ tm_due tm = fst final + quietPeriod)
    /\ (forall t, t < fst final + quietPeriod ->
          validations u (trace (advance t settled))
          = validations u (trace begun))
    /\ (forall t, fst final + quietPeriod <= t ->
          validations u (trace (advance t settled))
          = validations u (trace begun) ++ [snd final]).
Proof.
  intros s u [t1 content1] more final W [d Hd] Hnow Hq Hlast begun settled.
  cbn [fst] in *.
  assert (Wb : wf begun) by now apply wf_advance.
  destruct (advance_spec t1 s) as (_ & _ & _ & _ & Hs & Hn & _).
  cbv zeta in Hs, Hn. fold begun in Hs, Hn. rewrite Z.max_l in Hn by lia.
  assert (Hsy : synced begun !! u = Some d) by now rewrite Hs.
  pose proof (burst_change u d content1 begun Wb Hsy) as B. rewrite Hn in B.
  destruct (burst_run u d _ more _ _ _ B Hq) as (final' & Hlast' & Bf).
  rewrite Hlast in Hlast'. injection Hlast' as <-.
  change (runEvents (burstEvents u more)
            (handle (DidChangeTextDocument u content1) begun)) with settled in Bf.
  split; [reflexivity|]. split; [|split; [|split]].
  - intros content.
    destruct (burst_timer _ _ _ _ _ _ (burst_change u d content s W Hd))
      as (tm & Htm & Hdue & _).
    eauto.
  - destruct (burst_timer _ _ _ _ _ _ Bf) as (tm & Htm & Hdue & _). eauto.
  - intros t Ht.
    destruct (burst_advance u d _ _ _ settled t Bf) as (_ & _ & _ & _ & Hv).
    cbv zeta in Hv. rewrite Hv, decide_False, app_nil_r by (unfold quietPeriod in *; lia).
    reflexivity.
  - intros t Ht.
    destruct (burst_advance u d _ _ _ settled t Bf) as (_ & _ & _ & _ & Hv).
    cbv zeta in Hv. rewrite Hv, decide_True by lia. reflexivity.
Qed.

Lemma C3_debounce_witness :
  let changes := [(120, lit "xy"); (900, lit "xyz")] in
  let opened := step started (0, DidOpenTextDocument aUri (lit "x")) in
  let settled := runEvents (burstEvents aUri ((100, lit "x1") :: changes)) opened in
  withinQuietPeriod 100 changes
  /\ validations aUri (trace (advance 100 opened)) = [lit "x"]
  /\ validations aUri (trace (advance 1899 settled)) = [lit "x"]
  /\ validations aUri (trace (advance 1900 settled)) = [lit "x"; lit "xyz"].
Proof.
  intros changes opened settled.
  assert (Hq : withinQuietPeriod 100 changes) by (cbn; unfold quietPeriod; lia).
  assert (W : wf opened).
  { apply reachable_wf. unfold opened, started, runEvents. cbn [fold_left].
    repeat apply reachable_step. apply reachable_initial. }
  assert (Hopen : is_Some (synced opened !! aUri))
    by (exists 0%nat; reflexivity).
  assert (Hnow : now opened <= 100) by (apply Z.leb_le; reflexivity).
  destruct (C3_debounce_validates_last_text_once opened aUri (100, lit "x1")
              changes (900, lit "xyz") W Hopen Hnow Hq eq_refl)
    as (_ & _ & _ & Hbefore & Hafter).
  assert (Hb : validations aUri (trace (advance 100 opened)) = [lit "x"])
    by reflexivity.
  split; [exact Hq|]. split; [exact Hb|]. split.
  - rewrite <- Hb. apply Hbefore. cbn. unfold quietPeriod. lia.
  - change [lit "x"; lit "xyz"] with ([lit "x"] ++ [lit "xyz"]).
    rewrite <- Hb. apply Hafter. cbn. unfold quietPeriod. lia.
Defined.

Lemma validatedDocuments_handle (u : str) (e : Event) (s : Server) :
  u ∈ validatedDocuments s -> u ∈ validatedDocuments (handle e s).
Proof.
  intros Hu.
  destruct e as [configuration|found|v content|v content|v|task answer|task env];
    cbn [handle].
  - exact Hu.
  - unfold onInitialized. now destruct found as [[|c path]|].
  - destruct (onDidChangeContent_frame (nextId s) {| uri := v; text := content |}
                (onDidOpen {| uri := v; text := content |}
                   (set_synced (<[v := nextId s]> (synced s))
                      (set_objects (<[nextId s := {| uri := v; text := content |}]>
                                      (objects s))
                         (set_nextId (S (nextId s)) s)))))
      as (_ & -> & _).
    rewrite onDidOpen_validated. cbn. set_solver.
  - destruct (synced s !! v) as [object|]; [|assumption].
    destruct (objects s !! object) as [old|]; [|assumption].
    now destruct (onDidChangeContent_frame object {| uri := uri old; text := content |}
                    (set_objects (<[object := {| uri := uri old; text := content |}]>
                                    (objects s)) s))
      as (_ & -> & _).
  - destruct (synced s !! v) as [object|]; [|assumption].
    destruct (objects s !! object) as [document|]; [|assumption].
    now rewrite onDidClose_validated.
  - unfold validate_settings.
    destruct (tasks s !! task) as [[v [content promise|path content]]|]; try assumption.
    cbn. now destruct (voltaCompilerPath s) as [[|c path]|].
  - unfold validate_compiled.
    destruct (tasks s !! task) as [[v [content promise|path content]]|]; try assumption.
    destruct (runVoltaCompiler env path content v) as [result| |]; try assumption.
    now destruct (success result).
Qed.

(** The marker of a document is never taken out of
    [validatedDocuments]. *)
Lemma validatedDocuments_runEvents (u : str) (events : list (Z * Event)) :
  forall s, u ∈ validatedDocuments s -> u ∈ validatedDocuments (runEvents events s).
Proof.
  induction events as [|te events IH]; intros s Hu; [exact Hu|].
  cbn [runEvents fold_left]. apply IH. unfold step.
  apply validatedDocuments_handle.
  destruct (advance_spec (fst te) s) as (_ & _ & _ & _ & _ & _ & Hd & _).
  cbv zeta in Hd. now rewrite Hd.
Qed.

Lemma validatedDocuments_open (u content : str) (s : Server) :
  u ∈ validatedDocuments (handle (DidOpenTextDocument u content) s).
Proof.
  cbn [handle].
  destruct (onDidChangeContent_frame (nextId s) {| uri := u; text := content |}
              (onDidOpen {| uri := u; text := content |}
                 (set_synced (<[u := nextId s]> (synced s))
                    (set_objects (<[nextId s := {| uri := u; text := content |}]>
                                    (objects s))
                       (set_nextId (S (nextId s)) s)))))
    as (_ & -> & _).
  rewrite onDidOpen_validated. cbn. set_solver.
Qed.

(** Opening a document that has its marker calls no validation: nothing
    is added to the trace. *)
Lemma open_marked_trace (u content : str) (s : Server) :
  u ∈ validatedDocuments s ->
  trace (handle (DidOpenTextDocument u content) s) = trace s.
Proof.
  intros Hu. cbn [handle].
  destruct (onDidChangeContent_frame (nextId s) {| uri := u; text := content |}
              (onDidOpen {| uri := u; text := content |}
                 (set_synced (<[u := nextId s]> (synced s))
                    (set_objects (<[nextId s := {| uri := u; text := content |}]>
                                    (objects s))
                       (set_nextId (S (nextId s)) s)))))
    as (-> & _).
  unfold onDidOpen. cbn [uri validatedDocuments set_synced set_objects set_nextId].
  now rewrite decide_True by exact Hu.
Qed.

(** C5, as amended.  Closing a document cancels the validation timer
    pending for its URI and discards its cached settings; the marker
    [has been validated once] of the document is kept, and nothing ever
    removes it.  So a document that was opened, then closed, and is
    opened again later is not treated as a first open: the handler of
    the open calls no validation (the content change that comes with the
    open sets the timer of the debounce). *)
Theorem C5_close_keeps_validated_marker :
  forall (s : Server) (u : str),
    wf s ->
    is_Some (synced s !! u) ->
    let closed := handle (DidCloseTextDocument u) s in
    (validationTimers closed !! u = None
     /\ timersOf u closed = []
     /\ documentSettings closed !! u = None
     /\ synced closed !! u = None
     /\ validatedDocuments closed = validatedDocuments s)
    /\ (forall (s0 : Server) (content1 content2 : str)
               (events : list (Z * Event)),
          wf s0 ->
          let opened := handle (DidOpenTextDocument u content1) s0 in
          let later := runEvents events opened in
          let reopened := handle (DidOpenTextDocument u content2) later in
          u ∈ validatedDocuments later
          /\ trace reopened = trace later
          /\ validations u (trace reopened) = validations u (trace later)
          /\ exists tm, timersOf u reopened = [tm]
                        /\ tm_due tm = now later + quietPeriod).
Proof.
  intros s u W [object Hs] closed. split.
  - pose proof W as [W1 W2 W3].
    destruct (W3 u object Hs) as (_ & document & Ho & Hu).
    subst closed. cbn [handle]. rewrite Hs, Ho.
    unfold onDidClose. rewrite Hu.
    cbn [validationTimers set_documentSettings set_synced].
    destruct (validationTimers s !! u) as [timer|] eqn:E; cbn.
    + rewrite !lookup_delete_eq. repeat split.
      apply filter_none. intros tm [Hid Htm]%list_elem_of_filter Htu.
      destruct (W2 tm Htm) as (A & _). rewrite Htu, E in A.
      injection A as A. congruence.
    + rewrite !lookup_delete_eq. repeat split; [assumption|].
      apply filter_none. intros tm Htm Htu.
      destruct (W2 tm Htm) as (A & _). rewrite Htu, E in A. discriminate.
  - intros s0 content1 content2 events W0 opened later reopened.
    assert (Hm : u ∈ validatedDocuments later).
    { apply validatedDocuments_runEvents, validatedDocuments_open. }
    assert (Ht : trace reopened = trace later) by now apply open_marked_trace.
    assert (Wl : wf later) by now apply wf_runEvents, wf_handle.
    split; [exact Hm|]. split; [exact Ht|]. split; [now rewrite Ht|].
    now apply open_timer.
Qed.

Lemma C5_close_witness :
  let opened := handle (DidOpenTextDocument aUri (lit "x := 1")) started in
  let later := runEvents [(5000, DidCloseTextDocument aUri)] opened in
  let reopened := handle (DidOpenTextDocument aUri (lit "x := 1")) later in
  is_Some (synced opened !! aUri)
  /\ length (timersOf aUri opened) = 1%nat
  /\ timersOf aUri (handle (DidCloseTextDocument aUri) opened) = []
  /\ validatedDocuments (handle (DidCloseTextDocument aUri) opened)
     = validatedDocuments opened
  /\ trace reopened = trace later.
Proof.
  intros opened later reopened.
  assert (Ws : wf started).
  { apply reachable_wf. unfold started, runEvents. cbn [fold_left].
    repeat apply reachable_step. apply reachable_initial. }
  assert (W : wf opened) by now apply wf_handle.
  assert (Hopen : is_Some (synced opened !! aUri))
    by (exists 0%nat; reflexivity).
  destruct (C5_close_keeps_validated_marker opened aUri W Hopen)
    as ((_ & Ht & _ & _ & Hv) & Hre).
  destruct (Hre started (lit "x := 1") (lit "x := 1")
              [(5000, DidCloseTextDocument aUri)] Ws) as (_ & Htr & _).
  split; [exact Hopen|]. split; [reflexivity|].
  split; [exact Ht|]. split; [exact Hv|exact Htr].
Defined.

(** * Further verified behaviour of the sources *)

(** ** The diagnostic text parser, line by line *)

Lemma split_nonempty (sep : ascii) (s : str) : split sep s <> [].
Proof.
  destruct s as [|c s]; cbn [split]; [discriminate|].
  destruct (chr_eqb c sep); [discriminate|].
  destruct (split sep s); discriminate.
Qed.

Lemma split_app_sep (sep : ascii) (a b : str) :
  split sep (a ++ sep :: b) = split sep a ++ split sep b.
Proof.
  induction a as [|c a IH]; cbn [app split].
  - unfold chr_eqb. now rewrite Ascii.eqb_refl.
  - destruct (chr_eqb c sep); [now rewrite IH|].
    rewrite IH. pose proof (split_nonempty sep a) as Hne.
    destruct (split sep a) as [|l ls]; [congruence|reflexivity].
Qed.

(** X1.  The parser works line by line and keeps the order of the lines:
    the diagnostics of two texts joined by a line feed are those of the
    first followed by those of the second. *)
Theorem X1_parser_is_line_local (a b : str) :
  parseCompilerErrors (a ++ LF :: b)
  = parseCompilerErrors a ++ parseCompilerErrors b.
Proof.
  rewrite !parseCompilerErrors_lines, split_app_sep. apply flat_map_app.
Qed.

Lemma dropWhile_prefix_fixed p (a b : str) :
  a <> [] -> dropWhile p (a ++ b) = a ++ b -> dropWhile p a = a.
Proof.
  intros Ha H. destruct a as [|c a]; [congruence|].
  cbn [app dropWhile] in *. destruct (p c); [|reflexivity].
  exfalso.
  assert (Hlen : forall s : str, (length (dropWhile p s) <= length s)%nat).
  { clear. induction s as [|x s IH]; cbn; [lia|]. destruct (p x); cbn; lia. }
  specialize (Hlen (a ++ b)). rewrite H in Hlen. cbn in Hlen. lia.
Qed.

(** What [trim] returns neither starts nor ends with white space. *)
Lemma trim_fixed (s : str) :
  dropWhile isSpace (trim s) = trim s
  /\ dropWhile isSpace (rev (trim s)) = rev (trim s).
Proof.
  unfold trim. set (y := dropWhile isSpace s).
  assert (Hy : dropWhile isSpace y = y) by apply dropWhile_idem.
  set (z := dropWhile isSpace (rev y)).
  assert (Hz : dropWhile isSpace z = z) by apply dropWhile_idem.
  split; [|now rewrite rev_involutive].
  destruct z as [|c z'] eqn:Ez; [reflexivity|].
  pose proof (takeWhile_dropWhile isSpace (rev y)) as Hsplit. fold z in Hsplit.
  rewrite Ez in Hsplit.
  assert (Hrev : y = rev (c :: z') ++ rev (takeWhile isSpace (rev y))).
  { rewrite <- rev_app_distr, Hsplit. now rewrite rev_involutive. }
  apply (dropWhile_prefix_fixed isSpace _ (rev (takeWhile isSpace (rev y)))).
  - cbn. now destruct (rev z').
  - now rewrite <- Hrev.
Qed.

(** X2.  The message of every diagnostic of the parser is trimmed: it
    neither starts nor ends with white space. *)
Theorem X2_parser_messages_are_trimmed (stderr : str) :
  Forall (fun d => dropWhile isSpace (message d) = message d
                   /\ dropWhile isSpace (rev (message d)) = rev (message d))
         (parseCompilerErrors stderr).
Proof.
  rewrite parseCompilerErrors_lines.
  induction (split LF stderr) as [|l lines IH]; cbn [flat_map]; [constructor|].
  apply Forall_app; split; [|exact IH].
  unfold lineDiagnostics. destruct (exec errorRegex l) as [m|]; [|constructor].
  constructor; [|constructor]. apply trim_fixed.
Qed.

Lemma digitVal_nonneg (c : ascii) : isDigit c = true -> 0 <= digitVal c <= 9.
Proof.
  unfold isDigit, digitVal. intros H. apply andb_prop in H as [H1 H2].
  apply Nat.leb_le in H1, H2. lia.
Qed.

Lemma decimalValue_nonneg (s : str) :
  Forall (fun c => isDigit c = true) s -> 0 <= decimalValue s.
Proof.
  induction 1 as [|c s Hc _ IH]; cbn [decimalValue]; [lia|].
  pose proof (digitVal_nonneg c Hc).
  assert (0 <= 10 ^ Z.of_nat (length s)) by (apply Z.pow_nonneg; lia).
  nia.
Qed.

Lemma parseInt_numeral_nonneg (s : str) : numeral s -> 0 <= parseInt s.
Proof.
  intros N. rewrite parseInt_numeral by assumption.
  apply decimalValue_nonneg, N.
Qed.

(** X3.  Whatever the text, the positions of the diagnostics of the
    parser are bounded below: the line is -1 at least (a line numbered 0
    by the compiler gives -1), the start character is 0 at least, and the
    end character is 0 at least. *)
Theorem X3_parser_positions_bounded_below (stderr : str) :
  Forall (fun d => -1 <= line (start (range d))
                   /\ 0 <= character (start (range d))
                   /\ 0 <= character (end_ (range d)))
         (parseCompilerErrors stderr).
Proof.
  rewrite parseCompilerErrors_lines.
  induction (split LF stderr) as [|l lines IH]; cbn [flat_map]; [constructor|].
  apply Forall_app; split; [|exact IH].
  unfold lineDiagnostics. destruct (exec errorRegex l) as [m|] eqn:E; [|constructor].
  constructor; [|constructor].
  destruct (errorRegex_captures l m E) as (N1 & N2 & N3 & _).
  apply parseInt_numeral_nonneg in N1, N2.
  unfold diagnosticOfMatch. cbn [line character start end_ range].
  split; [lia|]. split; [lia|].
  destruct N3 as [-> | (c2 & -> & N3)]; [lia|].
  destruct c2 as [|c c2]; [lia|]. now apply parseInt_numeral_nonneg.
Qed.

Lemma matchHere_errorRegex_other (c : ascii) (s : str) :
  c <> ":"%char -> matchHere errorRegex (c :: s) = None.
Proof.
  intros Hc. unfold matchHere, errorRegex. rewrite run_Seq. cbn [run].
  destruct (chr_eqb c ":") eqn:E; [|reflexivity].
  apply chr_eqb_eq in E. contradiction.
Qed.

Lemma search_groups_index (r : regex) (s : str) (i j : nat) :
  option_map groups (search r i s) = option_map groups (search r j s).
Proof.
  revert i j; induction s as [|c s IH]; intros i j; cbn [search].
  - now destruct (matchHere r []) as [[s' caps]|].
  - destruct (matchHere r (c :: s)) as [[s' caps]|]; [reflexivity|apply IH].
Qed.

Lemma search_errorRegex_prefix (prefix l : str) (i : nat) :
  Forall (fun c => c <> ":"%char) prefix ->
  search errorRegex i (prefix ++ l) = search errorRegex (i + length prefix) l.
Proof.
  intros H; revert i; induction H as [|c prefix Hc _ IH]; intros i.
  - cbn. now rewrite Nat.add_0_r.
  - cbn [app search length]. rewrite matchHere_errorRegex_other by assumption.
    rewrite IH. f_equal. lia.
Qed.

Lemma lineDiagnostics_groups (l : str) :
  lineDiagnostics l = diagnosticsOfGroups (option_map groups (exec errorRegex l)).
Proof.
  unfold lineDiagnostics. now destruct (exec errorRegex l) as [[i t caps]|].
Qed.

Lemma lineDiagnostics_prefix (prefix l : str) :
  Forall (fun c => c <> ":"%char) prefix ->
  lineDiagnostics (prefix ++ l) = lineDiagnostics l.
Proof.
  intros H. rewrite !lineDiagnostics_groups. f_equal. unfold exec.
  rewrite (search_errorRegex_prefix prefix l 0 H).
  apply search_groups_index.
Qed.

Lemma split_prefix (sep : ascii) (prefix s : str) :
  Forall (fun c => c <> sep) prefix ->
  split sep (prefix ++ s)
  = match split sep s with
    | l :: ls => (prefix ++ l) :: ls
    | [] => [prefix]
    end.
Proof.
  induction 1 as [|c prefix Hc _ IH]; cbn [app].
  - pose proof (split_nonempty sep s). now destruct (split sep s).
  - cbn [split]. destruct (chr_eqb c sep) eqn:E.
    + apply chr_eqb_eq in E. contradiction.
    + rewrite IH. now destruct (split sep s).
Qed.

(** X4.  The expression is not anchored: what stands on a line before
    its first colon, a file name for one, is passed over, and the line
    gives the diagnostics of the rest; so does a text that begins with
    such a prefix. *)
Theorem X4_text_before_first_colon_is_ignored (prefix l : str) :
  Forall (fun c => c <> ":"%char) prefix ->
  lineDiagnostics (prefix ++ l) = lineDiagnostics l
  /\ (Forall (fun c => c <> LF) prefix ->
      parseCompilerErrors (prefix ++ l) = parseCompilerErrors l).
Proof.
  intros H. split; [now apply lineDiagnostics_prefix|].
  intros Hlf. rewrite !parseCompilerErrors_lines, split_prefix by assumption.
  pose proof (split_nonempty LF l).
  destruct (split LF l) as [|hd tl]; [congruence|].
  cbn [flat_map]. now rewrite lineDiagnostics_prefix.
Qed.

Lemma X4_text_before_first_colon_witness :
  Forall (fun c => c <> ":"%char) (lit "main.vlt")
  /\ Forall (fun c => c <> LF) (lit "main.vlt")
  /\ parseCompilerErrors (lit "main.vlt" ++ lit ":3:5-7: error: Type mismatch")
     = parseCompilerErrors (lit ":3:5-7: error: Type mismatch").
Proof.
  assert (H : Forall (fun c => c <> ":"%char) (lit "main.vlt"))
    by (repeat constructor; discriminate).
  assert (H' : Forall (fun c => c <> LF) (lit "main.vlt"))
    by (repeat constructor; discriminate).
  split; [exact H|]. split; [exact H'|].
  exact (proj2 (X4_text_before_first_colon_is_ignored (lit "main.vlt")
                  (lit ":3:5-7: error: Type mismatch") H) H').
Defined.

Lemma split_Forall (P : ascii -> Prop) (sep : ascii) (s : str) :
  Forall P s -> Forall (Forall P) (split sep s).
Proof.
  induction 1 as [|c s Hc Hs IH]; cbn [split]; [repeat constructor|].
  destruct (chr_eqb c sep); [constructor; [constructor|exact IH]|].
  destruct (split sep s) as [|l ls]; [repeat constructor; assumption|].
  inversion IH; subst. constructor; [now constructor|assumption].
Qed.

(** X5.  A text without any colon (blank lines, banners) gives no
    diagnostic at all. *)
Theorem X5_text_without_colon_gives_no_diagnostic (stderr : str) :
  Forall (fun c => c <> ":"%char) stderr ->
  parseCompilerErrors stderr = [].
Proof.
  intros H. rewrite parseCompilerErrors_lines.
  pose proof (split_Forall _ LF stderr H) as Hl.
  induction Hl as [|l lines Hline _ IH]; [reflexivity|].
  cbn [flat_map]. rewrite IH, app_nil_r.
  rewrite <- (app_nil_r l).
  now rewrite (lineDiagnostics_prefix l [] Hline).
Qed.

Lemma X5_text_without_colon_witness :
  Forall (fun c => c <> ":"%char) (lit "Volta 0.1" ++ LF :: lit "compiling")
  /\ parseCompilerErrors (lit "Volta 0.1" ++ LF :: lit "compiling") = [].
Proof.
  assert (H : Forall (fun c => c <> ":"%char)
                (lit "Volta 0.1" ++ LF :: lit "compiling"))
    by (repeat constructor; discriminate).
  split; [exact H|].
  exact (X5_text_without_colon_gives_no_diagnostic _ H).
Defined.

(** ** The compiler bridge *)

Lemma compileFile_on_output (output : list ProcEvent) (st : CompileState) :
  Forall (fun e => CompilerInterface.isOutput e = true) output ->
  fold_left compileFile_on output st
  = {| cf_stderr := cf_stderr st ++ stderrOf output;
       cf_diagnostics := cf_diagnostics st;
       cf_resolved := cf_resolved st |}.
Proof.
  intros H; revert st; induction H as [|e output He _ IH]; intros st;
    cbn [fold_left stderrOf].
  - rewrite app_nil_r. now destruct st.
  - destruct e as [chunk|chunk| |]; try discriminate He;
      rewrite IH; cbn [compileFile_on cf_stderr cf_diagnostics cf_resolved].
    + reflexivity.
    + now rewrite app_assoc.
Qed.

(** X6.  For a compiler that wrote its output and ended, [compileFile]
    gives the diagnostics of all that was written to stderr, however it
    was cut into chunks; what was written to stdout and the exit code
    play no part. *)
Theorem X6_compileFile_reads_all_of_stderr (output : list ProcEvent) (exitCode : Z) :
  Forall (fun e => CompilerInterface.isOutput e = true) output ->
  compileFile (output ++ [ProcClose exitCode])
  = Some (parseCompilerErrors (stderrOf output)).
Proof.
  intros H. unfold compileFile.
  rewrite fold_left_app, (compileFile_on_output _ _ H). reflexivity.
Qed.

Lemma X6_compileFile_witness :
  let output := [StderrData (lit ":3:5-7: err"); StdoutData (lit "hello");
                 StderrData (lit "or: Type mismatch")] in
  Forall (fun e => CompilerInterface.isOutput e = true) output
  /\ compileFile (output ++ [ProcClose 1])
     = Some (parseCompilerErrors (lit ":3:5-7: error: Type mismatch")).
Proof.
  intros output.
  assert (H : Forall (fun e => CompilerInterface.isOutput e = true) output)
    by (repeat constructor).
  split; [exact H|].
  exact (X6_compileFile_reads_all_of_stderr output 1 H).
Defined.

Lemma compileFile_resolved (events : list ProcEvent) (st : CompileState) :
  cf_resolved (fold_left compileFile_on events st)
  = cf_resolved st || existsb isEnd events.
Proof.
  revert st; induction events as [|e events IH]; intros st; cbn [fold_left existsb].
  - now rewrite orb_false_r.
  - rewrite IH. destruct e; cbn; try reflexivity.
    all: now rewrite orb_true_r.
Qed.

(** X7.  The promise of [compileFile] is settled exactly when the child
    process has emitted ['close'] or ['error']: output alone never
    settles it. *)
Theorem X7_compileFile_settles_on_close_or_error (events : list ProcEvent) :
  isSettled (compileFile events) = existsb isEnd events.
Proof.
  unfold compileFile. pose proof (compileFile_resolved events compileFile_init) as H.
  cbn [compileFile_init cf_resolved orb] in H.
  destruct (cf_resolved (fold_left compileFile_on events compileFile_init));
    now rewrite <- H.
Qed.

(** X8.  A symbol query whose process wrote its output and ended is
    answered with what [JSON.parse] makes of all that was written to
    stdout, however it was cut into chunks; stderr, the exit code and
    whatever the process emits after ['close'] play no part. *)
Theorem X8_query_answers_parsed_stdout :
  forall (JSON_parse : str -> CompilerInterface.Parsed)
         (spawn : str -> list str -> list ProcEvent)
         (compilerPath filePath : str) (line column : nat)
         (output rest : list ProcEvent) (exitCode : Z)
         (v : CompilerInterface.CompilerSymbolInfo),
    spawn compilerPath
      [lit "--lsp-info"; filePath; toString line; toString column]
    = output ++ ProcClose exitCode :: rest ->
    Forall (fun e => CompilerInterface.isOutput e = true) output ->
    JSON_parse (CompilerInterface.stdoutOf output) = CompilerInterface.Value v ->
    CompilerInterface.getSymbolInfoFromCompiler JSON_parse spawn
      compilerPath filePath line column
    = Returned v.
Proof.
  intros JSON_parse spawn compilerPath filePath line column output rest
         exitCode v Hp Ho Hv.
  unfold CompilerInterface.getSymbolInfoFromCompiler. rewrite Hp.
  destruct (query_first_settles JSON_parse output rest (ProcClose exitCode) Ho eq_refl)
    as [-> _].
  cbn. now rewrite Hv.
Qed.

Lemma X8_query_answers_witness :
  let spawn := fun (_ : str) (_ : list str) =>
    [StdoutData (lit "1"); StderrData (lit "note"); ProcClose 3; ProcClose 0] in
  CompilerInterface.getSymbolInfoFromCompiler answerParser spawn
    aCompiler (lit "/a.vlt") 1 3
  = Returned (functionInfo (lit "add") [lit "a"; lit "b"]).
Proof.
  intros spawn.
  refine (X8_query_answers_parsed_stdout answerParser spawn aCompiler
            (lit "/a.vlt") 1 3 [StdoutData (lit "1"); StderrData (lit "note")]
            [ProcClose 0] 3 _ _ _ _).
  - reflexivity.
  - repeat constructor.
  - reflexivity.
Defined.

(** ** Validation and publication *)

Lemma published_no_send (v : str) (tr extra : list Action) :
  existsb isSend extra = false -> published v (tr ++ extra) = published v tr.
Proof.
  intros H. rewrite published_app.
  assert (Hn : published v extra = None).
  { induction extra as [|a extra IH]; [reflexivity|].
    cbn [existsb] in H. apply orb_false_elim in H as [Ha Hx].
    cbn [published]. rewrite (IH Hx). now destruct a. }
  now rewrite Hn.
Qed.

Lemma published_send_other (v u : str) (tr : list Action) (ds : list Diagnostic)
    (rest : list Action) :
  u <> v -> existsb isSend rest = false ->
  published v (tr ++ SendDiagnostics u ds :: rest) = published v tr.
Proof.
  intros Hne Hrest. rewrite published_app. cbn [published].
  assert (Hn : published v rest = None).
  { rewrite <- (app_nil_l rest), published_no_send by assumption. reflexivity. }
  now rewrite Hn, decide_False by assumption.
Qed.

Lemma onDidClose_trace (document : TextDocument) (s : Server) :
  trace (onDidClose document s) = trace s
  /\ tasks (onDidClose document s) = tasks s
  /\ voltaCompilerPath (onDidClose document s) = voltaCompilerPath s.
Proof.
  unfold onDidClose. cbn [validationTimers set_documentSettings].
  now destruct (validationTimers s !! uri document).
Qed.

Lemma onDidChangeContent_tasks (object : nat) (document : TextDocument) (s : Server) :
  tasks (onDidChangeContent object document s) = tasks s
  /\ voltaCompilerPath (onDidChangeContent object document s) = voltaCompilerPath s.
Proof.
  unfold onDidChangeContent. now destruct (validationTimers s !! uri document).
Qed.

(** What [validateTextDocument] does to the tasks: one more, waiting for
    the settings. *)
Lemma validateTextDocument_tasks (document : TextDocument) (s : Server) :
  exists id promise,
    tasks (validateTextDocument document s)
    = <[id := {| task_uri := uri document;
                 task_stage := AwaitSettings (text document) promise |}]> (tasks s)
    /\ voltaCompilerPath (validateTextDocument document s) = voltaCompilerPath s.
Proof.
  unfold validateTextDocument.
  pose proof (getDocumentSettings_frame (uri document) s) as F.
  destruct (getDocumentSettings (uri document) s) as [promise s1].
  cbn [snd] in F. destruct F as (_ & Ht & Hp & _).
  exists (nextId s1), promise. cbn. now rewrite Ht, Hp.
Qed.

(** What an event adds to the trace: a [sendDiagnostics] only at the end
    of a compiler run, and then for the document of that validation. *)
Lemma handle_trace (e : Event) (s : Server) :
  exists extra,
    trace (handle e s) = trace s ++ extra
    /\ (existsb isSend extra = false
        \/ exists task env t ds rest,
             e = CompilerRunDone task env /\ tasks s !! task = Some t
             /\ extra = SendDiagnostics (task_uri t) ds :: rest
             /\ existsb isSend rest = false).
Proof.
  destruct e as [configuration|found|u content|u content|u|task answer|task env];
    cbn [handle].
  - exists []. rewrite app_nil_r. auto.
  - unfold onInitialized. destruct found as [[|c path]|]; cbn;
      eexists; rewrite <- ?app_assoc; (split; [reflexivity|]); auto.
  - match goal with |- context [onDidChangeContent ?o ?d ?x] =>
      destruct (onDidChangeContent_frame o d x) as (-> & _)
    end.
    unfold onDidOpen. destruct (decide _).
    + exists []. rewrite app_nil_r. auto.
    + match goal with |- context [validateTextDocument ?d ?x] =>
        destruct (validateTextDocument_frame d x) as (-> & _)
      end.
      eexists. split; [reflexivity|auto].
  - exists []. rewrite app_nil_r. split; [|auto].
    destruct (synced s !! u) as [object|]; [|reflexivity].
    destruct (objects s !! object) as [old|]; [|reflexivity].
    match goal with |- context [onDidChangeContent ?o ?d ?x] =>
      destruct (onDidChangeContent_frame o d x) as (-> & _)
    end.
    reflexivity.
  - exists []. rewrite app_nil_r. split; [|auto].
    destruct (synced s !! u) as [object|]; [|reflexivity].
    destruct (objects s !! object) as [document|]; [|reflexivity].
    now destruct (onDidClose_trace document (set_synced (delete u (synced s)) s))
      as (-> & _).
  - unfold validate_settings.
    destruct (tasks s !! task) as [[u [content promise|path content]]|];
      try solve [exists []; rewrite app_nil_r; auto].
    destruct (voltaCompilerPath (record (ConsoleLog (LogValidating u)) s))
      as [[|c path]|]; cbn;
      eexists; rewrite <- ?app_assoc; (split; [reflexivity|]); auto.
  - unfold validate_compiled.
    destruct (tasks s !! task) as [[u [content promise|path content]]|] eqn:Et;
      try solve [exists []; rewrite app_nil_r; auto].
    destruct (runVoltaCompiler env path content u) as [result|err|].
    + destruct (success result);
        (eexists; split; [cbn; rewrite <- app_assoc; reflexivity|]);
        right; exists task, env; eexists; eexists; eexists;
        (split; [reflexivity|]); (split; [exact Et|]);
        (split; [reflexivity|]); reflexivity.
    + eexists. split; [reflexivity|auto].
    + exists []. rewrite app_nil_r. auto.
Qed.

Lemma advance_trace (t : Z) (s : Server) :
  exists extra, trace (advance t s) = trace s ++ extra
                /\ existsb isSend extra = false.
Proof.
  destruct (advance_spec t s) as (Htr & _). cbv zeta in Htr.
  eexists. split; [exact Htr|]. clear Htr.
  induction (filter _ (timers s)) as [|tm l IH]; [reflexivity|].
  cbn [flat_map]. rewrite existsb_app, IH, orb_false_r.
  unfold fireActions. now destruct (objects s !! tm_document tm).
Qed.

(** X9.  The diagnostics shown for a document change only at the end of
    the compiler run of a validation of that document: no other event,
    nor the passing of time, nor a validation of another document,
    touches them. *)
Theorem X9_diagnostics_change_only_with_own_validation :
  forall (s : Server) (v : str) (t : Z) (e : Event),
    published v (trace (advance t s)) = published v (trace s)
    /\ (~ endsValidationOf v e s ->
        published v (trace (handle e s)) = published v (trace s)).
Proof.
  intros s v t e. split.
  - destruct (advance_trace t s) as (extra & -> & Hx). now apply published_no_send.
  - intros Hnot. destruct (handle_trace e s) as (extra & -> & [Hx|Hsend]).
    + now apply published_no_send.
    + destruct Hsend as (task & env & tk & ds & rest & -> & Ht & -> & Hrest).
      apply published_send_other; [|assumption].
      intros Hu. apply Hnot. cbn. now rewrite Ht.
Qed.

Lemma X9_diagnostics_change_witness :
  ~ endsValidationOf (lit "file:///b.vlt") (CompilerRunDone 4 newOutput) twoInFlight
  /\ published (lit "file:///b.vlt")
       (trace (handle (CompilerRunDone 4 newOutput) twoInFlight))
     = published (lit "file:///b.vlt") (trace twoInFlight).
Proof.
  assert (H : ~ endsValidationOf (lit "file:///b.vlt")
                  (CompilerRunDone 4 newOutput) twoInFlight).
  { assert (E : tasks twoInFlight !! 4%nat
                = Some {| task_uri := aUri;
                          task_stage := AwaitCompiler aCompiler (lit "new") |})
      by reflexivity.
    cbn [endsValidationOf]. rewrite E. cbn. discriminate. }
  split; [exact H|].
  exact (proj2 (X9_diagnostics_change_only_with_own_validation twoInFlight
                  (lit "file:///b.vlt") 0 (CompilerRunDone 4 newOutput)) H).
Defined.

(** X10.  When the scratch file of a validation cannot be written, the
    validation ends with a line in the log: nothing is published, the
    diagnostics shown before stay, and the validation is over. *)
Theorem X10_write_failure_publishes_nothing :
  forall (s : Server) (task : nat) (u path content err : str)
         (events : list ProcEvent),
    tasks s !! task
    = Some {| task_uri := u; task_stage := AwaitCompiler path content |} ->
    let s' := handle (CompilerRunDone task
                        {| writeError := Some err; procEvents := events |}) s in
    trace s' = trace s ++ [ConsoleLog (LogValidationError err)]
    /\ (forall v, published v (trace s') = published v (trace s))
    /\ tasks s' !! task = None.
Proof.
  intros s task u path content err events Ht s'. subst s'.
  cbn [handle]. unfold validate_compiled. rewrite Ht.
  cbn [runVoltaCompiler writeError trace tasks set_tasks record set_trace].
  split; [reflexivity|]. split; [|apply lookup_delete_eq].
  intros v. now apply published_no_send.
Qed.

Lemma X10_write_failure_witness :
  let s' := handle (CompilerRunDone 1 {| writeError := Some (lit "ENOSPC");
                                         procEvents := [] |}) validating in
  tasks validating !! 1%nat
  = Some {| task_uri := aUri; task_stage := AwaitCompiler aCompiler (lit "x := 1") |}
  /\ trace s' = trace validating ++ [ConsoleLog (LogValidationError (lit "ENOSPC"))].
Proof.
  intros s'.
  assert (H : tasks validating !! 1%nat
              = Some {| task_uri := aUri;
                        task_stage := AwaitCompiler aCompiler (lit "x := 1") |})
    by reflexivity.
  split; [exact H|].
  exact (proj1 (X10_write_failure_publishes_nothing validating 1 aUri aCompiler
                  (lit "x := 1") (lit "ENOSPC") [] H)).
Defined.

Lemma validateTextDocument_noCompiler (document : TextDocument) (s : Server) :
  noCompiler s /\ noneCompiling s ->
  noCompiler (validateTextDocument document s)
  /\ noneCompiling (validateTextDocument document s).
Proof.
  intros [Hp Ht].
  destruct (validateTextDocument_tasks document s) as (id & promise & Etasks & Epath).
  split.
  - unfold noCompiler. now rewrite Epath.
  - intros id' t. rewrite Etasks. intros H.
    apply lookup_insert_Some in H as [[_ <-]|[_ H]]; [|exact (Ht _ _ H)].
    now exists (text document), promise.
Qed.

Lemma advance_noCompiler (t : Z) (s : Server) :
  noCompiler s /\ noneCompiling s ->
  noCompiler (advance t s) /\ noneCompiling (advance t s).
Proof.
  intros H. unfold advance.
  set (s0 := set_timers _ _).
  assert (H0 : noCompiler s0 /\ noneCompiling s0) by exact H.
  clearbody s0. revert s0 H0.
  induction (filter _ (timers s)) as [|tm due IH]; intros s0 H0; [exact H0|].
  cbn [fold_left]. apply IH. unfold timerFires.
  destruct (objects s0 !! tm_document tm) as [document|]; [|exact H0].
  exact (validateTextDocument_noCompiler document s0 H0).
Qed.

Lemma handle_noCompiler (e : Event) (s : Server) :
  findsCompiler e = false ->
  noCompiler s /\ noneCompiling s ->
  (noCompiler (handle e s) /\ noneCompiling (handle e s))
  /\ exists extra, trace (handle e s) = trace s ++ extra
                   /\ existsb isSend extra = false.
Proof.
  intros He [Hp Ht].
  assert (Htrace : (forall task env, e <> CompilerRunDone task env) ->
                   exists extra, trace (handle e s) = trace s ++ extra
                                 /\ existsb isSend extra = false).
  { intros Hne. destruct (handle_trace e s) as (extra & Hx & [Hs|Hs]).
    - now exists extra.
    - destruct Hs as (task & env & _ & _ & _ & -> & _). now destruct (Hne task env). }
  destruct e as [configuration|found|u content|u content|u|task answer|task env].
  - split; [|now apply Htrace]. split; [exact Hp|exact Ht].
  - split; [|now apply Htrace]. cbn [handle]. unfold onInitialized.
    destruct found as [[|c path]|]; [| discriminate He |]; split; (exact I || exact Ht).
  - split; [|now apply Htrace]. cbn [handle].
    match goal with |- context [onDidChangeContent ?o ?d ?x] =>
      destruct (onDidChangeContent_tasks o d x) as [Et Ep]
    end.
    unfold noCompiler, noneCompiling. rewrite Et, Ep.
    unfold onDidOpen. destruct (decide _); [split; [exact Hp|exact Ht]|].
    apply validateTextDocument_noCompiler. split; [exact Hp|exact Ht].
  - split; [|now apply Htrace]. cbn [handle].
    destruct (synced s !! u) as [object|]; [|now split].
    destruct (objects s !! object) as [old|]; [|now split].
    match goal with |- context [onDidChangeContent ?o ?d ?x] =>
      destruct (onDidChangeContent_tasks o d x) as [Et Ep]
    end.
    unfold noCompiler, noneCompiling. rewrite Et, Ep. split; [exact Hp|exact Ht].
  - split; [|now apply Htrace]. cbn [handle].
    destruct (synced s !! u) as [object|]; [|now split].
    destruct (objects s !! object) as [document|]; [|now split].
    destruct (onDidClose_trace document (set_synced (delete u (synced s)) s))
      as (_ & Et & Ep).
    unfold noCompiler, noneCompiling. rewrite Et, Ep. split; [exact Hp|exact Ht].
  - split; [|now apply Htrace]. cbn [handle]. unfold validate_settings.
    destruct (tasks s !! task) as [[v [content promise|path content]]|];
      [|now split|now split].
    unfold noCompiler in Hp. cbn [voltaCompilerPath record set_trace].
    destruct (voltaCompilerPath s) as [[|c path]|] eqn:Ep; [|destruct Hp|];
      (split; [unfold noCompiler; cbn; now rewrite Ep|]);
      intros id t; cbn; intros H;
      apply lookup_delete_Some in H as [_ H]; exact (Ht _ _ H).
  - assert (Es : handle (CompilerRunDone task env) s = s).
    { cbn [handle]. unfold validate_compiled.
      destruct (tasks s !! task) as [[v [content promise|path content]]|] eqn:E;
        try reflexivity.
      destruct (Ht _ _ E) as (c & p & Hstage). discriminate Hstage. }
    rewrite Es. split; [now split|]. exists []. now rewrite app_nil_r.
Qed.

(** X11.  A server that never finds a compiler never publishes
    diagnostics: whatever documents are opened, changed and closed, and
    however the waits of its validations end, no document is ever sent a
    list of diagnostics, not even an empty one. *)
Theorem X11_no_compiler_no_diagnostics :
  forall (events : list (Z * Event)) (v : str),
    Forall (fun te => findsCompiler (snd te) = false) events ->
    published v (trace (runEvents events initialServer)) = None.
Proof.
  intros events v Hev.
  assert (Hinv : forall s,
             (noCompiler s /\ noneCompiling s) /\ existsb isSend (trace s) = false ->
             (noCompiler (runEvents events s) /\ noneCompiling (runEvents events s))
             /\ existsb isSend (trace (runEvents events s)) = false).
  { induction Hev as [|[t e] events He _ IH]; intros s Hs; [exact Hs|].
    cbn [runEvents fold_left]. apply IH. destruct Hs as [Hq Htr].
    unfold step. cbn [fst snd] in *.
    destruct (advance_trace t s) as (extra1 & E1 & Hx1).
    destruct (handle_noCompiler e (advance t s) He (advance_noCompiler t s Hq))
      as (Hq' & extra2 & E2 & Hx2).
    split; [exact Hq'|].
    now rewrite E2, E1, !existsb_app, Htr, Hx1, Hx2. }
  destruct (Hinv initialServer) as [_ Htr].
  { split; [split; [exact I|]|reflexivity].
    intros id t H. cbn in H. now rewrite lookup_empty in H. }
  rewrite <- (app_nil_l (trace _)). now rewrite published_no_send.
Qed.

Lemma X11_no_compiler_witness :
  Forall (fun te => findsCompiler (snd te) = false)
    [(0, Initialized None); (1, DidOpenTextDocument aUri (lit "x := 1"));
     (2, SettingsAwaited 0 defaultSettings)]
  /\ published aUri
       (trace (runEvents
                 [(0, Initialized None); (1, DidOpenTextDocument aUri (lit "x := 1"));
                  (2, SettingsAwaited 0 defaultSettings)] initialServer))
     = None.
Proof.
  assert (H : Forall (fun te => findsCompiler (snd te) = false)
                [(0, Initialized None); (1, DidOpenTextDocument aUri (lit "x := 1"));
                 (2, SettingsAwaited 0 defaultSettings)])
    by (repeat constructor).
  split; [exact H|].
  exact (X11_no_compiler_no_diagnostics _ aUri H).
Defined.

(** X12.  The first time a document is opened it is validated at once,
    with the text it is opened with, before any quiet period; a document
    that was validated before is not validated by the open. *)
Theorem X12_first_open_validates_at_once :
  forall (s : Server) (u content : str),
    trace (handle (DidOpenTextDocument u content) s)
    = trace s ++ (if decide (u ∈ validatedDocuments s) then []
                  else [Validate u content]).
Proof.
  intros s u content. cbn [handle].
  match goal with |- context [onDidChangeContent ?o ?d ?x] =>
    destruct (onDidChangeContent_frame o d x) as (-> & _)
  end.
  unfold onDidOpen. cbn [uri validatedDocuments set_synced set_objects set_nextId].
  destruct (decide (u ∈ validatedDocuments s)); [now rewrite app_nil_r|].
  match goal with |- context [validateTextDocument ?d ?x] =>
    destruct (validateTextDocument_frame d x) as (-> & _)
  end.
  reflexivity.
Qed.

(** ** The timers of the debounce *)

Lemma filter_filter_keep {A} (P Q : A -> Prop) `{forall x, Decision (P x)}
    `{forall x, Decision (Q x)} (l : list A) :
  (forall x, x ∈ l -> P x -> Q x) -> filter P (filter Q l) = filter P l.
Proof.
  induction l as [|x l IH]; intros Hl; [reflexivity|].
  assert (IH' : filter P (filter Q l) = filter P l).
  { apply IH. intros y Hy. apply Hl, elem_of_cons. now right. }
  destruct (decide (Q x)) as [q|q].
  - rewrite (filter_cons_True Q) by assumption. destruct (decide (P x)).
    + rewrite !(filter_cons_True P) by assumption. now rewrite IH'.
    + rewrite !(filter_cons_False P) by assumption. exact IH'.
  - rewrite (filter_cons_False Q) by assumption.
    rewrite (filter_cons_False P); [exact IH'|].
    intros HP. apply q, (Hl x); [apply elem_of_cons; now left|assumption].
Qed.

Lemma NoDup_map_const {A B} (f : A -> B) (c : B) (l : list A) (x : A) :
  NoDup (map f l) -> (forall y, y ∈ l -> f y = c) -> x ∈ l -> l = [x].
Proof.
  intros Hnd Hc Hx. destruct l as [|y [|z l]].
  - now apply elem_of_nil in Hx.
  - apply list_elem_of_singleton in Hx. now subst.
  - exfalso. cbn in Hnd. apply NoDup_cons in Hnd as [Hy _]. apply Hy.
    rewrite (Hc y), <- (Hc z); [apply elem_of_cons; now left| |].
    + apply elem_of_cons. right. apply elem_of_cons. now left.
    + apply elem_of_cons. now left.
Qed.

Lemma clearTimeout_others (u : str) (id : nat) (s : Server) :
  NoDup (map tm_id (timers s)) -> timersBacked s ->
  validationTimers s !! u = Some id ->
  forall tm, tm ∈ timers s -> tm_uri tm <> u -> tm_id tm <> id.
Proof.
  intros Hnd Hb E tm Htm Hu Hid.
  destruct (Hb u id E) as (tm' & Htm' & Hid' & Hu').
  assert (tm = tm')
    by (apply (NoDup_map_eq tm_id (timers s)); [assumption..|congruence]).
  congruence.
Qed.

Lemma onDidChangeContent_spec (object : nat) (document : TextDocument) (s : Server) :
  let s' := onDidChangeContent object document s in
  timers s'
  = match validationTimers s !! uri document with
    | Some id => filter (fun tm => tm_id tm <> id) (timers s)
    | None => timers s
    end ++ [ {| tm_id := nextId s; tm_due := now s + quietPeriod;
                tm_uri := uri document; tm_document := object |} ]
  /\ validationTimers s' = <[uri document := nextId s]> (validationTimers s)
  /\ synced s' = synced s.
Proof.
  unfold onDidChangeContent.
  destruct (validationTimers s !! uri document); cbn; repeat split.
Qed.

Lemma onDidClose_spec (document : TextDocument) (s : Server) :
  let s' := onDidClose document s in
  timers s'
  = match validationTimers s !! uri document with
    | Some id => filter (fun tm => tm_id tm <> id) (timers s)
    | None => timers s
    end
  /\ validationTimers s' = delete (uri document) (validationTimers s)
  /\ synced s' = synced s.
Proof.
  unfold onDidClose. cbn [validationTimers set_documentSettings].
  destruct (validationTimers s !! uri document) eqn:E; cbn; repeat split.
  symmetry. now apply delete_id.
Qed.

Lemma onDidOpen_timers (document : TextDocument) (s : Server) :
  timers (onDidOpen document s) = timers s
  /\ validationTimers (onDidOpen document s) = validationTimers s.
Proof.
  unfold onDidOpen. destruct (decide _); [now split|].
  match goal with |- context [validateTextDocument ?d ?x] =>
    destruct (validateTextDocument_frame d x) as (_ & -> & -> & _)
  end.
  now split.
Qed.

(** The timers a handler cancels are those of the document only. *)
Lemma cancelled_timers (u v : str) (s : Server) :
  NoDup (map tm_id (timers s)) -> timersBacked s -> v <> u ->
  filter (fun tm => tm_uri tm = v)
    match validationTimers s !! u with
    | Some id => filter (fun tm => tm_id tm <> id) (timers s)
    | None => timers s
    end
  = timersOf v s.
Proof.
  intros Hnd Hb Hv. destruct (validationTimers s !! u) as [id|] eqn:E; [|reflexivity].
  apply filter_filter_keep. intros tm Htm Hu.
  apply (clearTimeout_others u id s); try assumption. congruence.
Qed.

Lemma remaining_timers (u : str) (s : Server) (tm : Timer) :
  (forall tm, tm ∈ timers s -> validationTimers s !! tm_uri tm = Some (tm_id tm)) ->
  tm ∈ match validationTimers s !! u with
       | Some id => filter (fun tm => tm_id tm <> id) (timers s)
       | None => timers s
       end ->
  tm ∈ timers s /\ tm_uri tm <> u.
Proof.
  intros He. destruct (validationTimers s !! u) as [id|] eqn:E.
  - intros [Hid Htm]%list_elem_of_filter. split; [assumption|].
    intros Hu. specialize (He tm Htm). rewrite Hu, E in He. congruence.
  - intros Htm. split; [assumption|].
    intros Hu. specialize (He tm Htm). rewrite Hu, E in He. discriminate.
Qed.

Lemma kept_onDidChangeContent (object : nat) (document : TextDocument) (s : Server) :
  NoDup (map tm_id (timers s)) ->
  (forall tm, tm ∈ timers s -> validationTimers s !! tm_uri tm = Some (tm_id tm)) ->
  timersBacked s ->
  (forall tm, tm ∈ timers s -> tm_uri tm <> uri document ->
              synced s !! tm_uri tm = Some (tm_document tm)) ->
  synced s !! uri document = Some object ->
  timersBacked (onDidChangeContent object document s)
  /\ timersOpen (onDidChangeContent object document s).
Proof.
  intros Hnd He Hb Ho Hs.
  destruct (onDidChangeContent_spec object document s) as (Et & Ev & Es).
  split.
  - intros v id. rewrite Ev, Et. intros H.
    apply lookup_insert_Some in H as [[<- <-]|[Hne H]].
    + eexists. split; [apply elem_of_app; right; apply list_elem_of_singleton;
                       reflexivity|]. now split.
    + destruct (Hb v id H) as (tm & Htm & Hid & Hu). exists tm.
      split; [|now split]. apply elem_of_app. left.
      assert (Hin : tm ∈ timersOf v s) by (apply list_elem_of_filter; now split).
      rewrite <- (cancelled_timers (uri document) v s) in Hin
        by (assumption || congruence).
      now apply list_elem_of_filter in Hin as [_ Hin].
  - intros tm. rewrite Et, Es. intros [Htm|Htm]%elem_of_app.
    + apply remaining_timers in Htm as [Htm Hu]; [|assumption]. now apply Ho.
    + apply list_elem_of_singleton in Htm. now subst tm.
Qed.

Lemma kept_frame (s s' : Server) :
  timers s' = timers s -> validationTimers s' = validationTimers s ->
  synced s' = synced s ->
  timersBacked s /\ timersOpen s -> timersBacked s' /\ timersOpen s'.
Proof.
  intros Et Ev Es [Hb Ho]. split.
  - intros u id. rewrite Ev, Et. apply Hb.
  - intros tm. rewrite Et, Es. apply Ho.
Qed.

Lemma kept_advance (t : Z) (s : Server) :
  timersBacked s /\ timersOpen s ->
  timersBacked (advance t s) /\ timersOpen (advance t s).
Proof.
  intros [Hb Ho]. destruct (advance_spec t s) as (_ & Et & Ev & _ & Es & _).
  cbv zeta in *. split.
  - intros u id. rewrite Ev, Et. destruct (decide _) as [|Hnot]; [discriminate|].
    intros H. destruct (Hb u id H) as (tm & Htm & Hid & Hu). exists tm.
    split; [|now split]. apply list_elem_of_filter. split; [|assumption].
    intros Hdue. apply Hnot. rewrite <- Hu.
    apply list_elem_of_In, in_map, list_elem_of_In, list_elem_of_filter. now split.
  - intros tm. rewrite Et, Es. intros [_ Htm]%list_elem_of_filter. now apply Ho.
Qed.

Lemma kept_handle (e : Event) (s : Server) :
  wf s -> timersBacked s /\ timersOpen s ->
  timersBacked (handle e s) /\ timersOpen (handle e s).
Proof.
  intros W K. pose proof W as [W1 W2 W3]. pose proof K as [Hb Ho].
  destruct e as [configuration|found|u content|u content|u|task answer|task env];
    cbn [handle].
  - revert K. now apply kept_frame.
  - unfold onInitialized. destruct found as [[|c path]|]; revert K; now apply kept_frame.
  - (* open *)
    match goal with |- context [onDidOpen ?d ?x] =>
      destruct (onDidOpen_timers d x) as [Et Ev];
      destruct (onDidOpen_frame d x) as (_ & _ & Es & _)
    end.
    cbn in Et, Ev, Es.
    apply kept_onDidChangeContent.
    + now rewrite Et.
    + intros tm. rewrite Et, Ev. intros Htm. now apply W2.
    + intros v id. rewrite Ev, Et. apply Hb.
    + intros tm. rewrite Et, Es. cbn [uri]. intros Htm Hu.
      rewrite lookup_insert_ne by congruence. now apply Ho.
    + rewrite Es. cbn [uri]. apply lookup_insert_eq.
  - (* change *)
    destruct (synced s !! u) as [object|] eqn:Esy; [|assumption].
    destruct (objects s !! object) as [old|] eqn:Eo; [|assumption].
    destruct (W3 u object Esy) as (_ & doc & Hdoc & Hu).
    assert (uri old = u) by congruence.
    apply kept_onDidChangeContent; cbn; try assumption.
    + intros tm Htm. now apply W2.
    + intros tm Htm _. now apply Ho.
    + congruence.
  - (* close *)
    destruct (synced s !! u) as [object|] eqn:Esy; [|assumption].
    destruct (objects s !! object) as [document|] eqn:Eo; [|assumption].
    destruct (W3 u object Esy) as (_ & doc & Hdoc & Hu).
    assert (Hd : uri document = u) by congruence.
    destruct (onDidClose_spec document (set_synced (delete u (synced s)) s))
      as (Et & Ev & Es).
    cbn in Et, Ev, Es. rewrite Hd in Et, Ev. split.
    + intros v id. rewrite Ev, Et. intros H.
      apply lookup_delete_Some in H as [Hne H].
      destruct (Hb v id H) as (tm & Htm & Hid & Hv). exists tm.
      split; [|now split].
      assert (Hin : tm ∈ timersOf v s) by (apply list_elem_of_filter; now split).
      rewrite <- (cancelled_timers u v s) in Hin by (assumption || congruence).
      now apply list_elem_of_filter in Hin as [_ Hin].
    + intros tm. rewrite Et, Es. intros Htm.
      apply remaining_timers in Htm as [Htm Hne]; [|intros tm' Htm'; now apply W2].
      rewrite lookup_delete_ne by congruence. now apply Ho.
  - unfold validate_settings.
    destruct (tasks s !! task) as [[u [content promise|path content]]|]; try assumption.
    cbn. destruct (voltaCompilerPath s) as [[|c path]|]; revert K; now apply kept_frame.
  - unfold validate_compiled.
    destruct (tasks s !! task) as [[u [content promise|path content]]|]; try assumption.
    destruct (runVoltaCompiler env path content u) as [result| |]; try assumption.
    destruct (success result); revert K; now apply kept_frame.
Qed.

Lemma reachable_kept (s : Server) :
  reachable s -> timersBacked s /\ timersOpen s.
Proof.
  induction 1 as [|s te R IH].
  - split.
    + intros u id H. cbn in H. now rewrite lookup_empty in H.
    + intros tm Htm. now apply elem_of_nil in Htm.
  - unfold step. apply kept_handle; [|now apply kept_advance].
    now apply wf_advance, reachable_wf.
Qed.

Lemma reachable_runEvents (events : list (Z * Event)) :
  forall s, reachable s -> reachable (runEvents events s).
Proof.
  induction events as [|te events IH]; intros s R; [exact R|].
  cbn [runEvents fold_left]. apply IH. now constructor.
Qed.

(** The timer pending for a document, in a state the server reaches. *)
Lemma pending_timer (s : Server) (u : str) :
  reachable s ->
  match validationTimers s !! u with
  | Some id =>
      exists tm doc,
        timersOf u s = [tm] /\ tm_id tm = id
        /\ synced s !! u = Some (tm_document tm)
        /\ objects s !! tm_document tm = Some doc /\ uri doc = u
  | None => timersOf u s = []
  end.
Proof.
  intros R. pose proof (reachable_wf s R) as W.
  destruct (reachable_kept s R) as [Hb Ho]. pose proof W as [W1 W2 W3].
  destruct (validationTimers s !! u) as [id|] eqn:E.
  - destruct (Hb u id E) as (tm & Htm & Hid & Hu).
    pose proof (Ho tm Htm) as Hs. rewrite Hu in Hs.
    destruct (W3 u _ Hs) as (_ & doc & Hdoc & Hd).
    exists tm, doc. repeat split; try assumption.
    apply (NoDup_map_const tm_id id).
    + now apply NoDup_map_filter.
    + intros y [Hy Hin]%list_elem_of_filter. destruct (W2 y Hin) as (A & _).
      rewrite Hy, E in A. congruence.
    + apply list_elem_of_filter. now split.
  - apply filter_none. intros tm Htm Hu. destruct (W2 tm Htm) as (A & _).
    rewrite Hu, E in A. discriminate.
Qed.

(** X13.  In every state the server reaches, a document has at most one
    validation timer pending, exactly when [validationTimers] has an
    entry for its URI; the document is then open, and the timer holds the
    object the document manager has for it: no timer is ever left behind
    for a closed document, and none validates a stale object. *)
Theorem X13_one_timer_per_open_document :
  forall (s : Server) (u : str),
    reachable s ->
    match validationTimers s !! u with
    | Some id =>
        exists tm doc,
          timersOf u s = [tm] /\ tm_id tm = id
          /\ synced s !! u = Some (tm_document tm)
          /\ objects s !! tm_document tm = Some doc /\ uri doc = u
    | None => timersOf u s = []
    end.
Proof.
  intros s u R. exact (pending_timer s u R).
Qed.

Lemma X13_one_timer_witness :
  reachable closedAgain
  /\ match validationTimers closedAgain !! aUri with
     | Some id =>
         exists tm doc,
           timersOf aUri closedAgain = [tm] /\ tm_id tm = id
           /\ synced closedAgain !! aUri = Some (tm_document tm)
           /\ objects closedAgain !! tm_document tm = Some doc /\ uri doc = aUri
     | None => timersOf aUri closedAgain = []
     end.
Proof.
  assert (R : reachable closedAgain)
    by (apply reachable_runEvents, reachable_runEvents; constructor).
  split; [exact R|].
  exact (X13_one_timer_per_open_document closedAgain aUri R).
Defined.

(** X14.  Opening, changing or closing one document leaves the pending
    validation timer of every other document as it is: an edit in one
    file neither cancels nor delays the validation of another. *)
Theorem X14_timers_of_other_documents_untouched :
  forall (s : Server) (u v content : str) (e : Event),
    reachable s ->
    v <> u ->
    e = DidOpenTextDocument u content \/ e = DidChangeTextDocument u content
    \/ e = DidCloseTextDocument u ->
    timersOf v (handle e s) = timersOf v s
    /\ validationTimers (handle e s) !! v = validationTimers s !! v.
Proof.
  intros s u v content e R Hv He. pose proof (reachable_wf s R) as [W1 W2 W3].
  destruct (reachable_kept s R) as [Hb Ho].
  destruct He as [->|[->| ->]]; cbn [handle].
  - match goal with |- context [onDidChangeContent ?o ?d (onDidOpen ?d ?x)] =>
      destruct (onDidOpen_timers d x) as [Et Ev];
      destruct (onDidChangeContent_spec o d (onDidOpen d x)) as (Et' & Ev' & _)
    end.
    cbn in Et, Ev. cbn [uri] in Et', Ev'. unfold timersOf at 1.
    rewrite Et', Ev', Ev, Et, filter_app, filter_cons_False, filter_nil, app_nil_r
      by (cbn; congruence).
    split; [now apply cancelled_timers|now apply lookup_insert_ne].
  - destruct (synced s !! u) as [object|] eqn:Esy; [|now split].
    destruct (objects s !! object) as [old|] eqn:Eo; [|now split].
    destruct (W3 u object Esy) as (_ & doc & Hdoc & Hu).
    assert (Hd : uri old = u) by congruence.
    match goal with |- context [onDidChangeContent ?o ?d ?x] =>
      destruct (onDidChangeContent_spec o d x) as (Et' & Ev' & _)
    end.
    unfold timersOf at 1. rewrite Et', Ev'.
    cbn [uri timers validationTimers set_objects]. rewrite Hd.
    rewrite filter_app, filter_cons_False, filter_nil, app_nil_r
      by (cbn; congruence).
    split; [now apply cancelled_timers|now apply lookup_insert_ne].
  - destruct (synced s !! u) as [object|] eqn:Esy; [|now split].
    destruct (objects s !! object) as [document|] eqn:Eo; [|now split].
    destruct (W3 u object Esy) as (_ & doc & Hdoc & Hu).
    assert (Hd : uri document = u) by congruence.
    destruct (onDidClose_spec document (set_synced (delete u (synced s)) s))
      as (Et & Ev & _).
    unfold timersOf at 1. rewrite Et, Ev.
    cbn [timers validationTimers set_synced]. rewrite Hd.
    split; [now apply cancelled_timers|now apply lookup_delete_ne].
Qed.

Lemma X14_timers_of_other_documents_witness :
  reachable validating
  /\ aUri <> lit "file:///b.vlt"
  /\ timersOf aUri (handle (DidOpenTextDocument (lit "file:///b.vlt") (lit "y := 2"))
                      validating)
     = timersOf aUri validating.
Proof.
  assert (R : reachable validating)
    by (apply reachable_runEvents, reachable_runEvents; constructor).
  assert (N : aUri <> lit "file:///b.vlt") by (cbn; discriminate).
  split; [exact R|]. split; [exact N|].
  exact (proj1 (X14_timers_of_other_documents_untouched validating
                  (lit "file:///b.vlt") aUri (lit "y := 2") _ R N
                  (or_introl eq_refl))).
Defined.

(** X15.  The passing of time validates a document at most once, only if
    the document is open, and with the text the document has then: a
    closed document is never validated by a timer, and no text of an
    earlier change is. *)
Theorem X15_time_validates_open_documents_once :
  forall (s : Server) (u : str) (t : Z),
    reachable s ->
    let s' := advance t s in
    validations u (trace s') = validations u (trace s)
    \/ exists object doc,
         synced s !! u = Some object /\ objects s !! object = Some doc
         /\ validations u (trace s') = validations u (trace s) ++ [text doc].
Proof.
  intros s u t R s'. subst s'. pose proof (reachable_wf s R) as W.
  destruct (advance_spec t s) as (Htr & _). cbv zeta in Htr.
  rewrite Htr, validations_app, (validations_fireActions u s _ W)
    by (now intros tm [_ Htm]%list_elem_of_filter).
  rewrite filter_comm. fold (timersOf u s).
  pose proof (pending_timer s u R) as P.
  destruct (validationTimers s !! u) as [id|].
  - destruct P as (tm & doc & -> & _ & Hs & Ho & _).
    destruct (decide (tm_due tm <= Z.max t (now s))) as [Hdue|Hdue].
    + rewrite filter_cons_True, filter_nil by exact Hdue. cbn [flat_map].
      rewrite Ho. right. now exists (tm_document tm), doc.
    + rewrite filter_cons_False, filter_nil by exact Hdue. left. apply app_nil_r.
  - rewrite P, filter_nil. left. apply app_nil_r.
Qed.

Lemma X15_time_validates_witness :
  reachable closedAgain
  /\ (validations aUri (trace (advance 9000 closedAgain))
      = validations aUri (trace closedAgain)
      \/ exists object doc,
           synced closedAgain !! aUri = Some object
           /\ objects closedAgain !! object = Some doc
           /\ validations aUri (trace (advance 9000 closedAgain))
              = validations aUri (trace closedAgain) ++ [text doc]).
Proof.
  assert (R : reachable closedAgain)
    by (apply reachable_runEvents, reachable_runEvents; constructor).
  split; [exact R|].
  exact (X15_time_validates_open_documents_once closedAgain aUri 9000 R).
Defined.

(** ** Configuration changes *)

Lemma validateTextDocument_globals (document : TextDocument) (s : Server) :
  voltaCompilerPath (validateTextDocument document s) = voltaCompilerPath s
  /\ globalSettings (validateTextDocument document s) = globalSettings s
  /\ hasConfigurationCapability (validateTextDocument document s)
     = hasConfigurationCapability s.
Proof.
  unfold validateTextDocument, getDocumentSettings.
  destruct (negb (hasConfigurationCapability s)); [now cbn|].
  now destruct (documentSettings s !! uri document).
Qed.

Lemma revalidation (all : list TextDocument) (s : Server) :
  let s' := fold_left (fun s document => validateTextDocument document s) all s in
  trace s' = trace s ++ map validateOf all
  /\ voltaCompilerPath s' = voltaCompilerPath s
  /\ globalSettings s' = globalSettings s.
Proof.
  revert s. induction all as [|d all IH]; intros s; cbn [fold_left map].
  - now rewrite app_nil_r.
  - destruct (IH (validateTextDocument d s)) as (-> & -> & ->).
    destruct (validateTextDocument_frame d s) as (-> & _).
    destruct (validateTextDocument_globals d s) as (-> & -> & _).
    now rewrite <- app_assoc.
Qed.

Lemma configuration_trace (findCompiler : str -> option str)
    (all : list TextDocument) (volta : option VoltaSettings) (s : Server) :
  exists extra,
    trace (onDidChangeConfiguration findCompiler all volta s) = trace s ++ extra
    /\ existsb isSend extra = false.
Proof.
  unfold onDidChangeConfiguration.
  set (s1 := if hasConfigurationCapability s then _ else _).
  assert (Et : trace s1 = trace s)
    by (subst s1; now destruct (hasConfigurationCapability s)).
  cbn [voltaCompilerPath set_voltaCompilerPath].
  set (found := findCompiler (compilerPath (globalSettings s1))).
  set (s3 := match found with
             | Some (c :: path) => _
             | _ => _
             end).
  assert (E3 : trace s3 = trace s ++ [compilerNotice found])
    by (subst s3; rewrite <- Et; now destruct found as [[|c path]|]).
  assert (Hn : isSend (compilerNotice found) = false)
    by now destruct found as [[|c path]|].
  destruct (decide _).
  - eexists. split; [exact E3|]. cbn [existsb]. now rewrite Hn.
  - destruct (revalidation all s3) as (-> & _). rewrite E3, <- app_assoc.
    eexists. split; [reflexivity|]. cbn [app existsb]. rewrite Hn. cbn [orb].
    clear. induction all as [|d all IH]; [reflexivity|exact IH].
Qed.


(** X17.  When the client has the configuration capability, the settings
    a configuration change carries are not read: the server ends in the
    same state whatever they are, and the compiler is looked up under the
    path of the global settings kept, whatever path the user has set. *)
Theorem X17_configuration_capability_ignores_new_path :
  forall (findCompiler : str -> option str) (all : list TextDocument)
         (volta volta' : option VoltaSettings) (s : Server),
    hasConfigurationCapability s = true ->
    onDidChangeConfiguration findCompiler all volta s
    = onDidChangeConfiguration findCompiler all volta' s
    /\ voltaCompilerPath (onDidChangeConfiguration findCompiler all volta s)
       = findCompiler (compilerPath (globalSettings s)).
Proof.
  intros findCompiler all volta volta' s Hc.
  unfold onDidChangeConfiguration. rewrite Hc. split; [reflexivity|].
  cbn [voltaCompilerPath set_voltaCompilerPath set_documentSettings globalSettings].
  set (found := findCompiler (compilerPath (globalSettings s))).
  set (s3 := match found with
             | Some (c :: path) => _
             | _ => _
             end).
  assert (Ef : voltaCompilerPath s3 = found)
    by (subst s3; now destruct found as [[|c path]|]).
  destruct (decide _); [exact Ef|].
  destruct (revalidation all s3) as (_ & -> & _). exact Ef.
Qed.

Lemma X17_configuration_capability_witness :
  let s := onInitialize true initialServer in
  let volta := Some {| maxNumberOfProblems := 10; compilerPath := lit "/opt/volta" |} in
  hasConfigurationCapability s = true
  /\ voltaCompilerPath (onDidChangeConfiguration (fun p => Some p) [] volta s)
     = Some (compilerPath (globalSettings s)).
Proof.
  intros s volta.
  assert (H : hasConfigurationCapability s = true) by reflexivity.
  split; [exact H|].
  exact (proj2 (X17_configuration_capability_ignores_new_path
                  (fun p => Some p) [] volta None s H)).
Defined.

(** ** The search for the compiler *)

Lemma find_app {A} (f : A -> bool) (l1 l2 : list A) :
  find f (l1 ++ l2) = match find f l1 with
                      | Some x => Some x
                      | None => find f l2
                      end.
Proof.
  induction l1 as [|x l1 IH]; [reflexivity|].
  cbn [app find]. now destruct (f x).
Qed.

(** X18.  [findVoltaCompiler] returns the first executable file among the
    path of the settings (unless it is empty or the bare name [volta]),
    the trimmed output of [which volta] (unless empty), and the four
    common places, in this order; so the path it returns is executable,
    and it returns none only if none of them is. *)
Theorem X18_findVoltaCompiler_first_executable_candidate :
  forall (path_join : list str -> str) (host : CompilerPath.Host)
         (configuredPath : option str),
    let result := fst (CompilerPath.findVoltaCompiler path_join host configuredPath) in
    result = find (CompilerPath.isExecutable host)
               (CompilerPath.candidates path_join host configuredPath)
    /\ (forall p, result = Some p -> CompilerPath.accessX host p = true)
    /\ (result = None ->
        Forall (fun p => CompilerPath.accessX host p = false)
          (CompilerPath.candidates path_join host configuredPath)).
Proof.
  intros path_join host configuredPath result.
  assert (E : result = find (CompilerPath.isExecutable host)
                         (CompilerPath.candidates path_join host configuredPath)).
  { subst result.
    unfold CompilerPath.findVoltaCompiler, CompilerPath.candidates,
      CompilerPath.configured, CompilerPath.inPATH.
    rewrite !find_app.
    destruct configuredPath as [[|c path]|]; cbn [find fst].
    2: destruct (decide (c :: path = lit "volta")); cbn [find fst];
       [|destruct (CompilerPath.isExecutable host (c :: path)); cbn [fst];
         [reflexivity|]].
    all: destruct (CompilerPath.whichVolta host) as [output|]; cbn [find fst];
      try reflexivity.
    all: destruct (trim output) as [|r result]; cbn [find fst]; try reflexivity.
    all: now destruct (CompilerPath.isExecutable host (r :: result)). }
  split; [exact E|]. rewrite E. split.
  - intros p Hp. now apply find_some in Hp as [_ Hp].
  - intros Hn. apply List.Forall_forall. intros p Hp.
    exact (find_none _ _ Hn p Hp).
Qed.

(** X19.  A path of the settings that is executable is returned whatever
    else the machine holds, with no warning; one that is not executable
    is reported in one warning and the search goes on as with no path set.
    The bare name [volta], the default of the settings, and the empty
    path are not looked up at all: they give what no path gives. *)
Theorem X19_configured_compiler_path :
  forall (path_join : list str -> str) (host : CompilerPath.Host) (p : str),
    let findVoltaCompiler := CompilerPath.findVoltaCompiler path_join host in
    (p <> [] -> p <> lit "volta" ->
     findVoltaCompiler (Some p)
     = if CompilerPath.accessX host p then (Some p, [])
       else (fst (findVoltaCompiler None),
             [lit "Configured Volta compiler path not found or not executable: "
              ++ p]))
    /\ findVoltaCompiler (Some (lit "volta")) = findVoltaCompiler None
    /\ findVoltaCompiler (Some []) = findVoltaCompiler None.
Proof.
  intros path_join host p findVoltaCompiler. subst findVoltaCompiler.
  unfold CompilerPath.findVoltaCompiler, CompilerPath.configured,
    CompilerPath.isExecutable.
  split; [|split; reflexivity].
  intros Hp Hv. destruct p as [|c path]; [now destruct Hp|].
  rewrite decide_False by exact Hv.
  destruct (CompilerPath.accessX host (c :: path)); [reflexivity|].
  destruct (CompilerPath.inPATH host); reflexivity.
Qed.

Lemma X19_configured_compiler_witness :
  let host := {| CompilerPath.accessX := fun p => bool_decide (p = lit "/opt/volta");
                 CompilerPath.whichVolta := None;
                 CompilerPath.HOME := None |} in
  lit "/opt/volta" <> [] /\ lit "/opt/volta" <> lit "volta"
  /\ CompilerPath.findVoltaCompiler (join (lit "/")) host (Some (lit "/opt/volta"))
     = (Some (lit "/opt/volta"), []).
Proof.
  intros host.
  assert (H1 : lit "/opt/volta" <> []) by discriminate.
  assert (H2 : lit "/opt/volta" <> lit "volta") by discriminate.
  split; [exact H1|]. split; [exact H2|].
  exact (proj1 (X19_configured_compiler_path (join (lit "/")) host
                  (lit "/opt/volta")) H1 H2).
Defined.

(** ** Hover and definition *)

Lemma replaceFirst_prefix (needle rest : str) :
  replaceFirst needle [] (needle ++ rest) = rest.
Proof.
  unfold replaceFirst.
  assert (H : indexOf needle (needle ++ rest) = Some 0%nat).
  { destruct needle as [|c needle]; [now destruct rest|].
    cbn [indexOf app]. fold (app needle rest).
    change (c :: needle ++ rest) with ((c :: needle) ++ rest).
    now rewrite isPrefix_app. }
  rewrite H. cbn [firstn app Nat.add]. apply drop_app_length.
Qed.

Lemma query_closed (JSON_parse : str -> CompilerInterface.Parsed)
    (spawn : str -> list str -> list ProcEvent)
    (compilerPath filePath : str) (line column : nat)
    (output rest : list ProcEvent) (exitCode : Z)
    (v : CompilerInterface.CompilerSymbolInfo) :
  spawn compilerPath [lit "--lsp-info"; filePath; toString line; toString column]
  = output ++ ProcClose exitCode :: rest ->
  Forall (fun e => CompilerInterface.isOutput e = true) output ->
  JSON_parse (CompilerInterface.stdoutOf output) = CompilerInterface.Value v ->
  CompilerInterface.getSymbolInfoFromCompiler JSON_parse spawn
    compilerPath filePath line column
  = Returned v.
Proof.
  intros Hp Ho Hv.
  unfold CompilerInterface.getSymbolInfoFromCompiler. rewrite Hp.
  destruct (query_first_settles JSON_parse output rest (ProcClose exitCode) Ho eq_refl)
    as [-> _].
  cbn. now rewrite Hv.
Qed.

(** X20.  Go to definition answers exactly when hover does, on the same
    query of the compiler, and whatever the compiler says about the
    symbol the location it gives is the position of the request itself,
    in the document of the request. *)
Theorem X20_definition_is_the_position_of_the_request :
  forall (JSON_parse : str -> CompilerInterface.Parsed)
         (spawn : str -> list str -> list ProcEvent)
         (s : Server) (u : str) (line column : nat),
    onDefinition JSON_parse spawn s u line column
    = match onHover JSON_parse spawn s u line column with
      | Returned (Some _) => Returned (Some (cursorLocation u line column))
      | Returned None => Returned None
      | Thrown err => Thrown err
      | Pending => Pending
      end.
Proof.
  intros JSON_parse spawn s u line column. unfold onDefinition, onHover.
  destruct (voltaCompilerPath s) as [[|c path]|]; try reflexivity.
  destruct (synced s !! u) as [object|]; [|reflexivity].
  destruct (objects s !! object) as [document|]; [|reflexivity].
  destruct (CompilerInterface.getSymbolInfoFromCompiler _ _ _ _ _ _)
    as [symbolInfo|err|]; try reflexivity.
  destruct (CompilerInterface.success symbolInfo); [|reflexivity].
  now destruct (CompilerInterface.result symbolInfo).
Qed.

(** X21.  A hover on an open document [file://<path>] at line [l],
    column [c] of the editor asks the compiler for [--lsp-info <path>
    l+1 c]; when that process ends and its output parses to a successful
    answer with a result, the hover is the markdown of that result. *)
Theorem X21_hover_asks_compiler_one_line_down :
  forall (JSON_parse : str -> CompilerInterface.Parsed)
         (spawn : str -> list str -> list ProcEvent)
         (s : Server) (compiler path : str) (object : nat) (document : TextDocument)
         (line column : nat) (output rest : list ProcEvent) (exitCode : Z)
         (v : CompilerInterface.CompilerSymbolInfo)
         (info : CompilerInterface.SymbolResult),
    voltaCompilerPath s = Some compiler -> compiler <> [] ->
    synced s !! (lit "file://" ++ path) = Some object ->
    objects s !! object = Some document ->
    spawn compiler [lit "--lsp-info"; path; toString (line + 1); toString column]
    = output ++ ProcClose exitCode :: rest ->
    Forall (fun e => CompilerInterface.isOutput e = true) output ->
    JSON_parse (CompilerInterface.stdoutOf output) = CompilerInterface.Value v ->
    CompilerInterface.success v = true ->
    CompilerInterface.result v = Some info ->
    onHover JSON_parse spawn s (lit "file://" ++ path) line column
    = Returned (Some {| Hover.contents :=
                          {| MarkupContent.kind := lit "markdown";
                             MarkupContent.value := hoverMarkdown info |} |}).
Proof.
  intros JSON_parse spawn s compiler path object document line column output rest
         exitCode v info Hc Hne Hs Ho Hp Hout Hv Hsucc Hres.
  unfold onHover. rewrite Hc. destruct compiler as [|c compiler]; [now destruct Hne|].
  rewrite Hs, Ho, replaceFirst_prefix.
  rewrite (query_closed JSON_parse spawn _ _ _ _ output rest exitCode v Hp Hout Hv).
  now rewrite Hsucc, Hres.
Qed.

(** X22.  Parameters without documentation leave no trace in a hover:
    the markdown is the same as if the compiler had not listed them, and
    when no parameter is documented it is the same as with no parameters
    at all. *)
Theorem X22_hover_lists_documented_parameters_only :
  forall (info : CompilerInterface.SymbolResult)
         (ps : list CompilerInterface.ParameterDoc.t),
    hoverMarkdown (withParameters (Some ps) info)
    = hoverMarkdown (withParameters (Some (filter documented ps)) info)
    /\ (filter documented ps = [] ->
        hoverMarkdown (withParameters (Some ps) info)
        = hoverMarkdown (withParameters None info)).
Proof.
  intros info ps. unfold hoverMarkdown.
  cbn [withParameters CompilerInterface.parameters CompilerInterface.name
       CompilerInterface.type CompilerInterface.signature
       CompilerInterface.documentation CompilerInterface.returnDoc].
  split.
  - assert (E : filter documented (filter documented ps) = filter documented ps).
    { apply filter_filter_keep. tauto. }
    destruct ps as [|p ps]; [reflexivity|].
    destruct (filter documented (p :: ps)) as [|q qs] eqn:F; [reflexivity|].
    now rewrite E.
  - intros Hn. destruct ps as [|p ps]; [reflexivity|]. now rewrite Hn.
Qed.

Lemma X21_hover_witness :
  let spawn := fun (_ : str) (_ : list str) => [StdoutData (lit "1"); ProcClose 0] in
  let info := {| CompilerInterface.kind := lit "function";
                 CompilerInterface.name := lit "add";
                 CompilerInterface.type := lit "fn";
                 CompilerInterface.signature := lit "fn";
                 CompilerInterface.parameters :=
                   Some [ {| CompilerInterface.ParameterDoc.name := lit "a";
                             CompilerInterface.ParameterDoc.documentation := [] |};
                          {| CompilerInterface.ParameterDoc.name := lit "b";
                             CompilerInterface.ParameterDoc.documentation := [] |} ];
                 CompilerInterface.documentation := None;
                 CompilerInterface.returnDoc := None |} in
  voltaCompilerPath validating = Some aCompiler
  /\ synced validating !! (lit "file://" ++ lit "/a.vlt") = Some 0%nat
  /\ objects validating !! 0%nat = Some {| uri := aUri; text := lit "x := 1" |}
  /\ onHover answerParser spawn validating (lit "file://" ++ lit "/a.vlt") 0 3
     = Returned (Some {| Hover.contents :=
                           {| MarkupContent.kind := lit "markdown";
                              MarkupContent.value := hoverMarkdown info |} |}).
Proof.
  intros spawn info.
  assert (H1 : voltaCompilerPath validating = Some aCompiler) by reflexivity.
  assert (H2 : synced validating !! (lit "file://" ++ lit "/a.vlt") = Some 0%nat)
    by reflexivity.
  assert (H3 : objects validating !! 0%nat
               = Some {| uri := aUri; text := lit "x := 1" |}) by reflexivity.
  split; [exact H1|]. split; [exact H2|]. split; [exact H3|].
  refine (X21_hover_asks_compiler_one_line_down answerParser spawn validating
            aCompiler (lit "/a.vlt") 0 _ 0 3 [StdoutData (lit "1")] [] 0
            (functionInfo (lit "add") [lit "a"; lit "b"]) info
            H1 _ H2 H3 _ _ _ _ _).
  - discriminate.
  - reflexivity.
  - repeat constructor.
  - reflexivity.
  - reflexivity.
  - reflexivity.
Defined.

Lemma X22_hover_parameters_witness :
  let info := {| CompilerInterface.kind := lit "function";
                 CompilerInterface.name := lit "add";
                 CompilerInterface.type := lit "fn";
                 CompilerInterface.signature := lit "fn";
                 CompilerInterface.parameters := None;
                 CompilerInterface.documentation := None;
                 CompilerInterface.returnDoc := None |} in
  let ps := [ {| CompilerInterface.ParameterDoc.name := lit "a";
                 CompilerInterface.ParameterDoc.documentation := [] |} ] in
  filter documented ps = []
  /\ hoverMarkdown (withParameters (Some ps) info)
     = hoverMarkdown (withParameters None info).
Proof.
  intros info ps.
  assert (H : filter documented ps = []) by reflexivity.
  split; [exact H|].
  exact (proj2 (X22_hover_lists_documented_parameters_only info ps) H).
Defined.

(** ** Signature help at the edges *)

Lemma length_split (sep : ascii) (s : str) :
  length (split sep s) = S (countChar sep s).
Proof.
  unfold countChar. induction s as [|c s IH]; [reflexivity|].
  cbn [split]. destruct (chr_eqb c sep) eqn:E.
  - rewrite filter_cons_True by exact E. cbn [length]. now rewrite IH.
  - rewrite filter_cons_False by (rewrite E; discriminate).
    destruct (split sep s) as [|l ls]; [discriminate IH|exact IH].
Qed.

(** X23.  A request for signature help on an open document is rejected
    exactly when its line is beyond the last line of the document (the
    document has as many lines as line feeds, plus one): the handler then
    throws a [TypeError] instead of answering [null]; on a line of the
    document it never throws, whatever the compiler does. *)
Theorem X23_signature_help_rejects_lines_beyond_the_end :
  forall (JSON_parse : str -> CompilerInterface.Parsed)
         (spawn : str -> list str -> list ProcEvent)
         (s : Server) (u compiler : str) (object : nat) (document : TextDocument)
         (line column : nat),
    voltaCompilerPath s = Some compiler -> compiler <> [] ->
    synced s !! u = Some object ->
    objects s !! object = Some document ->
    if decide (countChar LF (text document) < line)%nat
    then onSignatureHelp JSON_parse spawn s u line column = Thrown (lit "TypeError")
    else forall err, onSignatureHelp JSON_parse spawn s u line column <> Thrown err.
Proof.
  intros JSON_parse spawn s u compiler object document line column Hc Hne Hs Ho.
  unfold onSignatureHelp. rewrite Hc.
  destruct compiler as [|c compiler]; [now destruct Hne|]. rewrite Hs, Ho.
  pose proof (length_split LF (text document)) as Hlen.
  destruct (decide _) as [Hline|Hline].
  - rewrite (proj2 (lookup_ge_None (split LF (text document)) line)) by lia.
    reflexivity.
  - destruct (lookup_lt_is_Some_2 (split LF (text document)) line) as [l ->]; [lia|].
    intros err. repeat case_match; discriminate.
Qed.

Lemma X23_signature_help_witness :
  voltaCompilerPath validating = Some aCompiler
  /\ aCompiler <> []
  /\ synced validating !! aUri = Some 0%nat
  /\ objects validating !! 0%nat = Some {| uri := aUri; text := lit "x := 1" |}
  /\ onSignatureHelp answerParser answeringCompiler validating aUri 5 0
     = Thrown (lit "TypeError").
Proof.
  assert (H1 : voltaCompilerPath validating = Some aCompiler) by reflexivity.
  assert (H2 : aCompiler <> []) by discriminate.
  assert (H3 : synced validating !! aUri = Some 0%nat) by reflexivity.
  assert (H4 : objects validating !! 0%nat
               = Some {| uri := aUri; text := lit "x := 1" |}) by reflexivity.
  split; [exact H1|]. split; [exact H2|]. split; [exact H3|]. split; [exact H4|].
  exact (X23_signature_help_rejects_lines_beyond_the_end answerParser
           answeringCompiler validating aUri aCompiler 0 _ 5 0 H1 H2 H3 H4).
Defined.

(** ** The cache of the settings *)

(** X24.  The settings of a document are requested from the client once:
    a second call of [getDocumentSettings] for the same document returns
    the promise of the first and changes nothing, and a client without
    the configuration capability is never asked: the call returns the
    global settings and caches nothing. *)
Theorem X24_settings_are_requested_once :
  forall (resource : str) (s : Server),
    let first := getDocumentSettings resource s in
    getDocumentSettings resource (snd first) = (fst first, snd first)
    /\ (if hasConfigurationCapability s
        then exists request, fst first = Requested request
                             /\ documentSettings (snd first) !! resource = Some request
        else first = (Resolved (globalSettings s), s)).
Proof.
  intros resource s first. subst first. unfold getDocumentSettings.
  destruct (hasConfigurationCapability s) eqn:Hc; cbn [negb].
  - destruct (documentSettings s !! resource) as [request|] eqn:E; cbn [fst snd].
    + rewrite Hc, E. cbn [negb]. split; [reflexivity|]. now exists request.
    + cbn [hasConfigurationCapability set_documentSettings set_nextId
           documentSettings].
      rewrite Hc. cbn [negb]. rewrite lookup_insert_eq. split; [reflexivity|].
      now exists (nextId s).
  - cbn [fst snd]. rewrite Hc. now split.
Qed.

(** ** The definition a signature help is taken from *)

Lemma isWord_not_space (c : ascii) : isWord c = true -> isSpace c = false.
Proof.
  unfold isWord, isSpace, isDigit. generalize (charCode c) as n. intros n H.
  rewrite !orb_true_iff, !andb_true_iff, !Nat.leb_le, Nat.eqb_eq in H.
  rewrite !orb_false_iff, andb_false_iff, !Nat.leb_gt, !Nat.eqb_neq. lia.
Qed.

Lemma dropWhile_stop (p : ascii -> bool) (c : ascii) (s : str) :
  p c = false -> dropWhile p (c :: s) = c :: s.
Proof. intros H. cbn [dropWhile]. now rewrite H. Qed.

Lemma matchHere_fnRegex_other (c : ascii) (s : str) :
  c <> "f"%char -> matchHere fnRegex (c :: s) = None.
Proof.
  intros Hc. unfold matchHere, fnRegex. rewrite run_Seq. cbn [run].
  change (lit "fn") with ["f"; "n"]%char. cbn [isPrefix].
  destruct (chr_eqb "f" c) eqn:E; [|reflexivity].
  apply chr_eqb_eq in E. congruence.
Qed.

Lemma search_fnRegex_indent (indent l : str) (i : nat) :
  Forall (fun c => c <> "f"%char) indent ->
  search fnRegex i (indent ++ l) = search fnRegex (i + length indent) l.
Proof.
  intros H; revert i; induction H as [|c indent Hc _ IH]; intros i.
  - cbn. now rewrite Nat.add_0_r.
  - cbn [app search length]. rewrite matchHere_fnRegex_other by assumption.
    rewrite IH. f_equal. lia.
Qed.

Lemma indexOf_fn_indent (indent l : str) :
  Forall (fun c => c <> "f"%char) indent ->
  indexOf (lit "fn") (indent ++ lit "fn" ++ l) = Some (length indent).
Proof.
  induction 1 as [|c indent Hc _ IH].
  - reflexivity.
  - cbn [app length indexOf]. change (lit "fn") with ["f"; "n"]%char at 1.
    cbn [isPrefix]. destruct (chr_eqb "f" c) eqn:E.
    + apply chr_eqb_eq in E. congruence.
    + cbn [andb]. now rewrite IH.
Qed.

(** A line that defines [name]: the match of the regular expression of
    the handler, and its first group. *)
Lemma matchHere_fn_definition (name gap gap' rest : str) :
  name <> [] -> Forall (fun c => isWord c = true) name ->
  gap <> [] -> Forall (fun c => isSpace c = true) gap ->
  Forall (fun c => isSpace c = true) gap' ->
  matchHere fnRegex (lit "fn" ++ gap ++ name ++ gap' ++ lit "(" ++ rest)
  = Some (rest, [(1%nat, name)]).
Proof.
  intros Hn Hw Hg Hs Hs'. unfold matchHere, fnRegex.
  rewrite run_Seq, run_Str, run_Seq.
  destruct gap as [|g gap]; [now destruct Hg|]. apply Forall_cons in Hs as [Hg1 Hs].
  destruct name as [|n name]; [now destruct Hn|].
  pose proof Hw as Hw'. apply Forall_cons in Hw' as [Hn1 _].
  assert (Hstop : dropWhile isWord (gap' ++ lit "(" ++ rest) = gap' ++ lit "(" ++ rest).
  { destruct gap' as [|g' gap']; [reflexivity|].
    apply Forall_cons in Hs' as [Hg' _]. apply dropWhile_stop.
    destruct (isWord g') eqn:E; [|reflexivity].
    apply isWord_not_space in E. congruence. }
  cbn [app]. apply run_Plus_greedy; [exact Hg1|].
  rewrite dropWhile_app_stop by exact Hs.
  rewrite dropWhile_stop by now apply isWord_not_space.
  rewrite run_Seq.
  change (n :: name ++ gap' ++ lit "(" ++ rest)
    with ((n :: name) ++ gap' ++ lit "(" ++ rest).
  apply run_Group_Plus_text; [discriminate|exact Hw|exact Hstop|].
  rewrite run_Seq. cbn [run]. apply star_greedy.
  rewrite dropWhile_app_stop by exact Hs'.
  change (lit "(" ++ rest) with ("("%char :: rest).
  rewrite dropWhile_stop by reflexivity.
  reflexivity.
Qed.

Lemma search_groupText (r : regex) (s s' : str) (caps : captures) (i : nat) :
  matchHere r s = Some (s', caps) ->
  exists m, search r i s = Some m /\ groups m = caps.
Proof.
  intros H. destruct s; cbn [search]; rewrite H; eexists; split; reflexivity.
Qed.

(** X25.  The definition a signature help is taken from is the first line
    of the document on which [fn <name> (] is found with the name of the
    call: for a line [<indent>fn<gap><name><gap'>(...] after lines that
    define other names or none, the compiler is asked about that line
    (counted from 1) at the column three past the [fn], which is the
    start of the name when one space separates them. *)
Theorem X25_signature_help_takes_the_first_definition :
  forall (name indent gap gap' rest : str) (before after : list str) (i : nat),
    name <> [] -> Forall (fun c => isWord c = true) name ->
    Forall (fun c => c <> "f"%char) indent ->
    gap <> [] -> Forall (fun c => isSpace c = true) gap ->
    Forall (fun c => isSpace c = true) gap' ->
    Forall (fun l => forall m, exec fnRegex l = Some m -> groupText 1 m <> name)
      before ->
    findFunctionDefinition name i
      (before ++ (indent ++ lit "fn" ++ gap ++ name ++ gap' ++ lit "(" ++ rest)
              :: after)
    = Some ((i + length before + 1)%nat, (length indent + 3)%nat).
Proof.
  intros name indent gap gap' rest before after i Hn Hw Hi Hg Hs Hs' Hb.
  revert i. induction Hb as [|l before Hl _ IH]; intros i.
  - cbn [app length findFunctionDefinition]. unfold exec.
    rewrite (search_fnRegex_indent indent _ 0 Hi).
    destruct (search_groupText fnRegex _ _ _ (0 + length indent)
                (matchHere_fn_definition name gap gap' rest Hn Hw Hg Hs Hs'))
      as (m & -> & Hm).
    assert (E : groupText 1 m = name).
    { unfold groupText, group. rewrite Hm. reflexivity. }
    rewrite decide_True by exact E.
    rewrite (indexOf_fn_indent indent _ Hi). do 2 f_equal. lia.
  - cbn [app length findFunctionDefinition].
    destruct (exec fnRegex l) as [m|] eqn:E.
    + rewrite decide_False by now apply Hl.
      rewrite IH. do 2 f_equal. lia.
    + rewrite IH. do 2 f_equal. lia.
Qed.

Lemma X25_signature_help_definition_witness :
  lit "add" <> [] /\ Forall (fun c => isWord c = true) (lit "add")
  /\ Forall (fun c => c <> "f"%char) (lit "  ")
  /\ lit " " <> [] /\ Forall (fun c => isSpace c = true) (lit " ")
  /\ Forall (fun c => isSpace c = true) []
  /\ Forall (fun l => forall m, exec fnRegex l = Some m -> groupText 1 m <> lit "add")
       [lit "x := 1"]
  /\ findFunctionDefinition (lit "add") 0
       ([lit "x := 1"]
        ++ (lit "  " ++ lit "fn" ++ lit " " ++ lit "add" ++ [] ++ lit "(" ++ lit "a, b)")
        :: [lit "y := add(1, 2)"])
     = Some ((0 + length [lit "x := 1"] + 1)%nat, (length (lit "  ") + 3)%nat).
Proof.
  assert (H1 : lit "add" <> []) by discriminate.
  assert (H2 : Forall (fun c => isWord c = true) (lit "add"))
    by (repeat constructor).
  assert (H3 : Forall (fun c => c <> "f"%char) (lit "  "))
    by (repeat constructor; discriminate).
  assert (H4 : lit " " <> []) by discriminate.
  assert (H5 : Forall (fun c => isSpace c = true) (lit " "))
    by (repeat constructor).
  assert (H6 : Forall (fun c => isSpace c = true) []) by constructor.
  assert (H7 : Forall (fun l => forall m, exec fnRegex l = Some m ->
                                          groupText 1 m <> lit "add")
                 [lit "x := 1"]).
  { repeat constructor. intros m Hm.
    assert (E : exec fnRegex (lit "x := 1") = None) by reflexivity.
    rewrite E in Hm. discriminate Hm. }
  repeat (split; [assumption|]).
  exact (X25_signature_help_takes_the_first_definition (lit "add") (lit "  ")
           (lit " ") [] (lit "a, b)") [lit "x := 1"] [lit "y := add(1, 2)"] 0
           H1 H2 H3 H4 H5 H6 H7).
Defined.

(** ** Configuration changes and the debounce *)

Lemma revalidation_frame (all : list TextDocument) (s : Server) :
  let s' := fold_left (fun s document => validateTextDocument document s) all s in
  timers s' = timers s /\ validationTimers s' = validationTimers s
  /\ objects s' = objects s /\ synced s' = synced s
  /\ validatedDocuments s' = validatedDocuments s
  /\ (nextId s <= nextId s')%nat.
Proof.
  revert s. induction all as [|d all IH]; intros s; cbn [fold_left].
  - repeat split. lia.
  - destruct (IH (validateTextDocument d s)) as (-> & -> & -> & -> & -> & Hi).
    destruct (validateTextDocument_frame d s)
      as (_ & -> & -> & -> & -> & _ & -> & Hi').
    repeat split. lia.
Qed.

(** X26.  A change of the configuration sets and cancels no timer, opens
    and closes no document, marks none as validated and publishes
    nothing itself: the diagnostics shown stay until the compiler runs of
    the validations it starts end; and it keeps the invariant of the
    timers. *)
Theorem X26_configuration_change_keeps_timers_and_diagnostics :
  forall (findCompiler : str -> option str) (all : list TextDocument)
         (volta : option VoltaSettings) (s : Server),
    let s' := onDidChangeConfiguration findCompiler all volta s in
    timers s' = timers s /\ validationTimers s' = validationTimers s
    /\ objects s' = objects s /\ synced s' = synced s
    /\ validatedDocuments s' = validatedDocuments s
    /\ (forall v, published v (trace s') = published v (trace s))
    /\ (wf s -> wf s').
Proof.
  intros findCompiler all volta s s'. subst s'.
  set (s' := onDidChangeConfiguration findCompiler all volta s).
  assert (F : timers s' = timers s /\ validationTimers s' = validationTimers s
              /\ objects s' = objects s /\ synced s' = synced s
              /\ validatedDocuments s' = validatedDocuments s
              /\ (nextId s <= nextId s')%nat).
  { subst s'. unfold onDidChangeConfiguration.
    set (s1 := if hasConfigurationCapability s then _ else _).
    assert (F1 : timers s1 = timers s /\ validationTimers s1 = validationTimers s
                 /\ objects s1 = objects s /\ synced s1 = synced s
                 /\ validatedDocuments s1 = validatedDocuments s
                 /\ nextId s1 = nextId s)
      by (subst s1; now destruct (hasConfigurationCapability s)).
    destruct F1 as (<- & <- & <- & <- & <- & <-).
    cbn [voltaCompilerPath set_voltaCompilerPath].
    set (s3 := match findCompiler (compilerPath (globalSettings s1)) with
               | Some (c :: path) => _
               | _ => _
               end).
    assert (F3 : timers s3 = timers s1 /\ validationTimers s3 = validationTimers s1
                 /\ objects s3 = objects s1 /\ synced s3 = synced s1
                 /\ validatedDocuments s3 = validatedDocuments s1
                 /\ nextId s3 = nextId s1)
      by (subst s3; now destruct (findCompiler _) as [[|c path]|]).
    destruct F3 as (<- & <- & <- & <- & <- & <-).
    destruct (decide _); [repeat split; lia|]. apply revalidation_frame. }
  destruct F as (Et & Ev & Eo & Es & Ed & Hi).
  repeat (split; [assumption|]). split.
  - intros v. subst s'.
    destruct (configuration_trace findCompiler all volta s) as (extra & -> & Hx).
    now apply published_no_send.
  - now apply wf_frame.
Qed.
